(** * The IntelliJ test-tree reporter ([Tree], [Node], [TestSuiteNode],
      [TestNode]) and its TeamCity attribute escaper

    JavaScript strings are sequences of UTF-16 code units; objects are
    mutable and shared by reference.  The tree is therefore embedded as a
    store of nodes addressed by references, threaded through a state and
    exception monad, and strings are lists of code units. *)

From Stdlib Require Import ZArith NArith Ascii String List Lia.
From Stdlib Require Import DecimalString DecimalN DecimalZ Sorted.
From stdpp Require Import base option list strings gmap.

Local Open Scope N_scope.

(** ** JavaScript strings *)

(** A code unit is a number below 65536; the functions below never build
    one that is not already in their input or in a literal. *)
Abbreviation jsstring := (list N) (only parsing).

(** An ASCII literal of the source, as code units. *)
Definition lit (s : string) : jsstring :=
  map N_of_ascii (list_ascii_of_string s).

(** [str.charCodeAt(i)]: [None] stands for the NaN of an index out of range. *)
Definition charCodeAt (str : jsstring) (i : nat) : option N := str !! i.

(** [str.charAt(i)]: the empty string out of range. *)
Definition charAt (str : jsstring) (i : nat) : jsstring :=
  match str !! i with
  | Some c => [c]
  | None => []
  end.

(** ** The escaper *)

Module Escaper.

(** The [obj] table of [doEscapeCharCode], in the order of its [addMapping]
    calls: (code of [fromChar], code of [toChar]). *)
Definition mappings : list (N * N) :=
  [ (10, 110)      (* '\n'     -> 'n' *)
  ; (13, 114)      (* '\r'     -> 'r' *)
  ; (133, 120)     (* '\u0085' -> 'x' *)
  ; (8232, 108)    (* U+2028  -> 'l' *)
  ; (8233, 112)    (* U+2029  -> 'p' *)
  ; (124, 124)     (* '|'      -> '|' *)
  ; (39, 39)       (* '\''     -> '\'' *)
  ; (91, 91)       (* '['      -> '[' *)
  ; (93, 93)       (* ']'      -> ']' *)
  ].

(** [obj[charCode]]; [None] is [undefined]. *)
Fixpoint lookupMapping (obj : list (N * N)) (charCode : N) : option N :=
  match obj with
  | [] => None
  | (from, to) :: rest =>
      if from =? charCode then Some to else lookupMapping rest charCode
  end.

Definition doEscapeCharCode (charCode : N) : option N :=
  lookupMapping mappings charCode.

(** The body of the [for] loop of [isAttributeValueEscapingNeeded], from
    index [i] with [n] iterations left.  Every mapped value is a one-character
    string, hence truthy. *)
Fixpoint isNeeded_from (str : jsstring) (i n : nat) : bool :=
  match n with
  | O => false
  | S n' =>
      match charCodeAt str i with
      | Some c =>
          match doEscapeCharCode c with
          | Some _ => true
          | None => isNeeded_from str (S i) n'
          end
      | None => isNeeded_from str (S i) n'
      end
  end.

Definition isAttributeValueEscapingNeeded (str : jsstring) : bool :=
  isNeeded_from str 0 (length str).

(** The second [for] loop of [escapeAttributeValue]: [res] is the
    accumulator. *)
Fixpoint escape_from (str : jsstring) (i n : nat) (res : jsstring) : jsstring :=
  match n with
  | O => res
  | S n' =>
      match charCodeAt str i ≫= doEscapeCharCode with
      | Some escaped => escape_from str (S i) n' ((res ++ [124]) ++ [escaped])
      | None => escape_from str (S i) n' (res ++ charAt str i)
      end
  end.

Definition escapeAttributeValue (str : jsstring) : jsstring :=
  if negb (isAttributeValueEscapingNeeded str) then str
  else escape_from str 0 (length str) [].

(** *** The scheme as the specification words it *)

(** The designated substitute of each escapable character. *)
Definition substitute (c : N) : option N :=
  match c with
  | 10 => Some 110      (* newline: n *)
  | 13 => Some 114      (* carriage return: r *)
  | 133 => Some 120     (* U+0085: x *)
  | 8232 => Some 108    (* U+2028: l *)
  | 8233 => Some 112    (* U+2029: p *)
  | 124 => Some 124     (* pipe: itself *)
  | 39 => Some 39       (* single quote: itself *)
  | 91 => Some 91       (* [ *)
  | 93 => Some 93       (* ] *)
  | _ => None
  end.

Definition escapable (c : N) : bool :=
  match substitute c with Some _ => true | None => false end.

(** One character of the output: the pipe and the substitute, or the
    character itself. *)
Definition escapeChar (c : N) : jsstring :=
  match substitute c with
  | Some e => [124; e]
  | None => [c]
  end.

Definition escape_spec (str : jsstring) : jsstring := flat_map escapeChar str.

(** The character a substitute stands for, after a pipe. *)
Definition original (e : N) : option N :=
  match e with
  | 110 => Some 10
  | 114 => Some 13
  | 120 => Some 133
  | 108 => Some 8232
  | 112 => Some 8233
  | 124 => Some 124
  | 39 => Some 39
  | 91 => Some 91
  | 93 => Some 93
  | _ => None
  end.

(** The decoder of the two-character scheme.  A pipe opens a pair; any other
    escapable character cannot occur bare. *)
Fixpoint unescape (text : jsstring) : option jsstring :=
  match text with
  | [] => Some []
  | c :: rest =>
      if c =? 124 then
        match rest with
        | [] => None
        | e :: rest' =>
            match original e, unescape rest' with
            | Some o, Some r => Some (o :: r)
            | _, _ => None
            end
        end
      else if escapable c then None
      else match unescape rest with
           | Some r => Some (c :: r)
           | None => None
           end
  end.

End Escaper.

Import Escaper.

(** ** Numbers in messages *)

(** ['' + n] for a non-negative integer counter.  The counters of the tree
    start at 0 or 1 and grow by one, so they stay integers, which JavaScript
    numbers hold exactly below 2^53 and print in decimal. *)
Definition dec (n : N) : jsstring :=
  lit (NilEmpty.string_of_uint (N.to_uint n)).

(** ['' + n] for an integer of either sign (a duration, a test count). *)
Definition decZ (z : Z) : jsstring :=
  lit (NilEmpty.string_of_int (Z.to_int z)).

(** ** Data model *)

(** The four [NodeState] singletons, compared by reference in the source. *)
Inductive NodeState := CREATED | REGISTERED | STARTED | FINISHED.

(** The four [TestOutcome] singletons. *)
Inductive TestOutcome := SUCCESS | SKIPPED | FAILED | ERROR.

#[global] Instance NodeState_eq_dec : EqDecision NodeState.
Proof. solve_decision. Defined.
#[global] Instance TestOutcome_eq_dec : EqDecision TestOutcome.
Proof. solve_decision. Defined.

(** [NodeState.prototype.toString]. *)
Definition NodeState_toString (s : NodeState) : string :=
  match s with
  | CREATED => "created"
  | REGISTERED => "registered"
  | STARTED => "started"
  | FINISHED => "finished"
  end.

(** A node id is the number [0] of the root, a number taken from
    [tree.nextId], or the string [idPrefix + '-' + n]. *)
Inductive NodeId := NumId (n : N) | StrId (s : jsstring).

(** ['' + id]. *)
Definition idText (i : NodeId) : jsstring :=
  match i with
  | NumId n => dec n
  | StrId s => s
  end.

(** An object reference: the address of a node in the store. *)
Abbreviation ref := nat (only parsing).

(** A value of [lookupMap]: one child, or an array of children once a name
    is used twice. *)
Inductive LookupEntry := Single (child : ref) | Several (sameName : list ref).

(** The fields [TestSuiteNode] adds to [Node].  [lookupMap] is an object
    used as a map from names to entries; names that are no ordinary keys of
    a JavaScript object, such as '__proto__', are not told apart here. *)
Record SuiteFields := {
  children : list ref;
  lookupMap : gmap (list N) LookupEntry;
  finishedChildCount : N
}.

(** The fields [TestNode] adds to [Node]; [None] is [undefined] or [null]. *)
Record TestFields := {
  outcome : option TestOutcome;
  durationMillis : option Z;
  failureMsg : option jsstring;
  failureDetails : option jsstring;
  expectedStr : option jsstring;
  actualStr : option jsstring;
  expectedFilePath : option jsstring;
  actualFilePath : option jsstring;
  metainfo : option jsstring
}.

Inductive NodeClass :=
| TestSuiteNode (f : SuiteFields)
| TestNode (f : TestFields).

(** The fields of [Node]; the field [tree] is the one store every node
    lives in. *)
Record Node := {
  nodeId : NodeId;
  parent : option ref;
  name : jsstring;
  type : option jsstring;
  locationPath : option jsstring;
  state : NodeState;
  own : NodeClass
}.

(** [Tree]: its fields, the store of node objects and what was passed to
    [write] so far, oldest first.  [root] is the address of the root object;
    [nextId] is a counter that is only ever incremented. *)
Record Tree := {
  idPrefix : option jsstring;
  root : ref;
  nextId : N;
  heap : list Node;
  written : list jsstring
}.

Definition with_state (s : NodeState) (n : Node) : Node :=
  {| nodeId := nodeId n; parent := parent n; name := name n; type := type n;
     locationPath := locationPath n; state := s; own := own n |}.

Definition with_own (c : NodeClass) (n : Node) : Node :=
  {| nodeId := nodeId n; parent := parent n; name := name n; type := type n;
     locationPath := locationPath n; state := state n; own := c |}.

Definition with_heap (h : list Node) (t : Tree) : Tree :=
  {| idPrefix := idPrefix t; root := root t; nextId := nextId t;
     heap := h; written := written t |}.

Definition with_nextId (n : N) (t : Tree) : Tree :=
  {| idPrefix := idPrefix t; root := root t; nextId := n;
     heap := heap t; written := written t |}.

Definition with_written (w : list jsstring) (t : Tree) : Tree :=
  {| idPrefix := idPrefix t; root := root t; nextId := nextId t;
     heap := heap t; written := w |}.

(** ** Exceptions and the monad of methods *)

(** One constructor per [throw] of the source, and one for the [TypeError]
    the engine raises on a missing method or on a property of [undefined]. *)
Inductive exn :=
| UnexpectedNodeState (s : NodeState)  (* 'Unexpected node state: ' + state *)
| CannotStartFinished                  (* 'Cannot start finished node' *)
| ChildOfFinished     (* 'Child node cannot be created for finished nodes!' *)
| OutcomeAlreadySet                    (* 'Test outcome has already been set!' *)
| UnexpectedOutcome                    (* 'Unexpected outcome: ' + outcome *)
| JsTypeError
| FuelExhausted.  (* no exception: the model's bound on nested calls ran out *)

(** The message of the [Error] thrown; an outcome that is not one of the
    four is [undefined] here. *)
Definition exnMessage (e : exn) : option string :=
  match e with
  | UnexpectedNodeState s =>
      Some ("Unexpected node state: " ++ NodeState_toString s)%string
  | CannotStartFinished => Some "Cannot start finished node"%string
  | ChildOfFinished =>
      Some "Child node cannot be created for finished nodes!"%string
  | OutcomeAlreadySet => Some "Test outcome has already been set!"%string
  | UnexpectedOutcome => Some "Unexpected outcome: undefined"%string
  | JsTypeError | FuelExhausted => None
  end.

(** The error classes of the specification. *)
Inductive ErrorClass := IllegalState | AlreadySet | OtherError.

Definition classify (e : exn) : ErrorClass :=
  match e with
  | UnexpectedNodeState _ | CannotStartFinished | ChildOfFinished => IllegalState
  | OutcomeAlreadySet => AlreadySet
  | _ => OtherError
  end.

Inductive result (A : Type) :=
| Ok (a : A)
| Throw (e : exn).
Arguments Ok {A} a.
Arguments Throw {A} e.

(** A method: it reads and mutates the tree, and returns or throws.  What
    it mutated before throwing stays mutated. *)
Definition M (A : Type) : Type := Tree -> result A * Tree.

Definition ret {A} (a : A) : M A := fun t => (Ok a, t).
Definition throw {A} (e : exn) : M A := fun t => (Throw e, t).
Definition bind {A B} (m : M A) (k : A -> M B) : M B :=
  fun t => match m t with
           | (Ok a, t') => k a t'
           | (Throw e, t') => (Throw e, t')
           end.
Definition getTree : M Tree := fun t => (Ok t, t).
Definition modifyTree (f : Tree -> Tree) : M unit := fun t => (Ok tt, f t).
Definition liftResult {A} (r : result A) : M A := fun t => (r, t).

Notation "x <- m ;; k" := (bind m (fun x => k))
  (at level 100, m at level 99, right associativity).
Notation "m ;;; k" := (bind m (fun _ => k))
  (at level 100, right associativity).

(** Dereference: a reference not in the store has no fields. *)
Definition getNode (r : ref) : M Node :=
  fun t => match heap t !! r with
           | Some n => (Ok n, t)
           | None => (Throw JsTypeError, t)
           end.

(** Assignment to fields of the object at [r]. *)
Definition alterNode (r : ref) (f : Node -> Node) (t : Tree) : Tree :=
  with_heap (alter f r (heap t)) t.

Definition updNode (r : ref) (f : Node -> Node) : M unit :=
  modifyTree (alterNode r f).

(** [this.writeln(str)]: [write(str + '\n')]. *)
Definition emit (str : jsstring) (t : Tree) : Tree :=
  with_written (written t ++ [str ++ [10]]) t.

Definition writeln (str : jsstring) : M unit := modifyTree (emit str).

(** ** [Tree] *)

Definition emptySuite : SuiteFields :=
  {| children := []; lookupMap := ∅; finishedChildCount := 0 |}.

Definition emptyTest : TestFields :=
  {| outcome := None; durationMillis := None; failureMsg := None;
     failureDetails := None; expectedStr := None; actualStr := None;
     expectedFilePath := None; actualFilePath := None; metainfo := None |}.

(** [new Tree(idPrefix, write)]: the invisible root is the first object of
    the store, with id 0 and no parent. *)
Definition newTree (idPrefix : option jsstring) : Tree :=
  {| idPrefix := idPrefix;
     root := 0%nat;
     nextId := 1;
     heap := [ {| nodeId := NumId 0; parent := None; name := lit "hidden root";
                  type := None; locationPath := None; state := CREATED;
                  own := TestSuiteNode emptySuite |} ];
     written := [] |}.

Definition MESSAGE_PREFIX : jsstring := lit "##teamcity[".

Definition startNotify : M unit := writeln (lit "##teamcity[enteredTheMatrix]").

(** An optional attribute, written before the quote that closes the
    previous one. *)
Definition optAttr (key : string) (value : option jsstring) : jsstring :=
  match value with
  | Some v => lit "' " ++ lit key ++ lit "='" ++ escapeAttributeValue v
  | None => []
  end.

Definition updateRootNode (name : jsstring) (comment location : option jsstring)
  : M unit :=
  writeln (MESSAGE_PREFIX ++ lit "rootName name='" ++ escapeAttributeValue name
           ++ optAttr "comment" comment ++ optAttr "location" location
           ++ lit "']").

(** [None] is an argument that is not a number. *)
Definition addTotalTestCount (totalTestCount : option Z) : M unit :=
  match totalTestCount with
  | Some n =>
      if decide (0 < n)%Z
      then writeln (lit "##teamcity[testCount count='" ++ decZ n ++ lit "']")
      else ret tt
  | None => ret tt
  end.

Definition testingStarted : M unit := writeln (lit "##teamcity[testingStarted]").
Definition testingFinished : M unit := writeln (lit "##teamcity[testingFinished]").

(** ** [Node] *)

(** The two overrides of the abstract [getStartCommandName]; the base
    method, which throws, is never reached by a node of either class. *)
Definition getStartCommandName (n : Node) : jsstring :=
  match own n with
  | TestSuiteNode _ => lit "testSuiteStarted"
  | TestNode _ => lit "testStarted"
  end.

(** [this.metainfo]: a suite has no such property. *)
Definition metainfoOf (n : Node) : option jsstring :=
  match own n with
  | TestSuiteNode _ => None
  | TestNode f => metainfo f
  end.

Definition boolText (b : bool) : jsstring :=
  if b then lit "true" else lit "false".

Definition getInitMessage (this : ref) (running : bool) : M jsstring :=
  n <- getNode this ;;
  parentId <- match parent n with
              | Some p => pn <- getNode p ;; ret (idText (nodeId pn))
              | None => ret (dec 0)
              end ;;
  ret (lit "##teamcity[" ++ getStartCommandName n
       ++ lit " nodeId='" ++ idText (nodeId n)
       ++ lit "' parentNodeId='" ++ parentId
       ++ lit "' name='" ++ escapeAttributeValue (name n)
       ++ lit "' running='" ++ boolText running
       ++ match type n with
          | Some ty =>
              lit "' nodeType='" ++ ty
              ++ match locationPath n with
                 | Some path =>
                     lit "' locationHint='"
                     ++ escapeAttributeValue (ty ++ lit "://" ++ path)
                 | None => []
                 end
          | None => []
          end
       ++ optAttr "metainfo" (metainfoOf n)
       ++ lit "']").

Definition getRegisterMessage (this : ref) : M jsstring :=
  n <- getNode this ;;
  if decide (state n = CREATED) then getInitMessage this false
  else throw (UnexpectedNodeState (state n)).

Definition register (this : ref) : M unit :=
  text <- getRegisterMessage this ;;
  writeln text ;;;
  updNode this (with_state REGISTERED).

Definition getStartMessage (this : ref) : M jsstring :=
  n <- getNode this ;;
  if decide (state n = CREATED) then getInitMessage this true
  else if decide (state n = REGISTERED) then
    ret (lit "##teamcity[" ++ getStartCommandName n ++ lit " nodeId='"
         ++ idText (nodeId n) ++ lit "' running='true']")
  else throw (UnexpectedNodeState (state n)).

Definition start (this : ref) : M unit :=
  n <- getNode this ;;
  if decide (state n = FINISHED) then throw CannotStartFinished
  else if decide (state n = STARTED) then ret tt
  else
    text <- getStartMessage this ;;
    writeln text ;;;
    updNode this (with_state STARTED).

Definition isFinished (this : ref) : M bool :=
  n <- getNode this ;;
  ret (bool_decide (state n = FINISHED)).

(** [TestNode.prototype.getFinishCommandName]. *)
Definition testFinishCommandName (f : TestFields) : result jsstring :=
  match outcome f with
  | Some SUCCESS => Ok (lit "testFinished")
  | Some SKIPPED => Ok (lit "testIgnored")
  | Some FAILED => Ok (lit "testFailed")
  | Some ERROR => Ok (lit "testFailed")
  | None => Throw UnexpectedOutcome
  end.

Definition getFinishCommandName (n : Node) : result jsstring :=
  match own n with
  | TestSuiteNode _ => Ok (lit "testSuiteFinished")
  | TestNode f => testFinishCommandName f
  end.

(** One [params += ...] of [TestNode.prototype.getExtraFinishMessageParameters]. *)
Definition finishAttr (key : string) (value : option jsstring) : jsstring :=
  match value with
  | Some v => lit " " ++ lit key ++ lit "='" ++ escapeAttributeValue v ++ lit "'"
  | None => []
  end.

Definition testExtraFinishMessageParameters (f : TestFields) : option jsstring :=
  let params :=
    match durationMillis f with
    | Some d => lit " duration='" ++ decZ d ++ lit "'"
    | None => []
    end
    ++ (if decide (outcome f = Some ERROR) then lit " error='yes'" else [])
    ++ finishAttr "message" (failureMsg f)
    ++ finishAttr "details" (failureDetails f)
    ++ finishAttr "expected" (expectedStr f)
    ++ finishAttr "actual" (actualStr f)
    ++ finishAttr "expectedFile" (expectedFilePath f)
    ++ finishAttr "actualFile" (actualFilePath f) in
  if decide (length params = 0%nat) then None else Some params.

Definition getExtraFinishMessageParameters (n : Node) : option jsstring :=
  match own n with
  | TestSuiteNode _ => None
  | TestNode f => testExtraFinishMessageParameters f
  end.

Definition getFinishMessage (n : Node) : result jsstring :=
  match getFinishCommandName n with
  | Ok command =>
      Ok (lit "##teamcity[" ++ command
          ++ lit " nodeId='" ++ idText (nodeId n) ++ lit "'"
          ++ match getExtraFinishMessageParameters n with
             | Some extraParameters => extraParameters
             | None => []
             end
          ++ lit "]")
  | Throw e => Throw e
  end.

(** Assignment to fields of a suite, and of a test. *)
Definition onSuite (g : SuiteFields -> SuiteFields) (n : Node) : Node :=
  match own n with
  | TestSuiteNode f => with_own (TestSuiteNode (g f)) n
  | TestNode _ => n
  end.

Definition onTest (g : TestFields -> TestFields) (n : Node) : Node :=
  match own n with
  | TestSuiteNode _ => n
  | TestNode f => with_own (TestNode (g f)) n
  end.

(** [this.finishedChildCount++]. *)
Definition incrFinishedChildCount (f : SuiteFields) : SuiteFields :=
  {| children := children f; lookupMap := lookupMap f;
     finishedChildCount := finishedChildCount f + 1 |}.

(** [TestSuiteNode.prototype.onChildFinished], with the [finish] it calls
    back as a parameter.  A [TestNode] has no such method. *)
Definition onChildFinished_with (finish : ref -> bool -> M unit) (this : ref)
  : M unit :=
  n <- getNode this ;;
  match own n with
  | TestSuiteNode f =>
      updNode this (onSuite incrFinishedChildCount) ;;;
      if decide (finishedChildCount f + 1 = N.of_nat (length (children f))) then
        if decide (state n ≠ FINISHED) then finish this true else ret tt
      else ret tt
  | TestNode _ => throw JsTypeError
  end.

(** [Node.prototype.finish].  [fuel] bounds the chain of calls
    finish -> onChildFinished -> finish up the ancestors. *)
Fixpoint finish (fuel : nat) (this : ref) (finishParentIfLast : bool) : M unit :=
  match fuel with
  | O => throw FuelExhausted
  | S fuel' =>
      t <- getTree ;;
      if decide (root t = this) then ret tt
      else
        n <- getNode this ;;
        if decide (state n ≠ REGISTERED ∧ state n ≠ STARTED)
        then throw (UnexpectedNodeState (state n))
        else
          text <- liftResult (getFinishMessage n) ;;
          writeln text ;;;
          updNode this (with_state FINISHED) ;;;
          if finishParentIfLast then
            match parent n with
            | Some p =>
                if decide (p ≠ root t)
                then onChildFinished_with (finish fuel') p
                else ret tt
            | None => ret tt
            end
          else ret tt
  end.

Definition onChildFinished (fuel : nat) (this : ref) : M unit :=
  onChildFinished_with (finish fuel) this.

Fixpoint forEach {A} (body : A -> M unit) (l : list A) : M unit :=
  match l with
  | [] => ret tt
  | x :: l' => body x ;;; forEach body l'
  end.

(** [Node.prototype.finishIfStarted].  Only [TestSuiteNode] has a
    [children] array: on a [TestNode], [this.children.length] is a property
    of [undefined].  No call under the loop changes a [children] array, so
    the loop runs over the array as read on entry.  [this.finish()] passes
    no argument, and [undefined] is falsy. *)
Fixpoint finishIfStarted (fuel : nat) (this : ref) : M unit :=
  match fuel with
  | O => throw FuelExhausted
  | S fuel' =>
      n <- getNode this ;;
      if decide (state n ≠ FINISHED) then
        match own n with
        | TestSuiteNode f =>
            forEach (finishIfStarted fuel') (children f) ;;;
            finish fuel this false
        | TestNode _ => throw JsTypeError
        end
      else ret tt
  end.

(** ** [TestSuiteNode] *)

(** [getChildrenByName]: the own property [childName] of [lookupMap]. *)
Definition getChildrenByName (f : SuiteFields) (childName : jsstring)
  : option LookupEntry :=
  lookupMap f !! childName.

Definition isSuite (h : list Node) (r : ref) : bool :=
  match h !! r with
  | Some {| own := TestSuiteNode _ |} => true
  | _ => false
  end.

Definition findChildNodeByName (this : ref) (childName : jsstring)
  : M (option ref) :=
  n <- getNode this ;;
  match own n with
  | TestSuiteNode f =>
      match getChildrenByName f childName with
      | Some (Several result) =>
          t <- getTree ;;
          match List.find (isSuite (heap t)) result with
          | Some suite => ret (Some suite)
          | None => ret (head result)
          end
      | Some (Single child) => ret (Some child)
      | None => ret None
      end
  | TestNode _ => throw JsTypeError
  end.

(** [addChildNode(parentNode, childNode)] on the fields of the parent. *)
Definition addChildNode (f : SuiteFields) (childName : jsstring) (child : ref)
  : SuiteFields :=
  let entry :=
    match getChildrenByName f childName with
    | Some (Several sameName) => Several (sameName ++ [child])
    | Some (Single first) => Several [first; child]
    | None => Single child
    end in
  {| children := children f;
     lookupMap := <[childName := entry]> (lookupMap f);
     finishedChildCount := finishedChildCount f |}.

(** [this.children.push(child)]. *)
Definition pushChild (child : ref) (f : SuiteFields) : SuiteFields :=
  {| children := children f ++ [child]; lookupMap := lookupMap f;
     finishedChildCount := finishedChildCount f |}.

(** The id of the next child: [tree.nextId], with the prefix if there is
    one. *)
Definition childIdOf (idPrefix : option jsstring) (n : N) : NodeId :=
  match idPrefix with
  | Some prefix => StrId (prefix ++ lit "-" ++ dec n)
  | None => NumId n
  end.

(** The common body of [addTestChild] and [addTestSuiteChild], which differ
    in the constructor they call ([fields]).  The new object gets the next
    free address of the store. *)
Definition addChild (fields : NodeClass) (this : ref) (childName : jsstring)
    (nodeType locationPath : option jsstring) : M ref :=
  n <- getNode this ;;
  match own n with
  | TestNode _ => throw JsTypeError
  | TestSuiteNode _ =>
      if decide (state n = FINISHED) then throw ChildOfFinished
      else
        t <- getTree ;;
        let childId := childIdOf (idPrefix t) (nextId t) in
        modifyTree (with_nextId (nextId t + 1)) ;;;
        let child := length (heap t) in
        modifyTree (fun t' =>
          with_heap (heap t' ++
            [ {| nodeId := childId; parent := Some this; name := childName;
                 type := nodeType; locationPath := locationPath;
                 state := CREATED; own := fields |} ]) t') ;;;
        updNode this
          (onSuite (fun f => addChildNode (pushChild child f) childName child)) ;;;
        ret child
  end.

Definition addTestChild := addChild (TestNode emptyTest).
Definition addTestSuiteChild := addChild (TestSuiteNode emptySuite).

(** ** [TestNode] *)

(** [!value] for a string or null: null and the empty string are falsy. *)
Definition falsy (value : option jsstring) : bool :=
  match value with
  | None | Some [] => true
  | Some (_ :: _) => false
  end.

Definition setOutcome (this : ref) (outcome' : TestOutcome)
    (durationMillis' : option Z)
    (failureMsg' failureDetails' expectedStr' actualStr'
     expectedFilePath' actualFilePath' : option jsstring) : M unit :=
  n <- getNode this ;;
  match own n with
  | TestSuiteNode _ => throw JsTypeError
  | TestNode f =>
      if decide (outcome f ≠ None) then throw OutcomeAlreadySet
      else
        updNode this (onTest (fun f' =>
          {| outcome := Some outcome';
             durationMillis := durationMillis';
             failureMsg :=
               if bool_decide (outcome' = SKIPPED) && falsy failureMsg'
               then Some (lit "Pending test '" ++ name n ++ lit "'")
               else failureMsg';
             failureDetails := failureDetails';
             expectedStr := expectedStr';
             actualStr := actualStr';
             expectedFilePath := expectedFilePath';
             actualFilePath := actualFilePath';
             metainfo := metainfo f' |}))
  end.

Definition setMetainfo (this : ref) (metainfo' : option jsstring) : M unit :=
  n <- getNode this ;;
  match own n with
  | TestSuiteNode _ => throw JsTypeError
  | TestNode f =>
      updNode this (onTest (fun f' =>
        {| outcome := outcome f'; durationMillis := durationMillis f';
           failureMsg := failureMsg f'; failureDetails := failureDetails f';
           expectedStr := expectedStr f'; actualStr := actualStr f';
           expectedFilePath := expectedFilePath f';
           actualFilePath := actualFilePath f'; metainfo := metainfo' |}))
  end.

(** [err] is [Some] for a string, the empty one included, and [None] for a
    value [isString] rejects. *)
Definition addStdErr (this : ref) (err : option jsstring) : M unit :=
  n <- getNode this ;;
  match own n with
  | TestSuiteNode _ => throw JsTypeError
  | TestNode _ =>
      match err with
      | Some text =>
          writeln (lit "##teamcity[testStdErr nodeId='" ++ idText (nodeId n)
                   ++ lit "' out='" ++ escapeAttributeValue text ++ lit "']")
      | None => ret tt
      end
  end.

(** ** Sessions: calls made on one tree, one after the other *)

Inductive call :=
| StartNotify
| UpdateRootNode (name : jsstring) (comment location : option jsstring)
| AddTotalTestCount (totalTestCount : option Z)
| TestingStarted
| TestingFinished
| Register (this : ref)
| Start (this : ref)
| Finish (this : ref) (finishParentIfLast : bool)
| FinishIfStarted (this : ref)
| AddTestChild (this : ref) (childName : jsstring)
    (nodeType locationPath : option jsstring)
| AddTestSuiteChild (this : ref) (childName : jsstring)
    (nodeType locationPath : option jsstring)
| SetOutcome (this : ref) (outcome' : TestOutcome) (durationMillis' : option Z)
    (failureMsg' failureDetails' expectedStr' actualStr'
     expectedFilePath' actualFilePath' : option jsstring)
| SetMetainfo (this : ref) (metainfo' : option jsstring)
| AddStdErr (this : ref) (err : option jsstring).

(** What a call returns: the new child of the two [add...Child], nothing
    otherwise. *)
Definition perform (fuel : nat) (c : call) : M (option ref) :=
  let unit_ (m : M unit) : M (option ref) := m ;;; ret None in
  match c with
  | StartNotify => unit_ startNotify
  | UpdateRootNode n c l => unit_ (updateRootNode n c l)
  | AddTotalTestCount n => unit_ (addTotalTestCount n)
  | TestingStarted => unit_ testingStarted
  | TestingFinished => unit_ testingFinished
  | Register r => unit_ (register r)
  | Start r => unit_ (start r)
  | Finish r b => unit_ (finish fuel r b)
  | FinishIfStarted r => unit_ (finishIfStarted fuel r)
  | AddTestChild r n ty l => child <- addTestChild r n ty l ;; ret (Some child)
  | AddTestSuiteChild r n ty l =>
      child <- addTestSuiteChild r n ty l ;; ret (Some child)
  | SetOutcome r o d m1 m2 e a ef af => unit_ (setOutcome r o d m1 m2 e a ef af)
  | SetMetainfo r m => unit_ (setMetainfo r m)
  | AddStdErr r e => unit_ (addStdErr r e)
  end.

(** A session: the caller goes on after a call that threw.  The result is
    the tree at the end and what each call returned or threw. *)
Fixpoint session (fuel : nat) (calls : list call) (t : Tree)
  : list (result (option ref)) * Tree :=
  match calls with
  | [] => ([], t)
  | c :: calls' =>
      let '(r, t') := perform fuel c t in
      let '(rs, t'') := session fuel calls' t' in
      (r :: rs, t'')
  end.

(** The ids handed out by a session: those of the children it returned. *)
Definition allocated (rs : list (result (option ref))) (t : Tree) : list NodeId :=
  flat_map (fun r => match r with
                     | Ok (Some child) =>
                         match heap t !! child with
                         | Some n => [nodeId n]
                         | None => []
                         end
                     | _ => []
                     end) rs.

(** ** Invariants of the store *)

Definition eraseCount (c : NodeClass) : NodeClass :=
  match c with
  | TestSuiteNode f =>
      TestSuiteNode {| children := children f; lookupMap := lookupMap f;
                       finishedChildCount := 0 |}
  | TestNode f => TestNode f
  end.

(** A node without what [register], [start], [finish] and [onChildFinished]
    assign: its state and its counter of finished children. *)
Definition erase (n : Node) : Node :=
  with_state CREATED (with_own (eraseCount (own n)) n).

(** [this.children], which only a suite has. *)
Definition childrenOf (n : Node) : option (list ref) :=
  match own n with
  | TestSuiteNode f => Some (children f)
  | TestNode _ => None
  end.

(** What no method assigns after the constructor, but for the [push] of a
    new child. *)
Definition skeleton (n : Node) : NodeId * option ref * option (list ref) :=
  (nodeId n, parent n, childrenOf n).

(** Trees with the same objects, ids, parents and children. *)
Definition sameShape (t t' : Tree) : Prop :=
  idPrefix t' = idPrefix t /\ root t' = root t /\ nextId t' = nextId t
  /\ skeleton <$> heap t' = skeleton <$> heap t.

(** A method whose every run relates the tree before to the tree after. *)
Definition preserves {A} (R : Tree -> Tree -> Prop) (m : M A) : Prop :=
  forall t, R t (m t).2.

(** Trees that differ in states, counters and output only. *)
Definition sameNodes (t t' : Tree) : Prop :=
  idPrefix t' = idPrefix t /\ root t' = root t /\ nextId t' = nextId t
  /\ erase <$> heap t' = erase <$> heap t.

(** [node.state] of the object at [r]. *)
Definition stateOf (t : Tree) (r : ref) : option NodeState :=
  state <$> heap t !! r.

(** [node.finishedChildCount] of the suite at [r]. *)
Definition finishedCountOf (t : Tree) (r : ref) : option N :=
  heap t !! r ≫= fun n =>
    match own n with
    | TestSuiteNode f => Some (finishedChildCount f)
    | TestNode _ => None
    end.

(** Every parent was created before its child. *)
Definition acyclic (t : Tree) : Prop :=
  forall r n p, heap t !! r = Some n -> parent n = Some p -> (p < r)%nat.

(** The shape of a tree built by the constructor and the two [add...Child]:
    the root is the first object, the id of any other object is made from
    its address, which is the value [nextId] had, and the children of a
    suite are distinct objects that point back to it. *)
Record wf (t : Tree) : Prop := {
  wf_root : root t = 0%nat;
  wf_hidden : exists n, heap t !! 0%nat = Some n /\ nodeId n = NumId 0
                        /\ parent n = None;
  wf_nextId : nextId t = N.of_nat (length (heap t));
  wf_parent : forall r n, heap t !! r = Some n -> r <> 0%nat ->
                exists p, parent n = Some p /\ (p < r)%nat;
  wf_id : forall r n, heap t !! r = Some n -> r <> 0%nat ->
            nodeId n = childIdOf (idPrefix t) (N.of_nat r);
  wf_children : forall s n cs, heap t !! s = Some n -> childrenOf n = Some cs ->
                  NoDup cs /\
                  forall c, c ∈ cs ->
                    exists cn, heap t !! c = Some cn /\ parent cn = Some s;
  wf_listed : forall r n p, heap t !! r = Some n -> parent n = Some p ->
                exists pn cs, heap t !! p = Some pn /\ childrenOf pn = Some cs
                              /\ r ∈ cs
}.

(** The children among [cs] that have finished. *)
Definition finishedAmong (t : Tree) (cs : list nat) : list nat :=
  filter (fun c => stateOf t c = Some FINISHED) cs.

(** No suite has counted more finished children than it has: a child is
    counted as it finishes, and once. *)
Definition countsFinished (t : Tree) : Prop :=
  forall s sn f, heap t !! s = Some sn -> own sn = TestSuiteNode f ->
    (N.to_nat (finishedChildCount f) <= length (finishedAmong t (children f)))%nat.

(** The same, but for the suite [p], one child of which has finished and
    is not counted yet. *)
Definition countsFinishedBut (p : nat) (t : Tree) : Prop :=
  forall s sn f, heap t !! s = Some sn -> own sn = TestSuiteNode f ->
    (N.to_nat (finishedChildCount f) + (if decide (s = p) then 1 else 0)
     <= length (finishedAmong t (children f)))%nat.

(** Trees with the same objects in the same states and with the same
    counters. *)
Definition sameLife (t t' : Tree) : Prop :=
  sameShape t t'
  /\ (forall r, stateOf t' r = stateOf t r)
  /\ (forall r, finishedCountOf t' r = finishedCountOf t r).

(** Trees with the same objects and counters, where what had finished has
    finished. *)
Definition ages (t t' : Tree) : Prop :=
  sameShape t t'
  /\ (forall r, finishedCountOf t' r = finishedCountOf t r)
  /\ (forall r, stateOf t r = Some FINISHED -> stateOf t' r = Some FINISHED).

(** The tree after a successful [add...Child] on the suite [this]: one more
    object, pushed and indexed in [this], and the counter of ids advanced. *)
Definition grown (fields : NodeClass) (this : ref) (childName : jsstring)
    (nodeType locationPath : option jsstring) (t : Tree) : Tree :=
  let child := length (heap t) in
  alterNode this
    (onSuite (fun f => addChildNode (pushChild child f) childName child))
    (with_heap
       (heap t ++
          [ {| nodeId := childIdOf (idPrefix t) (nextId t); parent := Some this;
               name := childName; type := nodeType;
               locationPath := locationPath; state := CREATED;
               own := fields |} ])
       (with_nextId (nextId t + 1) t)).

(** [node.id] of the object at [r]. *)
Definition idAt (t : Tree) (r : ref) : option NodeId :=
  nodeId <$> heap t !! r.

(** [k] numbers in a row, from [n] on. *)
Fixpoint countFrom (n : N) (k : nat) : list N :=
  match k with
  | O => []
  | S k' => n :: countFrom (n + 1) k'
  end.

(** The trees a caller can get: a new tree after any calls. *)
Definition reachable (t : Tree) : Prop :=
  exists idPrefix fuel calls, t = (session fuel calls (newTree idPrefix)).2.

(** The chunk [finish] writes for a node, when it can. *)
Definition finishLine (n : Node) : option jsstring :=
  match getFinishMessage n with
  | Ok text => Some (text ++ [10])
  | Throw _ => None
  end.


(** A node [finish] accepts: registered or started, with a finish message. *)
Definition finishable (t : Tree) (r : ref) : bool :=
  match heap t !! r with
  | Some n =>
      (bool_decide (state n = REGISTERED) || bool_decide (state n = STARTED))
      && bool_decide (is_Some (finishLine n))
  | None => false
  end.

(** The chunk [finish] writes for a suite with this id. *)
Definition suiteFinishLine (i : NodeId) : jsstring :=
  lit "##teamcity[testSuiteFinished nodeId='" ++ idText i ++ lit "']" ++ [10].


(** The tree after the child [c] of [s] wrote [text] and finished, and [s]
    counted it. *)
Definition childDone (c : nat) (text : list N) (s : nat) (t : Tree) : Tree :=
  alterNode s (onSuite incrFinishedChildCount)
    (alterNode c (with_state FINISHED) (emit text t)).

(** A child of [s] that [finish] accepts. *)
Definition childReady (t : Tree) (s c : nat) : Prop :=
  c <> s /\ c <> root t /\
  exists cn text, heap t !! c = Some cn /\ parent cn = Some s
    /\ (state cn = REGISTERED \/ state cn = STARTED)
    /\ getFinishMessage cn = Ok text.


(** ** Sample sessions *)

Module Samples.

Definition passed (this : nat) : call :=
  SetOutcome this SUCCESS None None None None None None None.

(** A tree without prefix and one test under the root, started and passed. *)
Definition testUnderRoot : Tree :=
  (session 2 [ AddTestChild 0 (lit "a") None None; Start 1; passed 1 ]
     (newTree None)).2.

(** One test, created and no more. *)
Definition createdTest : Tree :=
  (session 2 [ AddTestChild 0 (lit "a") None None ] (newTree None)).2.

(** A suite that was never registered or started, with one test that was
    started and passed. *)
Definition createdSuite : Tree :=
  (session 3 [ AddTestSuiteChild 0 (lit "S") None None;
               AddTestChild 1 (lit "a") None None; Start 2; passed 2 ]
     (newTree None)).2.

(** A started suite with two tests, started and passed. *)
Definition startedSuiteCalls : list call :=
  [ AddTestSuiteChild 0 (lit "S") None None;
    AddTestChild 1 (lit "a") None None;
    AddTestChild 1 (lit "b") None None;
    Start 1; Start 2; Start 3; passed 2; passed 3 ].

Definition startedSuite : Tree :=
  (session 4 startedSuiteCalls (newTree None)).2.


(** Forced termination in mid-run: a started suite with three tests, all
    started and with an outcome, of which the first has finished. *)
Definition midRun : Tree :=
  (session 5 [ AddTestSuiteChild 0 (lit "S") None None;
               AddTestChild 1 (lit "a") None None;
               AddTestChild 1 (lit "b") None None;
               AddTestChild 1 (lit "c") None None;
               Start 1; Start 2; Start 3; Start 4;
               passed 2; passed 3; passed 4;
               Finish 2 true ]
     (newTree None)).2.

(** Children of two suites, created in turn, in a tree with prefix "7". *)
Definition interleaved : list call :=
  [ AddTestSuiteChild 0 (lit "S1") None None;
    AddTestSuiteChild 0 (lit "S2") None None;
    AddTestChild 1 (lit "a") None None;
    AddTestChild 2 (lit "b") None None;
    Start 1; Start 3; passed 3; Finish 3 true;
    AddTestChild 1 (lit "late") None None;
    AddTestChild 2 (lit "c") None None ].

End Samples.

(** ** Further notions for the properties of the code *)

(** The characters that end a line for a reader of the output. *)
Definition lineBreak (c : N) : bool :=
  (c =? 10) || (c =? 13) || (c =? 133) || (c =? 8232) || (c =? 8233).

(** The order in which a node goes through its states. *)
Definition stateRank (s : NodeState) : nat :=
  match s with
  | CREATED => 0
  | REGISTERED => 1
  | STARTED => 2
  | FINISHED => 3
  end.

(** Every object is still there, in the same or in a later state. *)
Definition advances (t t' : Tree) : Prop :=
  forall r s, stateOf t r = Some s ->
    exists s', stateOf t' r = Some s' /\ (stateRank s <= stateRank s')%nat.

(** A chunk that is one whole message of the protocol. *)
Definition isMessage (chunk : list N) : Prop :=
  exists body, chunk = lit "##teamcity[" ++ body ++ lit "]" ++ [10].

(** The output has grown by whole messages, and by nothing else. *)
Definition appends (t t' : Tree) : Prop :=
  exists extra, written t' = written t ++ extra /\ Forall isMessage extra.

(** What [findChildNodeByName] reads of a node: its name, and the children
    and the index of a suite. *)
Definition indexView (n : Node)
  : list N * option (list nat * gmap (list N) LookupEntry) :=
  (name n,
   match own n with
   | TestSuiteNode f => Some (children f, lookupMap f)
   | TestNode _ => None
   end).

Definition sameIndex (t t' : Tree) : Prop :=
  indexView <$> heap t' = indexView <$> heap t.

(** The children among [cs] whose name is [childName], in the order of
    [cs]. *)
Definition named (t : Tree) (childName : list N) (cs : list nat) : list nat :=
  filter (fun c => name <$> heap t !! c = Some childName) cs.

(** The value [addChildNode] keeps for the children of one name. *)
Definition entryOf (sameName : list nat) : option LookupEntry :=
  match sameName with
  | [] => None
  | [child] => Some (Single child)
  | _ => Some (Several sameName)
  end.

(** The index of every suite lists, under each name, the children of that
    name in the order they were added. *)
Definition indexed (t : Tree) : Prop :=
  forall s sn f childName, heap t !! s = Some sn -> own sn = TestSuiteNode f ->
    lookupMap f !! childName = entryOf (named t childName (children f)).

(** Further trees on which the properties are instantiated. *)
Module Runs.

(** One test under the root, started, without outcome. *)
Definition startedTest : Tree :=
  (session 2 [ AddTestChild 0 (lit "a") None None; Start 1 ] (newTree None)).2.

(** A suite that was started and then finished, with no children. *)
Definition closedSuite : Tree :=
  (session 2 [ AddTestSuiteChild 0 (lit "S") None None; Start 1;
               Finish 1 false ] (newTree None)).2.

(** A started suite whose two tests have finished without notifying it. *)
Definition quietlyDone : Tree :=
  (session 4 (Samples.startedSuiteCalls ++ [ Finish 2 false; Finish 3 false ])
     (newTree None)).2.

(** A started suite whose two tests have finished and notified it. *)
Definition allDone : Tree :=
  (session 4 (Samples.startedSuiteCalls ++ [ Finish 2 true; Finish 3 true ])
     (newTree None)).2.

End Runs.

(** The root is a suite that has not finished and has counted no child. *)
Definition rootOpen (t : Tree) : Prop :=
  exists n f, heap t !! root t = Some n /\ own n = TestSuiteNode f
              /\ finishedChildCount f = 0 /\ state n <> FINISHED.

(** The calls that write or assign only after every check has passed: all
    but [finish(true)], which notifies the parent after it has written, and
    [finishIfStarted], which finishes the children one by one. *)
Definition checksFirst (c : call) : bool :=
  match c with
  | Finish _ true | FinishIfStarted _ => false
  | _ => true
  end.

(** The counters of the tree [t'] are those of [t], or larger. *)
Definition countsGrow (t t' : Tree) : Prop :=
  forall r k, finishedCountOf t r = Some k ->
    exists k', finishedCountOf t' r = Some k' /\ k <= k'.

(** What the constructor of a node sets and no method assigns, and its
    children. *)
Definition staticView (n : Node)
  : NodeId * option nat * list N * option (list N) * option (list N)
    * option (list nat) :=
  (nodeId n, parent n, name n, type n, locationPath n, childrenOf n).

Definition sameStatic (t t' : Tree) : Prop :=
  idPrefix t' = idPrefix t /\ root t' = root t /\ nextId t' = nextId t
  /\ staticView <$> heap t' = staticView <$> heap t.

(** Every node of [t] is a node of [t'], at the same address and with the
    same id, parent, name, type and location; a test is still a test and a
    suite has its children, and maybe more after them. *)
Definition accumulates (t t' : Tree) : Prop :=
  idPrefix t' = idPrefix t /\ root t' = root t /\ nextId t <= nextId t'
  /\ forall r n, heap t !! r = Some n ->
       exists n', heap t' !! r = Some n'
                  /\ nodeId n' = nodeId n /\ parent n' = parent n
                  /\ name n' = name n /\ type n' = type n
                  /\ locationPath n' = locationPath n
                  /\ match childrenOf n with
                     | Some cs => exists more, childrenOf n' = Some (cs ++ more)
                     | None => childrenOf n' = None
                     end.

(* ===================================================================== *)
(** * Properties of the escaper *)

Module EscaperProofs.
Import Escaper.

(** The table built by [addMapping] is the table of the specification. *)
Lemma doEscapeCharCode_substitute c : doEscapeCharCode c = substitute c.
Proof.
  destruct c as [|p]; [reflexivity|].
  do 14 (try (destruct p as [p|p|]; try reflexivity)).
Qed.

(** [addMapping] never throws 'Bad mapping': no code is mapped twice. *)
Lemma mappings_NoDup : NoDup (map fst mappings).
Proof.
  unfold mappings; simpl.
  repeat (apply NoDup_cons; split;
          [rewrite ?elem_of_cons, elem_of_nil; intros H;
           repeat (destruct H as [H|H]; [discriminate H|]); exact H|]).
  apply NoDup_nil_2.
Qed.

Lemma original_substitute c e : substitute c = Some e -> original e = Some c.
Proof.
  destruct c as [|p]; [discriminate|].
  do 14 (try (destruct p as [p|p|]; try discriminate;
              try (intros [= <-]; reflexivity))).
Qed.

Lemma substitute_pipe c : substitute c = None -> (c =? 124) = false.
Proof.
  intros H. destruct (N.eqb_spec c 124) as [->|]; [discriminate H|reflexivity].
Qed.

(** The first loop, started anywhere in the string, looks for an escapable
    character in what is left. *)
Lemma isNeeded_from_spec pre suf :
  isNeeded_from (pre ++ suf) (length pre) (length suf) = existsb escapable suf.
Proof.
  revert pre. induction suf as [|c suf IH]; intros pre; [reflexivity|].
  cbn [length isNeeded_from existsb]. unfold charCodeAt.
  rewrite list_lookup_middle by reflexivity.
  rewrite doEscapeCharCode_substitute. unfold escapable at 1.
  destruct (substitute c); [reflexivity|]. cbn [orb].
  specialize (IH (pre ++ [c])).
  rewrite <- app_assoc, length_app in IH. cbn in IH.
  rewrite Nat.add_1_r in IH. exact IH.
Qed.

Lemma isAttributeValueEscapingNeeded_spec str :
  isAttributeValueEscapingNeeded str = existsb escapable str.
Proof. exact (isNeeded_from_spec [] str). Qed.

(** The second loop appends the escape of what is left. *)
Lemma escape_from_spec pre suf res :
  escape_from (pre ++ suf) (length pre) (length suf) res
  = res ++ flat_map escapeChar suf.
Proof.
  revert pre res. induction suf as [|c suf IH]; intros pre res.
  - cbn. now rewrite app_nil_r.
  - change (flat_map escapeChar (c :: suf))
      with (escapeChar c ++ flat_map escapeChar suf).
    cbn [length escape_from]. unfold charCodeAt, charAt.
    rewrite list_lookup_middle by reflexivity. cbn [mbind option_bind].
    rewrite doEscapeCharCode_substitute. unfold escapeChar at 1.
    specialize (IH (pre ++ [c])).
    rewrite <- app_assoc, length_app in IH. cbn in IH.
    rewrite Nat.add_1_r in IH.
    destruct (substitute c) as [e|]; rewrite IH, <- ?app_assoc; reflexivity.
Qed.

Lemma escape_spec_safe str :
  existsb escapable str = false -> escape_spec str = str.
Proof.
  induction str as [|c str IH]; [reflexivity|].
  cbn [existsb]. intros [Hc Hs]%orb_false_iff.
  unfold escape_spec in *. cbn [flat_map]. rewrite (IH Hs).
  unfold escapeChar. unfold escapable in Hc.
  destruct (substitute c); [discriminate Hc|reflexivity].
Qed.

(** The source function and the scheme of the specification agree on every
    string, short-circuit or not. *)
Lemma escapeAttributeValue_spec str : escapeAttributeValue str = escape_spec str.
Proof.
  unfold escapeAttributeValue. rewrite isAttributeValueEscapingNeeded_spec.
  destruct (existsb escapable str) eqn:E; cbn [negb].
  - exact (escape_from_spec [] str []).
  - symmetry. now apply escape_spec_safe.
Qed.

Lemma unescape_escape_spec str : unescape (escape_spec str) = Some str.
Proof.
  induction str as [|c str IH]; [reflexivity|].
  change (escape_spec (c :: str)) with (escapeChar c ++ escape_spec str).
  unfold escapeChar. destruct (substitute c) as [e|] eqn:E.
  - cbn [app unescape N.eqb Pos.eqb].
    rewrite (original_substitute _ _ E), IH. reflexivity.
  - cbn [app unescape]. rewrite (substitute_pipe _ E).
    unfold escapable. rewrite E, IH. reflexivity.
Qed.

(** C2: on every string, [escapeAttributeValue] replaces each newline,
    carriage return, U+0085, U+2028, U+2029, pipe, single quote, '[' and ']'
    by a pipe followed by its substitute (n, r, x, l, p, and the character
    itself for the last four), copies every other character, and returns its
    argument when the string holds none of the nine. *)
Theorem escape_replaces_exactly_the_nine (str : jsstring) :
  escapeAttributeValue str
  = flat_map (fun c => match substitute c with
                       | Some e => [124; e]
                       | None => [c]
                       end) str
  /\ (Forall (fun c => substitute c = None) str -> escapeAttributeValue str = str).
Proof.
  split; [exact (escapeAttributeValue_spec str)|].
  intros Hsafe. rewrite escapeAttributeValue_spec. apply escape_spec_safe.
  induction Hsafe as [|c l Hc _ IH]; [reflexivity|].
  cbn [existsb]. unfold escapable at 1. now rewrite Hc, IH.
Qed.

Lemma escape_replaces_exactly_the_nine_witness :
  escapeAttributeValue (lit "a|b") = lit "a||b"
  /\ escapeAttributeValue (lit "ab") = lit "ab".
Proof.
  split.
  - rewrite (proj1 (escape_replaces_exactly_the_nine (lit "a|b"))). reflexivity.
  - apply (proj2 (escape_replaces_exactly_the_nine (lit "ab"))).
    repeat constructor.
Defined.

(** C7: the escaped form of a string that holds an escapable character
    decodes back to that string under the pipe-and-substitute scheme, so that
    no two strings escape to the same text; a string that holds none is
    returned as it is. *)
Theorem escape_decodes_back :
  (forall str, existsb escapable str = true ->
     unescape (escapeAttributeValue str) = Some str)
  /\ (forall s1 s2, escapeAttributeValue s1 = escapeAttributeValue s2 -> s1 = s2)
  /\ (forall str, existsb escapable str = false ->
        escapeAttributeValue str = str).
Proof.
  assert (Hdec : forall str, unescape (escapeAttributeValue str) = Some str).
  { intros str. rewrite escapeAttributeValue_spec. apply unescape_escape_spec. }
  split; [|split].
  - intros str _. apply Hdec.
  - intros s1 s2 Heq.
    assert (H : Some s1 = Some s2) by (rewrite <- !Hdec, Heq; reflexivity).
    now injection H.
  - intros str Hno. unfold escapeAttributeValue.
    now rewrite isAttributeValueEscapingNeeded_spec, Hno.
Qed.

Lemma escape_decodes_back_witness :
  unescape (escapeAttributeValue (lit "it's [1]")) = Some (lit "it's [1]")
  /\ escapeAttributeValue (lit "plain") = lit "plain".
Proof.
  destruct escape_decodes_back as (Hdec & _ & Hid). split.
  - apply Hdec. reflexivity.
  - apply Hid. reflexivity.
Defined.

End EscaperProofs.

(* ===================================================================== *)
(** * Properties of the tree *)

(** ** Running a method on a tree *)

Ltac run :=
  repeat (progress cbv beta iota delta
            [bind ret throw getTree modifyTree liftResult getNode updNode writeln]
          || match goal with
             | H : heap ?t !! ?r = Some _ |- context [heap ?t !! ?r] => rewrite H
             end).

(** ** What the methods leave alone *)

Section Preserves.
Context (R : Tree -> Tree -> Prop) `{!Reflexive R} `{!Transitive R}.

Lemma preserves_ret {A} (a : A) : preserves R (ret a).
Proof. intros t. reflexivity. Qed.

Lemma preserves_throw {A} e : preserves R (@throw A e).
Proof. intros t. reflexivity. Qed.

Lemma preserves_getTree : preserves R getTree.
Proof. intros t. reflexivity. Qed.

Lemma preserves_getNode r : preserves R (getNode r).
Proof. intros t. unfold getNode. destruct (heap t !! r); reflexivity. Qed.

Lemma preserves_liftResult {A} (r : result A) : preserves R (liftResult r).
Proof. intros t. reflexivity. Qed.

Lemma preserves_bind {A B} (m : M A) (k : A -> M B) :
  preserves R m -> (forall a, preserves R (k a)) -> preserves R (bind m k).
Proof.
  intros Hm Hk t. unfold bind. specialize (Hm t).
  destruct (m t) as [[a|e] t1]; cbn in *; [|exact Hm].
  etransitivity; [exact Hm|apply Hk].
Qed.

Lemma preserves_forEach {A} (body : A -> M unit) l :
  (forall x, preserves R (body x)) -> preserves R (forEach body l).
Proof.
  intros Hb. induction l as [|x l IH]; cbn [forEach].
  - apply preserves_ret.
  - apply preserves_bind; [apply Hb|intros _; exact IH].
Qed.
End Preserves.

Lemma erase_idemp_state s n : erase (with_state s n) = erase n.
Proof. reflexivity. Qed.

Lemma skeleton_erase n : skeleton (erase n) = skeleton n.
Proof. unfold skeleton, childrenOf. destruct n as [? ? ? ? ? ? []]; reflexivity. Qed.

#[global] Instance sameNodes_refl : Reflexive sameNodes.
Proof. intros t. repeat split. Qed.

#[global] Instance sameNodes_trans : Transitive sameNodes.
Proof.
  intros t1 t2 t3 (?&?&?&?) (?&?&?&?). repeat split; congruence.
Qed.

#[global] Instance sameShape_refl : Reflexive sameShape.
Proof. intros t. repeat split. Qed.

#[global] Instance sameShape_trans : Transitive sameShape.
Proof.
  intros t1 t2 t3 (?&?&?&?) (?&?&?&?). repeat split; congruence.
Qed.

Lemma sameNodes_sameShape t t' : sameNodes t t' -> sameShape t t'.
Proof.
  intros (?&?&?&H). repeat split; try done.
  apply (f_equal (fmap skeleton)) in H.
  rewrite <- !list_fmap_compose in H.
  erewrite (list_fmap_ext (skeleton ∘ erase) skeleton (heap t')) in H
    by (intros; apply skeleton_erase).
  erewrite (list_fmap_ext (skeleton ∘ erase) skeleton (heap t)) in H
    by (intros; apply skeleton_erase).
  exact H.
Qed.

Lemma fmap_alter_same {B} (g : Node -> B) (f : Node -> Node) r (h : list Node) :
  (forall n, h !! r = Some n -> g (f n) = g n) ->
  g <$> alter f r h = g <$> h.
Proof.
  intros Hf. apply list_eq. intros i.
  rewrite !list_lookup_fmap.
  destruct (decide (i = r)) as [->|Hne].
  - rewrite list_lookup_alter_eq. destruct (h !! r) as [n|] eqn:E; cbn; [|done].
    now rewrite Hf.
  - now rewrite list_lookup_alter_ne.
Qed.

Lemma sameNodes_emit line t : sameNodes t (emit line t).
Proof. repeat split. Qed.

Lemma sameNodes_alterNode f r t :
  (forall n, heap t !! r = Some n -> erase (f n) = erase n) ->
  sameNodes t (alterNode r f t).
Proof. intros H. repeat split. cbn. now apply fmap_alter_same. Qed.

Lemma sameShape_alterNode f r t :
  (forall n, heap t !! r = Some n -> skeleton (f n) = skeleton n) ->
  sameShape t (alterNode r f t).
Proof. intros H. repeat split. cbn. now apply fmap_alter_same. Qed.

Lemma preserves_writeln R `{!Reflexive R} (HR : forall l t, R t (emit l t)) line :
  preserves R (writeln line).
Proof. intros t. apply HR. Qed.

Lemma sameShape_emit line t : sameShape t (emit line t).
Proof. repeat split. Qed.

Lemma erase_onSuite_incr n : erase (onSuite incrFinishedChildCount n) = erase n.
Proof. unfold onSuite. destruct n as [? ? ? ? ? ? [f|f]]; reflexivity. Qed.

Lemma skeleton_onTest g n : skeleton (onTest g n) = skeleton n.
Proof. unfold onTest. destruct n as [? ? ? ? ? ? [f|f]]; reflexivity. Qed.

Lemma preserves_updNode_sameNodes r f :
  (forall n, erase (f n) = erase n) -> preserves sameNodes (updNode r f).
Proof. intros H t. apply sameNodes_alterNode. auto. Qed.

Lemma preserves_updNode_sameShape r f :
  (forall n, skeleton (f n) = skeleton n) -> preserves sameShape (updNode r f).
Proof. intros H t. apply sameShape_alterNode. auto. Qed.

Ltac pres R :=
  repeat first
    [ apply (preserves_ret R)
    | apply (preserves_throw R)
    | apply (preserves_getTree R)
    | apply (preserves_getNode R)
    | apply (preserves_liftResult R)
    | apply (preserves_writeln R); [first [exact sameNodes_emit | exact sameShape_emit]]
    | apply preserves_updNode_sameNodes;
        first [exact (erase_idemp_state _) | exact erase_onSuite_incr]
    | apply preserves_updNode_sameShape;
        first [exact (skeleton_onTest _)
              | intros ?; rewrite <- (skeleton_erase (with_state _ _)), erase_idemp_state;
                apply skeleton_erase ]
    | apply (preserves_bind R); [|intros ?]
    | case_decide
    | case_match ].

Lemma register_sameNodes this : preserves sameNodes (register this).
Proof.
  unfold register, getRegisterMessage. pres sameNodes.
Qed.

Lemma start_sameNodes this : preserves sameNodes (start this).
Proof.
  unfold start, getStartMessage. pres sameNodes.
Qed.

Lemma onChildFinished_with_sameNodes fin this :
  (forall r b, preserves sameNodes (fin r b)) ->
  preserves sameNodes (onChildFinished_with fin this).
Proof. intros H. unfold onChildFinished_with. pres sameNodes. apply H. Qed.

Lemma finish_sameNodes fuel this b : preserves sameNodes (finish fuel this b).
Proof.
  revert this b. induction fuel as [|fuel IH]; intros this b; cbn [finish].
  - pres sameNodes.
  - pres sameNodes. apply IH.
Qed.

Lemma onChildFinished_sameNodes fuel this :
  preserves sameNodes (onChildFinished fuel this).
Proof. apply onChildFinished_with_sameNodes. intros; apply finish_sameNodes. Qed.

Lemma finishIfStarted_sameNodes fuel this :
  preserves sameNodes (finishIfStarted fuel this).
Proof.
  revert this. induction fuel as [|fuel IH]; intros this; cbn [finishIfStarted].
  - pres sameNodes.
  - pres sameNodes;
      first [apply (preserves_forEach sameNodes), IH | apply finish_sameNodes].
Qed.

Lemma setOutcome_sameShape this o d m1 m2 e a ef af :
  preserves sameShape (setOutcome this o d m1 m2 e a ef af).
Proof. unfold setOutcome. pres sameShape. Qed.

Lemma setMetainfo_sameShape this m : preserves sameShape (setMetainfo this m).
Proof. unfold setMetainfo. pres sameShape. Qed.

Lemma addStdErr_sameNodes this e : preserves sameNodes (addStdErr this e).
Proof. unfold addStdErr. pres sameNodes. Qed.

(** ** Well-formed trees *)

Lemma addChild_cases fields this childName nodeType locationPath t :
  (exists e, addChild fields this childName nodeType locationPath t = (Throw e, t))
  \/ (exists n, heap t !! this = Some n /\ is_Some (childrenOf n)
                /\ state n <> FINISHED
      /\ addChild fields this childName nodeType locationPath t
         = (Ok (length (heap t)),
            grown fields this childName nodeType locationPath t)).
Proof.
  unfold addChild. run.
  destruct (heap t !! this) as [n|] eqn:Hn; [|left; eauto].
  destruct (own n) as [f|f] eqn:Hown; [|left; eauto].
  destruct (decide (state n = FINISHED)); [left; eauto|].
  right. exists n. split; [done|]. split; [unfold childrenOf; rewrite Hown; eauto|].
  split; [done|]. reflexivity.
Qed.

Lemma sameShape_lookup t t' r n' :
  sameShape t t' -> heap t' !! r = Some n' ->
  exists n, heap t !! r = Some n /\ skeleton n = skeleton n'.
Proof.
  intros (_&_&_&H) Hr.
  assert (E : (skeleton <$> heap t') !! r = (skeleton <$> heap t) !! r)
    by (rewrite H; reflexivity).
  rewrite !list_lookup_fmap, Hr in E. cbn in E.
  destruct (heap t !! r) as [n|]; [|discriminate E].
  exists n. split; [done|]. cbn in E. congruence.
Qed.

Lemma sameShape_length t t' :
  sameShape t t' -> length (heap t') = length (heap t).
Proof.
  intros (_&_&_&H). apply (f_equal length) in H.
  now rewrite !length_fmap in H.
Qed.

Lemma sameShape_sym t t' : sameShape t t' -> sameShape t' t.
Proof. intros (?&?&?&?). repeat split; congruence. Qed.

Lemma wf_sameShape t t' : sameShape t t' -> wf t -> wf t'.
Proof.
  intros HS [Hroot Hhid Hnext Hpar Hid Hch Hli].
  pose proof HS as (Hp&Hr&Hn&_).
  split.
  - congruence.
  - destruct Hhid as (n&H0&Hi&Hpa).
    destruct (sameShape_lookup t' t 0%nat n (sameShape_sym _ _ HS) H0)
      as (n'&H0'&Hsk).
    exists n'. injection Hsk as ? ? ?. split; [done|]. split; congruence.
  - rewrite Hn, (sameShape_length _ _ HS). exact Hnext.
  - intros r n' Hr' Hne.
    destruct (sameShape_lookup _ _ _ _ HS Hr') as (n&Hrn&Hsk).
    injection Hsk as ? ? ?. destruct (Hpar r n Hrn Hne) as (p&?&?).
    exists p. split; congruence.
  - intros r n' Hr' Hne.
    destruct (sameShape_lookup _ _ _ _ HS Hr') as (n&Hrn&Hsk).
    injection Hsk as ? ? ?. rewrite Hp. rewrite <- (Hid r n Hrn Hne). congruence.
  - intros s n' cs Hs' Hcs.
    destruct (sameShape_lookup _ _ _ _ HS Hs') as (n&Hsn&Hsk).
    injection Hsk as ? ? Hc. rewrite <- Hc in Hcs.
    destruct (Hch s n cs Hsn Hcs) as (Hnd&Hall). split; [done|].
    intros c Hin. destruct (Hall c Hin) as (cn&Hcn&Hcp).
    destruct (sameShape_lookup t' t c cn (sameShape_sym _ _ HS) Hcn)
      as (cn'&Hcn'&Hsk').
    injection Hsk' as ? ? ?. exists cn'. split; [exact Hcn'|congruence].
  - intros r n' p Hr' Hp'.
    destruct (sameShape_lookup _ _ _ _ HS Hr') as (n&Hrn&Hsk).
    injection Hsk as ? Hpn ?.
    destruct (Hli r n p Hrn ltac:(congruence)) as (pn&cs&Hpn'&Hcs&Hin).
    destruct (sameShape_lookup t' t p pn (sameShape_sym _ _ HS) Hpn')
      as (pn'&Hpn''&Hsk').
    injection Hsk' as ? ? Hc'. exists pn', cs.
    split; [exact Hpn''|]. split; [congruence|exact Hin].
Qed.

Lemma wf_acyclic t : wf t -> acyclic t.
Proof.
  intros W r n p Hr Hp. destruct (decide (r = 0%nat)) as [->|Hne].
  - destruct (wf_hidden t W) as (n0&H0&_&Hpar). congruence.
  - destruct (wf_parent t W r n Hr Hne) as (p'&?&?). congruence.
Qed.

Lemma wf_newTree idPrefix : wf (newTree idPrefix).
Proof.
  split; cbn.
  - reflexivity.
  - eexists. repeat split.
  - reflexivity.
  - intros [|r] n H Hne; [done|]. destruct r; discriminate H.
  - intros [|r] n H Hne; [done|]. destruct r; discriminate H.
  - intros [|[|s]] n cs H Hcs; try discriminate H.
    injection H as <-. injection Hcs as <-. split; [constructor|].
    intros c Hc. inversion Hc.
  - intros [|[|r]] n p H Hp; try discriminate H.
    injection H as <-. discriminate Hp.
Qed.

Section Grown.
Context (fields : NodeClass) (this : ref) (childName : jsstring)
        (nodeType locPath : option jsstring) (t : Tree).
Let t' := grown fields this childName nodeType locPath t.
Let child := length (heap t).
Let g := onSuite (fun f => addChildNode (pushChild child f) childName child).

Lemma grown_length : length (heap t') = S (length (heap t)).
Proof.
  unfold t', grown, alterNode. cbn. rewrite length_alter, length_app. cbn. lia.
Qed.

Lemma grown_lookup_this n :
  heap t !! this = Some n -> heap t' !! this = Some (g n).
Proof.
  intros H. unfold t', grown, alterNode. cbn.
  rewrite list_lookup_alter_eq, lookup_app_l by (eapply lookup_lt_Some; eauto).
  now rewrite H.
Qed.

Lemma grown_lookup_other r :
  r <> this -> (r < length (heap t))%nat -> heap t' !! r = heap t !! r.
Proof.
  intros Hne Hlt. unfold t', grown, alterNode. cbn.
  rewrite list_lookup_alter_ne by done. now rewrite lookup_app_l.
Qed.

Lemma grown_lookup_child :
  (this < length (heap t))%nat ->
  heap t' !! child
  = Some {| nodeId := childIdOf (idPrefix t) (nextId t); parent := Some this;
            name := childName; type := nodeType;
            locationPath := locPath; state := CREATED; own := fields |}.
Proof.
  intros Hlt. unfold t', grown, alterNode, child. cbn.
  rewrite list_lookup_alter_ne by lia.
  rewrite lookup_app_r by lia. now rewrite Nat.sub_diag.
Qed.

Lemma g_static n : nodeId (g n) = nodeId n /\ parent (g n) = parent n
                   /\ state (g n) = state n.
Proof. unfold g, onSuite. destruct (own n); repeat split. Qed.

Lemma g_children n cs :
  childrenOf n = Some cs -> childrenOf (g n) = Some (cs ++ [child]).
Proof.
  unfold childrenOf, g, onSuite. destruct (own n) as [f|f]; [|discriminate].
  intros [= <-]. reflexivity.
Qed.

(** Every object of the tree is still there, with its id and parent. *)
Lemma grown_old r n :
  heap t !! r = Some n ->
  exists n', heap t' !! r = Some n' /\ nodeId n' = nodeId n
             /\ parent n' = parent n /\ state n' = state n.
Proof.
  intros H. destruct (decide (r = this)) as [->|Hne].
  - exists (g n). split; [now apply grown_lookup_this|apply g_static].
  - exists n. rewrite grown_lookup_other; [done..|].
    eapply lookup_lt_Some; eauto.
Qed.

(** An object of the new tree is the new child, or was there. *)
Lemma grown_inv r n' :
  (this < length (heap t))%nat ->
  heap t' !! r = Some n' ->
  (r = child /\ nodeId n' = childIdOf (idPrefix t) (nextId t)
   /\ parent n' = Some this /\ own n' = fields)
  \/ (exists n, heap t !! r = Some n /\ nodeId n' = nodeId n
                /\ parent n' = parent n
                /\ (r = this /\ n' = g n \/ r <> this /\ n' = n)).
Proof.
  intros Hthis H.
  assert (Hr : (r < S (length (heap t)))%nat).
  { rewrite <- grown_length. eapply lookup_lt_Some; eauto. }
  destruct (decide (r = child)) as [->|Hne].
  - left. rewrite grown_lookup_child in H by done. injection H as <-. done.
  - right. assert (Hlt : (r < length (heap t))%nat) by (unfold child in Hne; lia).
    destruct (lookup_lt_is_Some_2 (heap t) r Hlt) as [n Hn].
    exists n. split; [done|].
    destruct (decide (r = this)) as [->|Hne'].
    + rewrite (grown_lookup_this n Hn) in H. injection H as <-.
      destruct (g_static n) as (?&?&?). auto 6.
    + rewrite grown_lookup_other in H by done.
      rewrite Hn in H. injection H as <-. auto 6.
Qed.

Lemma wf_grown n :
  match fields with TestSuiteNode f => children f = [] | TestNode _ => True end ->
  heap t !! this = Some n -> is_Some (childrenOf n) ->
  wf t -> wf t'.
Proof.
  intros Hfields Hn [cs Hcs] W.
  assert (Hthis : (this < length (heap t))%nat) by (eapply lookup_lt_Some; eauto).
  split.
  - exact (wf_root t W).
  - destruct (wf_hidden t W) as (n0&H0&Hi&Hp).
    destruct (grown_old _ _ H0) as (n0'&?&?&?&?).
    exists n0'. split; [done|]. split; congruence.
  - change (nextId t') with (nextId t + 1).
    rewrite grown_length, (wf_nextId t W). lia.
  - intros r n' Hr Hne.
    destruct (grown_inv r n' Hthis Hr) as [(->&_&Hp&_)|(m&Hm&_&Hp&_)].
    + exists this. split; [done|]. exact Hthis.
    + destruct (wf_parent t W r m Hm Hne) as (p&?&?). exists p.
      split; congruence.
  - intros r n' Hr Hne. change (idPrefix t') with (idPrefix t).
    destruct (grown_inv r n' Hthis Hr) as [(->&Hi&_)|(m&Hm&Hi&_)].
    + rewrite Hi, (wf_nextId t W). reflexivity.
    + rewrite Hi. apply (wf_id t W); done.
  - intros s n' cs' Hs Hcs'.
    destruct (grown_inv s n' Hthis Hs)
      as [(->&_&_&Hown)|(m&Hm&_&_&[(->&->)|(Hne&->)])].
    + unfold childrenOf in Hcs'. rewrite Hown in Hcs'.
      destruct fields as [f|f]; [|discriminate].
      injection Hcs' as <-. rewrite Hfields. split; [constructor|].
      intros c Hc. inversion Hc.
    + assert (m = n) by congruence. subst m.
      rewrite (g_children n cs Hcs) in Hcs'. injection Hcs' as <-.
      destruct (wf_children t W this n cs Hn Hcs) as (Hnd&Hall).
      split.
      * apply NoDup_app. split; [done|]. split; [|apply NoDup_singleton].
        intros c Hc ->%list_elem_of_singleton.
        destruct (Hall _ Hc) as (cn&Hcn&_).
        apply lookup_lt_Some in Hcn. unfold child in Hcn. lia.
      * intros c [Hc| ->%list_elem_of_singleton]%elem_of_app.
        -- destruct (Hall _ Hc) as (cn&Hcn&Hcp).
           destruct (grown_old _ _ Hcn) as (cn'&?&?&?&?).
           exists cn'. split; [done|congruence].
        -- eexists. split; [apply grown_lookup_child; exact Hthis|reflexivity].
    + destruct (wf_children t W s m cs' Hm Hcs') as (Hnd&Hall).
      split; [done|]. intros c Hc.
      destruct (Hall _ Hc) as (cn&Hcn&Hcp).
      destruct (grown_old _ _ Hcn) as (cn'&?&?&?&?).
      exists cn'. split; [done|congruence].
  - intros r n' p Hr Hp.
    destruct (grown_inv r n' Hthis Hr) as [(->&_&Hpar&_)|(m&Hm&_&Hpar&_)].
    + assert (p = this) by congruence. subst p.
      exists (g n), (cs ++ [child]). split; [now apply grown_lookup_this|].
      split; [now apply g_children|]. apply elem_of_app. right. left.
    + rewrite Hpar in Hp.
      destruct (wf_listed t W r m p Hm Hp) as (pn&cs'&Hpn&Hcs'&Hin).
      destruct (decide (p = this)) as [->|Hne].
      * assert (pn = n) by congruence. subst pn.
        assert (cs' = cs) by congruence. subst cs'.
        exists (g n), (cs ++ [child]). split; [now apply grown_lookup_this|].
        split; [now apply g_children|]. apply elem_of_app. now left.
      * exists pn, cs'. rewrite grown_lookup_other; [done|done|].
        eapply lookup_lt_Some; eauto.
Qed.
End Grown.

(** ** Calls and sessions *)

Lemma unit_call_result (m : M unit) t child :
  (bind m (fun _ => ret (@None nat)) t).1 <> Ok (Some child).
Proof. unfold bind, ret. destruct (m t) as [[[]|e] t1]; cbn; congruence. Qed.

Lemma unit_call_tree (m : M unit) t :
  (bind m (fun _ => ret (@None nat)) t).2 = (m t).2.
Proof. unfold bind, ret. destruct (m t) as [[[]|e] t1]; reflexivity. Qed.

Lemma treeCalls_sameNodes :
  preserves sameNodes startNotify
  /\ (forall n c l, preserves sameNodes (updateRootNode n c l))
  /\ (forall n, preserves sameNodes (addTotalTestCount n))
  /\ preserves sameNodes testingStarted
  /\ preserves sameNodes testingFinished.
Proof.
  repeat split; intros;
    unfold startNotify, updateRootNode, addTotalTestCount, testingStarted,
      testingFinished; pres sameNodes.
Qed.

(** A call leaves the objects, ids, parents and children as they are, or is
    a successful [add...Child]. *)
Lemma perform_cases fuel c t :
  (sameShape t (perform fuel c t).2
   /\ forall child, (perform fuel c t).1 <> Ok (Some child))
  \/ (exists fields this childName nodeType locPath n,
        (fields = TestNode emptyTest \/ fields = TestSuiteNode emptySuite)
        /\ heap t !! this = Some n /\ is_Some (childrenOf n)
        /\ perform fuel c t
           = (Ok (Some (length (heap t))),
              grown fields this childName nodeType locPath t)).
Proof.
  destruct treeCalls_sameNodes as (H1&H2&H3&H4&H5).
  destruct c; cbn [perform];
    try (left; split; [rewrite unit_call_tree|intros; apply unit_call_result];
         first [ apply sameNodes_sameShape;
                 first [ apply H1 | apply H2 | apply H3 | apply H4 | apply H5
                       | apply register_sameNodes | apply start_sameNodes
                       | apply finish_sameNodes | apply finishIfStarted_sameNodes
                       | apply addStdErr_sameNodes ]
               | apply setOutcome_sameShape | apply setMetainfo_sameShape ]).
  all: unfold addTestChild, addTestSuiteChild, bind, ret.
  all: match goal with
       | |- context [addChild ?fi ?th ?cn ?ty ?l ?t0] =>
           destruct (addChild_cases fi th cn ty l t0)
             as [[e He]|(n&Hn&Hc&_&He)]; rewrite He;
           [ left; split; [reflexivity|cbn; congruence]
           | right; exists fi, th, cn, ty, l, n; auto ]
       end.
Qed.

Lemma perform_wf fuel c t : wf t -> wf (perform fuel c t).2.
Proof.
  intros W. destruct (perform_cases fuel c t)
    as [[HS _]|(fields&this&cn&ty&l&n&Hf&Hn&Hc&He)].
  - eapply wf_sameShape; eauto.
  - rewrite He. eapply wf_grown; eauto.
    destruct Hf as [-> | ->]; done.
Qed.

Lemma session_cons fuel c calls t :
  session fuel (c :: calls) t
  = ((perform fuel c t).1 :: (session fuel calls (perform fuel c t).2).1,
     (session fuel calls (perform fuel c t).2).2).
Proof.
  cbn [session]. destruct (perform fuel c t) as [r t1]. cbn [fst snd].
  destruct (session fuel calls t1) as [rs t2]. reflexivity.
Qed.


Lemma session_wf fuel calls t : wf t -> wf (session fuel calls t).2.
Proof.
  revert t. induction calls as [|c calls IH]; intros t W; [exact W|].
  rewrite session_cons. cbn. apply IH, perform_wf, W.
Qed.

Theorem reachable_wf t : reachable t -> wf t.
Proof. intros (p&fuel&calls&->). apply session_wf, wf_newTree. Qed.

(** ** Ids and their decimal text *)

Lemma lit_inj s1 s2 : lit s1 = lit s2 -> s1 = s2.
Proof.
  unfold lit. intros H.
  rewrite <- (string_of_list_ascii_of_string s1),
          <- (string_of_list_ascii_of_string s2).
  f_equal. revert H.
  generalize (list_ascii_of_string s1) (list_ascii_of_string s2).
  induction l as [|a l IH]; intros [|b l']; cbn; try discriminate; [done|].
  intros [= Hab Hl]. f_equal; [|now apply IH].
  rewrite <- (ascii_N_embedding a), <- (ascii_N_embedding b). now f_equal.
Qed.

Lemma dec_inj n m : dec n = dec m -> n = m.
Proof.
  unfold dec. intros H%lit_inj. apply Unsigned.to_uint_inj.
  assert (E : Some (N.to_uint n) = Some (N.to_uint m))
    by (rewrite <- !NilEmpty.usu, H; reflexivity).
  now injection E.
Qed.

Lemma childIdOf_inj idPrefix n m :
  childIdOf idPrefix n = childIdOf idPrefix m -> n = m.
Proof.
  destruct idPrefix as [p|]; cbn; intros [= H]; [|done].
  apply app_inv_head in H. apply (app_inv_head (lit "-")) in H.
  now apply dec_inj.
Qed.

Lemma countFrom_length n k : length (countFrom n k) = k.
Proof. revert n. induction k; intros; cbn; auto. Qed.

Lemma countFrom_bounds n k m : m ∈ countFrom n k -> n <= m < n + N.of_nat k.
Proof.
  revert n. induction k as [|k IH]; intros n; cbn [countFrom].
  - intros H. inversion H.
  - intros [->|H]%elem_of_cons; [lia|]. apply IH in H. lia.
Qed.

Lemma countFrom_sorted n k : StronglySorted N.lt (countFrom n k).
Proof.
  revert n. induction k as [|k IH]; intros n; cbn [countFrom]; constructor.
  - apply IH.
  - apply Forall_forall. intros m Hm%countFrom_bounds. lia.
Qed.

Lemma countFrom_NoDup n k : NoDup (countFrom n k).
Proof.
  revert n. induction k as [|k IH]; intros n; cbn [countFrom]; constructor.
  - intros Hm%countFrom_bounds. lia.
  - apply IH.
Qed.

Lemma perform_idPrefix fuel c t : idPrefix (perform fuel c t).2 = idPrefix t.
Proof.
  destruct (perform_cases fuel c t) as [[(?&_) _]|(?&?&?&?&?&?&_&_&_&He)];
    [done|]. rewrite He. reflexivity.
Qed.

Lemma perform_idAt fuel c t r i :
  idAt t r = Some i -> idAt (perform fuel c t).2 r = Some i.
Proof.
  unfold idAt. destruct (heap t !! r) as [n|] eqn:Hn; [|discriminate].
  intros [= <-].
  destruct (perform_cases fuel c t) as [[HS _]|(fi&th&cn&ty&l&?&_&_&_&He)].
  - destruct (sameShape_lookup _ t r n (sameShape_sym _ _ HS) Hn) as (n'&Hn'&Hsk).
    rewrite Hn'. cbn. injection Hsk as ? ? ?. congruence.
  - rewrite He. cbn [snd].
    destruct (grown_old fi th cn ty l t _ _ Hn) as (n'&Hn'&Hi&_).
    rewrite Hn'. cbn. congruence.
Qed.

Lemma session_idAt fuel calls t r i :
  idAt t r = Some i -> idAt (session fuel calls t).2 r = Some i.
Proof.
  revert t. induction calls as [|c calls IH]; intros t H; [exact H|].
  rewrite session_cons. cbn [snd]. now apply IH, perform_idAt.
Qed.

Lemma session_idPrefix fuel calls t : idPrefix (session fuel calls t).2 = idPrefix t.
Proof.
  revert t. induction calls as [|c calls IH]; intros t; [reflexivity|].
  rewrite session_cons. cbn [snd]. now rewrite IH, perform_idPrefix.
Qed.

Lemma allocated_cons r rs t :
  allocated (r :: rs) t
  = match r with
    | Ok (Some child) => match idAt t child with Some i => [i] | None => [] end
    | _ => []
    end ++ allocated rs t.
Proof.
  unfold allocated, idAt. cbn [flat_map]. f_equal.
  destruct r as [[child|]|e]; try reflexivity.
  destruct (heap t !! child); reflexivity.
Qed.

(** The ids a session hands out are made, in order, from the values
    [nextId] takes from its value at the start on, one step at a time. *)
Lemma session_allocated fuel calls t :
  let rs := (session fuel calls t).1 in
  let t' := (session fuel calls t).2 in
  allocated rs t'
  = map (childIdOf (idPrefix t)) (countFrom (nextId t) (length (allocated rs t')))
  /\ nextId t' = nextId t + N.of_nat (length (allocated rs t')).
Proof.
  revert t. induction calls as [|c calls IH]; intros t.
  - cbn. split; [reflexivity|lia].
  - rewrite session_cons. cbn [fst snd]. rewrite allocated_cons.
    specialize (IH (perform fuel c t).2). cbn zeta in IH.
    destruct IH as [IHa IHn].
    set (t1 := (perform fuel c t).2) in *.
    set (t2 := (session fuel calls t1).2) in *.
    set (ids := allocated (session fuel calls t1).1 t2) in *.
    assert (Hp : idPrefix t1 = idPrefix t) by apply perform_idPrefix.
    destruct (perform_cases fuel c t) as [[(_&_&Hn&_) Hr]|(fi&th&cn&ty&l&n&_&Hth&_&He)].
    + fold t1 in Hn. 
      assert (E : match (perform fuel c t).1 with
                  | Ok (Some child) =>
                      match idAt t2 child with Some i => [i] | None => [] end
                  | _ => []
                  end = []).
      { destruct (perform fuel c t).1 as [[child|]|e]; try reflexivity.
        now destruct (Hr child). }
      rewrite E. cbn [app]. rewrite <- Hp, <- Hn. split; [exact IHa|exact IHn].
    + assert (Ht1 : t1 = grown fi th cn ty l t) by (unfold t1; now rewrite He).
      rewrite He. cbn [fst].
      assert (Hi : idAt t2 (length (heap t))
                   = Some (childIdOf (idPrefix t) (nextId t))).
      { apply session_idAt. unfold idAt. rewrite Ht1.
        rewrite grown_lookup_child by (eapply lookup_lt_Some; eauto).
        reflexivity. }
      rewrite Hi. cbn [app length countFrom map].
      assert (Hn1 : nextId t1 = nextId t + 1) by (rewrite Ht1; reflexivity).
      rewrite Hp, Hn1 in IHa. rewrite Hn1 in IHn.
      split; [now f_equal|lia].
Qed.

(** ** One call of [finish] and of [onChildFinished] *)

Lemma finish_root fuel t b : finish (S fuel) (root t) b t = (Ok tt, t).
Proof. cbn [finish]. run. rewrite decide_True; reflexivity. Qed.

Lemma finish_illegal fuel t this n b :
  heap t !! this = Some n -> this <> root t ->
  state n <> REGISTERED -> state n <> STARTED ->
  finish (S fuel) this b t = (Throw (UnexpectedNodeState (state n)), t).
Proof.
  intros Hn Hr H1 H2. cbn [finish]. run.
  rewrite decide_False by congruence. run.
  rewrite decide_True by auto. reflexivity.
Qed.

(** [finish] on a node it accepts, one call deep. *)
Lemma finish_step fuel this b t n text :
  heap t !! this = Some n -> this <> root t ->
  state n = REGISTERED \/ state n = STARTED ->
  getFinishMessage n = Ok text ->
  finish (S fuel) this b t
  = let t1 := alterNode this (with_state FINISHED) (emit text t) in
    if b then
      match parent n with
      | Some p => if decide (p ≠ root t) then onChildFinished fuel p t1
                  else (Ok tt, t1)
      | None => (Ok tt, t1)
      end
    else (Ok tt, t1).
Proof.
  intros Hn Hr Hs Hm. cbn [finish]. run.
  rewrite decide_False by congruence. run.
  rewrite decide_False by (intros [? ?]; destruct Hs; congruence).
  rewrite Hm. run. destruct b; [|reflexivity].
  destruct (parent n) as [p|]; [|reflexivity].
  destruct (decide (p ≠ root t)); reflexivity.
Qed.

Lemma onChildFinished_step fuel this t n f :
  heap t !! this = Some n -> own n = TestSuiteNode f ->
  onChildFinished fuel this t
  = let t1 := alterNode this (onSuite incrFinishedChildCount) t in
    if decide (finishedChildCount f + 1 = N.of_nat (length (children f))) then
      if decide (state n ≠ FINISHED) then finish fuel this true t1
      else (Ok tt, t1)
    else (Ok tt, t1).
Proof.
  intros Hn Hf. unfold onChildFinished, onChildFinished_with. run.
  rewrite Hf. run.
  destruct (decide (_ = _)); [|reflexivity].
  destruct (decide (state n ≠ FINISHED)); reflexivity.
Qed.

Lemma onChildFinished_not_suite fuel this t :
  finishedCountOf t this = None ->
  onChildFinished fuel this t = (Throw JsTypeError, t).
Proof.
  unfold finishedCountOf, onChildFinished, onChildFinished_with. run.
  destruct (heap t !! this) as [n|]; cbn; [|reflexivity].
  destruct (own n); [discriminate|reflexivity].
Qed.

Lemma lookup_alterNode_eq r f t n :
  heap t !! r = Some n -> heap (alterNode r f t) !! r = Some (f n).
Proof. intros H. cbn. now rewrite list_lookup_alter_eq, H. Qed.

Lemma lookup_alterNode_ne r q f t :
  r <> q -> heap (alterNode r f t) !! q = heap t !! q.
Proof. intros H. cbn. now rewrite list_lookup_alter_ne. Qed.

Lemma suite_finishMessage n f :
  own n = TestSuiteNode f ->
  exists text, getFinishMessage n = Ok text
               /\ text ++ [10] = suiteFinishLine (nodeId n).
Proof.
  intros Hf. unfold getFinishMessage, getFinishCommandName,
    getExtraFinishMessageParameters. rewrite Hf.
  eexists. split; [reflexivity|].
  unfold suiteFinishLine. cbn. rewrite <- app_assoc. reflexivity.
Qed.


Lemma sameNodes_sym t t' : sameNodes t t' -> sameNodes t' t.
Proof. intros (?&?&?&?). repeat split; congruence. Qed.






(** ** The children of a suite finish one after the other *)

Lemma finish_child fuel c s cn sn f text t :
  heap t !! c = Some cn -> c <> root t ->
  state cn = REGISTERED \/ state cn = STARTED ->
  getFinishMessage cn = Ok text -> parent cn = Some s ->
  s <> root t -> c <> s ->
  heap t !! s = Some sn -> own sn = TestSuiteNode f ->
  finish (S fuel) c true t
  = let t1 := childDone c text s t in
    if decide (finishedChildCount f + 1 = N.of_nat (length (children f))) then
      if decide (state sn ≠ FINISHED) then finish fuel s true t1
      else (Ok tt, t1)
    else (Ok tt, t1).
Proof.
  intros Hc Hcr Hst Htext Hpar Hsr Hcs Hs Hf.
  rewrite (finish_step fuel c true t cn text Hc Hcr Hst Htext). cbv zeta.
  rewrite Hpar, decide_True by done.
  erewrite onChildFinished_step; [reflexivity| |exact Hf].
  rewrite lookup_alterNode_ne by done. exact Hs.
Qed.




(** ** The last child *)

Lemma idText_childIdOf_inj idPrefix n m :
  idText (childIdOf idPrefix n) = idText (childIdOf idPrefix m) -> n = m.
Proof.
  destruct idPrefix as [p|]; cbn [childIdOf idText]; intros H.
  - apply app_inv_head in H. apply (app_inv_head (lit "-")) in H.
    now apply dec_inj.
  - now apply dec_inj.
Qed.

Lemma idText_childIdOf_root idPrefix n :
  n <> 0 -> idText (childIdOf idPrefix n) <> idText (NumId 0).
Proof.
  intros Hn. destruct idPrefix as [p|]; cbn [childIdOf idText].
  - change (dec 0) with [48]. destruct p as [|a [|b p]]; cbn; discriminate.
  - intros H%dec_inj. contradiction.
Qed.

(** In a well-formed tree no two objects print the same id. *)
Lemma wf_idText_inj t q1 q2 n1 n2 :
  wf t -> heap t !! q1 = Some n1 -> heap t !! q2 = Some n2 ->
  idText (nodeId n1) = idText (nodeId n2) -> q1 = q2.
Proof.
  intros W H1 H2 He.
  destruct (wf_hidden t W) as (n0&H0&Hi0&_).
  destruct (decide (q1 = 0%nat)) as [->|Hq1], (decide (q2 = 0%nat)) as [->|Hq2].
  - reflexivity.
  - exfalso. assert (n1 = n0) by congruence. subst n1.
    rewrite Hi0, (wf_id t W q2 n2 H2 Hq2) in He.
    symmetry in He. revert He. apply idText_childIdOf_root. lia.
  - exfalso. assert (n2 = n0) by congruence. subst n2.
    rewrite Hi0, (wf_id t W q1 n1 H1 Hq1) in He.
    revert He. apply idText_childIdOf_root. lia.
  - rewrite (wf_id t W q1 n1 H1 Hq1), (wf_id t W q2 n2 H2 Hq2) in He.
    apply idText_childIdOf_inj in He. lia.
Qed.




(** ** The counters of finished children *)

Lemma finishedAmong_mono t t' cs :
  (forall c, stateOf t c = Some FINISHED -> stateOf t' c = Some FINISHED) ->
  (length (finishedAmong t cs) <= length (finishedAmong t' cs))%nat.
Proof.
  intros Hmono. unfold finishedAmong.
  induction cs as [|c cs IH]; [reflexivity|].
  rewrite !filter_cons.
  destruct (decide (stateOf t c = Some FINISHED)) as [Hc|Hc].
  - rewrite decide_True by auto. cbn. lia.
  - destruct (decide (stateOf t' c = Some FINISHED)); cbn; lia.
Qed.

Lemma finishedAmong_gain t t' cs x :
  (forall c, stateOf t c = Some FINISHED -> stateOf t' c = Some FINISHED) ->
  x ∈ cs -> stateOf t x <> Some FINISHED -> stateOf t' x = Some FINISHED ->
  (length (finishedAmong t cs) + 1 <= length (finishedAmong t' cs))%nat.
Proof.
  intros Hmono Hin Hx Hx'. unfold finishedAmong.
  induction cs as [|c cs IH]; [inversion Hin|].
  rewrite !filter_cons.
  apply elem_of_cons in Hin as [<-|Hin].
  - rewrite decide_False by done. rewrite decide_True by done. cbn.
    pose proof (finishedAmong_mono t t' cs Hmono). unfold finishedAmong in *. lia.
  - specialize (IH Hin).
    destruct (decide (stateOf t c = Some FINISHED)) as [Hc|Hc].
    + rewrite decide_True by auto. cbn. lia.
    + destruct (decide (stateOf t' c = Some FINISHED)); cbn; lia.
Qed.

#[global] Instance ages_refl : Reflexive ages.
Proof. intros t. split; [reflexivity|]. split; auto. Qed.

#[global] Instance ages_trans : Transitive ages.
Proof.
  intros t1 t2 t3 (S1&C1&F1) (S2&C2&F2). split; [etransitivity; eauto|].
  split; [intros r; now rewrite C2|auto].
Qed.

#[global] Instance sameLife_refl : Reflexive sameLife.
Proof. intros t. split; [reflexivity|]. split; auto. Qed.

#[global] Instance sameLife_trans : Transitive sameLife.
Proof.
  intros t1 t2 t3 (S1&C1&F1) (S2&C2&F2). split; [etransitivity; eauto|].
  split; intros r; [now rewrite C2|now rewrite F2].
Qed.

Lemma sameLife_ages t t' : sameLife t t' -> ages t t'.
Proof.
  intros (HS&Hst&Hc). split; [exact HS|]. split; [exact Hc|].
  intros r. now rewrite Hst.
Qed.

Lemma sameLife_emit line t : sameLife t (emit line t).
Proof. split; [apply sameShape_emit|]. split; reflexivity. Qed.

Lemma ages_emit line t : ages t (emit line t).
Proof. apply sameLife_ages, sameLife_emit. Qed.

Lemma stateOf_alterNode r q f t :
  stateOf (alterNode r f t) q
  = if decide (q = r) then state <$> (f <$> heap t !! r) else stateOf t q.
Proof.
  unfold stateOf. cbn. destruct (decide (q = r)) as [->|Hne].
  - now rewrite list_lookup_alter_eq.
  - now rewrite list_lookup_alter_ne.
Qed.

Lemma finishedCountOf_alterNode r q f t :
  finishedCountOf (alterNode r f t) q
  = if decide (q = r)
    then (f <$> heap t !! r) ≫= fun n =>
           match own n with
           | TestSuiteNode f => Some (finishedChildCount f)
           | TestNode _ => None
           end
    else finishedCountOf t q.
Proof.
  unfold finishedCountOf. cbn. destruct (decide (q = r)) as [->|Hne].
  - now rewrite list_lookup_alter_eq.
  - now rewrite list_lookup_alter_ne.
Qed.

(** Assigning a state keeps the counters; it keeps what has finished when
    the object had not, or finishes too. *)
Lemma ages_set_state r s t :
  (s = FINISHED \/ stateOf t r <> Some FINISHED) ->
  ages t (alterNode r (with_state s) t).
Proof.
  intros Hs. split; [|split].
  - apply sameShape_alterNode. intros n _.
    rewrite <- (skeleton_erase (with_state _ _)), erase_idemp_state.
    apply skeleton_erase.
  - intros q. rewrite finishedCountOf_alterNode. case_decide; [subst q|done].
    unfold finishedCountOf. destruct (heap t !! r); reflexivity.
  - intros q Hq. rewrite stateOf_alterNode. case_decide; [subst q|done].
    destruct Hs as [->|Hs]; [|contradiction].
    unfold stateOf in Hq. destruct (heap t !! r); [reflexivity|discriminate].
Qed.

Lemma sameLife_alterNode r f t :
  (forall n, skeleton (f n) = skeleton n) ->
  (forall n, state (f n) = state n) ->
  (forall n, match own (f n), own n with
             | TestSuiteNode f', TestSuiteNode f0 =>
                 finishedChildCount f' = finishedChildCount f0
             | TestNode _, TestNode _ => True
             | _, _ => False
             end) ->
  sameLife t (alterNode r f t).
Proof.
  intros Hsk Hst Hc. split; [|split].
  - apply sameShape_alterNode. auto.
  - intros q. rewrite stateOf_alterNode. case_decide; [subst q|done].
    unfold stateOf. destruct (heap t !! r); cbn; [|done]. now rewrite Hst.
  - intros q. rewrite finishedCountOf_alterNode. case_decide; [subst q|done].
    unfold finishedCountOf. destruct (heap t !! r) as [n|]; cbn; [|done].
    specialize (Hc n). destruct (own (f n)), (own n); try done. now rewrite Hc.
Qed.

Lemma onTest_life g :
  (forall n, skeleton (onTest g n) = skeleton n)
  /\ (forall n, state (onTest g n) = state n)
  /\ (forall n, match own (onTest g n), own n with
                | TestSuiteNode f', TestSuiteNode f0 =>
                    finishedChildCount f' = finishedChildCount f0
                | TestNode _, TestNode _ => True
                | _, _ => False
                end).
Proof.
  repeat split; intros n; [apply skeleton_onTest| |];
    unfold onTest; destruct n as [? ? ? ? ? ? [f|f]]; cbn; done.
Qed.

Lemma preserves_updNode_onTest r g : preserves sameLife (updNode r (onTest g)).
Proof.
  intros t. destruct (onTest_life g) as (H1&H2&H3).
  now apply sameLife_alterNode.
Qed.

Ltac presLife :=
  repeat first
    [ apply (preserves_ret sameLife)
    | apply (preserves_throw sameLife)
    | apply (preserves_getTree sameLife)
    | apply (preserves_getNode sameLife)
    | apply (preserves_liftResult sameLife)
    | apply (preserves_writeln sameLife); [exact sameLife_emit]
    | apply preserves_updNode_onTest
    | apply (preserves_bind sameLife); [|intros ?]
    | case_decide
    | case_match ].

Lemma quiet_calls_sameLife :
  preserves sameLife startNotify
  /\ (forall n c l, preserves sameLife (updateRootNode n c l))
  /\ (forall n, preserves sameLife (addTotalTestCount n))
  /\ preserves sameLife testingStarted
  /\ preserves sameLife testingFinished
  /\ (forall this o d m1 m2 e a ef af,
        preserves sameLife (setOutcome this o d m1 m2 e a ef af))
  /\ (forall this m, preserves sameLife (setMetainfo this m))
  /\ (forall this e, preserves sameLife (addStdErr this e)).
Proof.
  repeat split; intros;
    unfold startNotify, updateRootNode, addTotalTestCount, testingStarted,
      testingFinished, setOutcome, setMetainfo, addStdErr; presLife.
Qed.

Lemma register_cases this t :
  (exists e, register this t = (Throw e, t))
  \/ (exists n text, heap t !! this = Some n /\ state n = CREATED
        /\ register this t
           = (Ok tt, alterNode this (with_state REGISTERED) (emit text t))).
Proof.
  unfold register, getRegisterMessage. run.
  destruct (heap t !! this) as [n|] eqn:Hn; [|left; eauto].
  destruct (decide (state n = CREATED)); run; [|left; eauto].
  unfold getInitMessage. run.
  destruct (parent n) as [p|]; run.
  - destruct (heap t !! p) as [pn|] eqn:Hp; run; [|left; eauto].
    right. exists n. eexists. repeat split; done.
  - right. exists n. eexists. repeat split; done.
Qed.

Lemma register_ages this : preserves ages (register this).
Proof.
  intros t. destruct (register_cases this t) as [[e ->]|(n&text&Hn&Hs&->)];
    [reflexivity|]. cbn [snd].
  transitivity (emit text t); [apply ages_emit|].
  apply ages_set_state. right. unfold stateOf. cbn. rewrite Hn. cbn.
  rewrite Hs. discriminate.
Qed.

Lemma start_cases this t :
  (exists e, start this t = (Throw e, t))
  \/ start this t = (Ok tt, t)
  \/ (exists n text, heap t !! this = Some n /\ state n <> FINISHED
         /\ start this t
            = (Ok tt, alterNode this (with_state STARTED) (emit text t))).
Proof.
  unfold start. run.
  destruct (heap t !! this) as [n|] eqn:Hn; [|left; eauto].
  destruct (decide (state n = FINISHED)) as [|Hf]; [left; eauto|].
  destruct (decide (state n = STARTED)) as [|Hs]; [right; left; reflexivity|].
  unfold getStartMessage. run.
  destruct (decide (state n = CREATED)).
  - unfold getInitMessage. run.
    destruct (parent n) as [p|]; run.
    + destruct (heap t !! p) as [pn|] eqn:Hp; run; [|left; eauto].
      right. right. exists n. eexists. repeat split; done.
    + right. right. exists n. eexists. repeat split; done.
  - destruct (decide (state n = REGISTERED)); run; [|left; eauto].
    right. right. exists n. eexists. repeat split; done.
Qed.

Lemma start_ages this : preserves ages (start this).
Proof.
  intros t.
  destruct (start_cases this t) as [[e ->]|[->|(n&text&Hn&Hs&->)]];
    [reflexivity..|]. cbn [snd].
  transitivity (emit text t); [apply ages_emit|].
  apply ages_set_state. right. unfold stateOf. cbn. rewrite Hn. cbn. congruence.
Qed.

Lemma sameShape_suite t t' s sn' f' :
  sameShape t t' -> heap t' !! s = Some sn' -> own sn' = TestSuiteNode f' ->
  exists sn f, heap t !! s = Some sn /\ own sn = TestSuiteNode f
               /\ children f = children f'.
Proof.
  intros HS Hs Hf. destruct (sameShape_lookup _ _ _ _ HS Hs) as (sn&Hsn&Hsk).
  injection Hsk as _ _ Hc. unfold childrenOf in Hc. rewrite Hf in Hc.
  destruct (own sn) as [f|] eqn:E; [|discriminate].
  exists sn, f. injection Hc as Hc. done.
Qed.

Lemma countsFinishedBut_ages p t t' :
  ages t t' -> countsFinishedBut p t -> countsFinishedBut p t'.
Proof.
  intros (HS&Hc&Hm) Hcf s sn' f' Hs Hf.
  destruct (sameShape_suite _ _ _ _ _ HS Hs Hf) as (sn&f&Hsn&Hf0&Hch).
  specialize (Hcf s sn f Hsn Hf0). specialize (Hc s).
  unfold finishedCountOf in Hc. rewrite Hs, Hsn in Hc. cbn in Hc.
  rewrite Hf, Hf0 in Hc. injection Hc as Hc. rewrite Hc, <- Hch.
  pose proof (finishedAmong_mono t t' (children f) Hm). lia.
Qed.

Lemma countsFinished_But p t : countsFinishedBut p t -> countsFinished t.
Proof.
  intros H s sn f Hs Hf. specialize (H s sn f Hs Hf). lia.
Qed.

Lemma countsFinished_ages t t' :
  ages t t' -> countsFinished t -> countsFinished t'.
Proof.
  intros Ha Hcf s sn' f' Hs Hf.
  (* no suite is at an address beyond the store *)
  assert (Hbut : countsFinishedBut (length (heap t)) t).
  { intros q qn qf Hq Hqf. rewrite decide_False; [specialize (Hcf q qn qf Hq Hqf); lia|].
    apply lookup_lt_Some in Hq. lia. }
  pose proof (countsFinishedBut_ages _ _ _ Ha Hbut s sn' f' Hs Hf). lia.
Qed.

(** [finish] changes nothing, or takes the step of [finish_step]. *)
Lemma finish_cases fuel this b t :
  (exists r, finish (S fuel) this b t = (r, t))
  \/ (exists n text, heap t !! this = Some n /\ this <> root t
        /\ (state n = REGISTERED \/ state n = STARTED)
        /\ getFinishMessage n = Ok text).
Proof.
  destruct (decide (root t = this)) as [<-|Hr];
    [left; eexists; apply finish_root|].
  destruct (heap t !! this) as [n|] eqn:Hn.
  2:{ left. cbn [finish]. run. rewrite decide_False by done. run. rewrite Hn.
      eauto. }
  destruct (decide (state n ≠ REGISTERED ∧ state n ≠ STARTED)) as [[H1 H2]|Hs].
  { left. eexists. apply finish_illegal; eauto. }
  destruct (getFinishMessage n) as [text|e] eqn:Hm.
  - right. exists n, text. repeat split; auto.
    destruct (state n); auto; exfalso; apply Hs; split; discriminate.
  - left. cbn [finish]. run. rewrite decide_False by done. run.
    rewrite decide_False by done. rewrite Hm. eauto.
Qed.

Lemma sameNodes_finished_step this text t :
  sameNodes t (alterNode this (with_state FINISHED) (emit text t)).
Proof.
  transitivity (emit text t); [apply sameNodes_emit|].
  apply sameNodes_alterNode. intros; apply erase_idemp_state.
Qed.

Lemma ages_finished_step this text t :
  ages t (alterNode this (with_state FINISHED) (emit text t)).
Proof.
  transitivity (emit text t); [apply ages_emit|].
  apply ages_set_state. now left.
Qed.

Lemma finish_counts fuel :
  (forall this b t, wf t -> countsFinished t ->
     countsFinished (finish fuel this b t).2)
  /\ (forall p t, wf t -> countsFinishedBut p t ->
        countsFinished (onChildFinished fuel p t).2).
Proof.
  assert (Hnotify : forall fuel,
            (forall this b t, wf t -> countsFinished t ->
               countsFinished (finish fuel this b t).2) ->
            forall p t, wf t -> countsFinishedBut p t ->
              countsFinished (onChildFinished fuel p t).2).
  { clear fuel. intros fuel Hfin p t W Hbut.
    destruct (finishedCountOf t p) as [k|] eqn:Hk.
    2:{ rewrite (onChildFinished_not_suite _ _ _ Hk).
        now apply (countsFinished_But p). }
    unfold finishedCountOf in Hk.
    destruct (heap t !! p) as [pn|] eqn:Hp; [|discriminate]. cbn in Hk.
    destruct (own pn) as [f|] eqn:Hf; [|discriminate].
    rewrite (onChildFinished_step _ _ _ _ _ Hp Hf). cbv zeta.
    set (t1 := alterNode p (onSuite incrFinishedChildCount) t).
    assert (HS1 : sameNodes t t1)
      by (apply sameNodes_alterNode; intros; apply erase_onSuite_incr).
    assert (Hst1 : forall q, stateOf t1 q = stateOf t q).
    { intros q. unfold t1. rewrite stateOf_alterNode. case_decide; [subst q|done].
      unfold stateOf. rewrite Hp. cbn. unfold onSuite. now rewrite Hf. }
    assert (Hc1 : countsFinished t1).
    { intros s sn1 f1 Hs1 Hf1.
      assert (Hfa : finishedAmong t1 (children f1) = finishedAmong t (children f1)).
      { unfold finishedAmong. apply list_filter_iff. intros c. now rewrite Hst1. }
      rewrite Hfa. destruct (decide (s = p)) as [->|Hne].
      - unfold t1 in Hs1. rewrite (lookup_alterNode_eq _ _ _ pn Hp) in Hs1.
        injection Hs1 as <-. unfold onSuite in Hf1. rewrite Hf in Hf1.
        cbn [with_own own] in Hf1. injection Hf1 as <-.
        unfold incrFinishedChildCount. cbn [finishedChildCount children].
        specialize (Hbut p pn f Hp Hf). rewrite decide_True in Hbut by done.
        lia.
      - unfold t1 in Hs1. rewrite lookup_alterNode_ne in Hs1 by done.
        specialize (Hbut s sn1 f1 Hs1 Hf1). lia. }
    assert (W1 : wf t1)
      by (eapply wf_sameShape; [apply sameNodes_sameShape|]; eauto).
    destruct (decide (_ = _)); [|exact Hc1].
    destruct (decide (state pn ≠ FINISHED)); [|exact Hc1].
    now apply Hfin. }
  induction fuel as [|fuel [IHf IHn]].
  - assert (H0 : forall this b t, wf t -> countsFinished t ->
                   countsFinished (finish 0 this b t).2) by (intros; assumption).
    split; [exact H0|exact (Hnotify 0%nat H0)].
  - assert (HS : forall this b t, wf t -> countsFinished t ->
                   countsFinished (finish (S fuel) this b t).2).
    { intros this b t W Hc.
      destruct (finish_cases fuel this b t)
        as [[r ->]|(n&text&Hn&Hr&Hst&Htext)]; [exact Hc|].
      rewrite (finish_step fuel this b t n text Hn Hr Hst Htext). cbv zeta.
      set (t1 := alterNode this (with_state FINISHED) (emit text t)).
      pose proof (ages_finished_step this text t) as Ha. fold t1 in Ha.
      assert (Hc1 : countsFinished t1) by (eapply countsFinished_ages; eauto).
      assert (W1 : wf t1).
      { eapply wf_sameShape; [|exact W].
        apply sameNodes_sameShape, sameNodes_finished_step. }
      destruct b; [|exact Hc1].
      destruct (parent n) as [p|] eqn:Hp; [|exact Hc1].
      destruct (decide (p ≠ root t)); [|exact Hc1].
      apply IHn; [exact W1|].
      intros s sn1 f1 Hs1 Hf1. destruct (decide (s = p)) as [->|Hne].
      2:{ specialize (Hc1 s sn1 f1 Hs1 Hf1). lia. }
      pose proof (wf_acyclic t W this n p Hn Hp) as Hlt.
      assert (Hsp : heap t !! p = Some sn1).
      { unfold t1 in Hs1. rewrite lookup_alterNode_ne in Hs1 by lia. exact Hs1. }
      destruct (wf_listed t W this n p Hn Hp) as (pn&cs&Hpn&Hcs&Hin).
      assert (pn = sn1) by congruence. subst pn.
      unfold childrenOf in Hcs. rewrite Hf1 in Hcs. injection Hcs as <-.
      specialize (Hc p sn1 f1 Hsp Hf1).
      destruct Ha as (_&_&Hm).
      pose proof (finishedAmong_gain t t1 (children f1) this Hm Hin) as Hg.
      assert (Hg' : (length (finishedAmong t (children f1)) + 1
                     <= length (finishedAmong t1 (children f1)))%nat).
      { apply Hg.
        - unfold stateOf. rewrite Hn. cbn. destruct Hst as [-> | ->]; discriminate.
        - unfold t1. rewrite stateOf_alterNode, decide_True by done.
          cbn. now rewrite Hn. }
      lia. }
    split; [exact HS|exact (Hnotify (S fuel) HS)].
Qed.

Lemma finish_false_ages fuel this : preserves ages (finish fuel this false).
Proof.
  intros t. destruct fuel as [|fuel]; [reflexivity|].
  destruct (finish_cases fuel this false t)
    as [[r ->]|(n&text&Hn&Hr&Hst&Htext)]; [reflexivity|].
  rewrite (finish_step fuel this false t n text Hn Hr Hst Htext).
  apply ages_finished_step.
Qed.

Lemma finishIfStarted_ages fuel this : preserves ages (finishIfStarted fuel this).
Proof.
  revert this. induction fuel as [|fuel IH]; intros this; cbn [finishIfStarted].
  - apply (preserves_throw ages).
  - apply (preserves_bind ages); [apply (preserves_getNode ages)|intros n].
    case_decide; [|apply (preserves_ret ages)].
    case_match; [|apply (preserves_throw ages)].
    apply (preserves_bind ages); [apply (preserves_forEach ages), IH|intros _].
    apply finish_false_ages.
Qed.

Lemma grown_counts fields this childName nodeType locPath t n :
  fields = TestNode emptyTest \/ fields = TestSuiteNode emptySuite ->
  heap t !! this = Some n ->
  countsFinished t ->
  countsFinished (grown fields this childName nodeType locPath t).
Proof.
  intros Hfields Hn Hc.
  set (t' := grown fields this childName nodeType locPath t).
  assert (Hthis : (this < length (heap t))%nat) by (eapply lookup_lt_Some; eauto).
  assert (Hm : forall c, stateOf t c = Some FINISHED -> stateOf t' c = Some FINISHED).
  { intros c Hcst. unfold stateOf in *.
    destruct (heap t !! c) as [cn|] eqn:Hcn; [|discriminate].
    destruct (grown_old fields this childName nodeType locPath t c cn Hcn)
      as (cn'&Hcn'&_&_&Hst).
    fold t' in Hcn'. rewrite Hcn'. cbn in *. congruence. }
  intros s sn' f' Hs Hf.
  destruct (grown_inv fields this childName nodeType locPath t s sn' Hthis Hs)
    as [(->&_&_&Hown)|(m&Hm0&_&_&[(->&->)|(Hne&->)])].
  - rewrite Hown in Hf. destruct Hfields as [-> | ->]; [discriminate|].
    injection Hf as <-. cbn [emptySuite finishedChildCount children]. cbn. lia.
  - assert (m = n) by congruence. subst m.
    unfold onSuite in Hf. destruct (own n) as [f|] eqn:Hown; [|congruence].
    cbn [with_own own] in Hf. injection Hf as <-.
    unfold addChildNode, pushChild. cbn [finishedChildCount children].
    specialize (Hc this n f Hn Hown).
    unfold finishedAmong. rewrite filter_app, length_app.
    pose proof (finishedAmong_mono t t' (children f) Hm) as Hle.
    unfold finishedAmong in *. lia.
  - specialize (Hc s m f' Hm0 Hf).
    pose proof (finishedAmong_mono t t' (children f') Hm). lia.
Qed.

(** ** Automatic completion of a suite *)








Lemma perform_counts fuel c t :
  wf t -> countsFinished t -> countsFinished (perform fuel c t).2.
Proof.
  intros W Hc.
  destruct quiet_calls_sameLife as (H1&H2&H3&H4&H5&H6&H7&H8).
  destruct c; cbn [perform]; rewrite ?unit_call_tree;
    try (eapply countsFinished_ages; [|exact Hc];
         first [ apply sameLife_ages;
                 first [ apply H1 | apply H2 | apply H3 | apply H4 | apply H5
                       | apply H6 | apply H7 | apply H8 ]
               | apply register_ages | apply start_ages
               | apply finishIfStarted_ages ]).
  - now apply finish_counts.
  - unfold addTestChild, bind, ret.
    match goal with
    | |- context [addChild ?fi ?th ?cn ?ty ?l ?t0] =>
        destruct (addChild_cases fi th cn ty l t0)
          as [[e He]|(n&Hn&_&_&He)]; rewrite He; [exact Hc|]
    end.
    eapply grown_counts; eauto.
  - unfold addTestSuiteChild, bind, ret.
    match goal with
    | |- context [addChild ?fi ?th ?cn ?ty ?l ?t0] =>
        destruct (addChild_cases fi th cn ty l t0)
          as [[e He]|(n&Hn&_&_&He)]; rewrite He; [exact Hc|]
    end.
    eapply grown_counts; eauto.
Qed.

Lemma session_counts fuel calls t :
  wf t -> countsFinished t -> countsFinished (session fuel calls t).2.
Proof.
  revert t. induction calls as [|c calls IH]; intros t W Hc; [exact Hc|].
  rewrite session_cons. cbn [snd].
  apply IH; [now apply perform_wf|now apply perform_counts].
Qed.

Lemma countsFinished_newTree idPrefix : countsFinished (newTree idPrefix).
Proof.
  intros [|[|s]] sn f Hs Hf; try discriminate Hs.
  injection Hs as <-. injection Hf as <-. cbn. lia.
Qed.

(** In a reachable tree no suite has counted more children than have
    finished. *)
Theorem reachable_counts t : reachable t -> countsFinished t.
Proof.
  intros (p&fuel&calls&->).
  apply session_counts; [apply wf_newTree|apply countsFinished_newTree].
Qed.







(* ===================================================================== *)
(** * The life cycle of a node *)

Lemma start_finished t this n :
  heap t !! this = Some n -> state n = FINISHED ->
  start this t = (Throw CannotStartFinished, t).
Proof.
  intros Hn Hs. unfold start. run. rewrite decide_True by done. reflexivity.
Qed.

Lemma start_started t this n :
  heap t !! this = Some n -> state n = STARTED -> start this t = (Ok tt, t).
Proof.
  intros Hn Hs. unfold start. run. rewrite decide_False by congruence.
  rewrite decide_True by done. reflexivity.
Qed.

(** A [start] that is not a no-op writes one chunk and sets the state,
    or throws. *)
Lemma start_first t this n :
  heap t !! this = Some n -> state n <> STARTED ->
  (exists e, start this t = (Throw e, t))
  \/ (exists text,
        start this t
        = (Ok tt, alterNode this (with_state STARTED) (emit text t))).
Proof.
  intros Hn Hs. unfold start. run.
  destruct (decide (state n = FINISHED)); [left; eauto|].
  rewrite decide_False by done.
  unfold getStartMessage. run.
  destruct (decide (state n = CREATED)).
  - unfold getInitMessage. run.
    destruct (parent n) as [p|]; run.
    + destruct (heap t !! p) as [pn|] eqn:Hp; run; [|left; eauto].
      right. eexists. reflexivity.
    + right. eexists. reflexivity.
  - destruct (decide (state n = REGISTERED)); run; [|left; eauto].
    right. eexists. reflexivity.
Qed.

(** In a well-formed tree the parent of a node is there, so that the
    message of a first [start] can be made. *)
Lemma start_first_succeeds t this n :
  wf t -> heap t !! this = Some n ->
  state n = CREATED \/ state n = REGISTERED ->
  (start this t).1 = Ok tt.
Proof.
  intros W Hn Hs. unfold start. run.
  rewrite decide_False by (destruct Hs as [-> | ->]; discriminate).
  rewrite decide_False by (destruct Hs as [-> | ->]; discriminate).
  unfold getStartMessage. run.
  destruct (decide (state n = CREATED)).
  - unfold getInitMessage. run.
    destruct (parent n) as [p|] eqn:Hp; run; [|reflexivity].
    pose proof (wf_acyclic t W this n p Hn Hp) as Hlt.
    destruct (lookup_lt_is_Some_2 (heap t) p) as [pn Hpn].
    { apply lookup_lt_Some in Hn. lia. }
    rewrite Hpn. reflexivity.
  - rewrite decide_True by (destruct Hs; congruence). reflexivity.
Qed.

(** C1, amended: for every node but the root, [finish] in the state
    CREATED throws an IllegalState error and changes nothing; for every node,
    [start] in the state FINISHED throws an IllegalState error, [start] in the
    state STARTED returns without writing or changing anything, and a
    [start] that succeeds from another state writes exactly one chunk and
    leaves the node STARTED; in a reachable tree it does succeed from CREATED
    and REGISTERED. *)
Theorem lifecycle_misuse_is_rejected (t : Tree) (this : nat) (n : Node) :
  heap t !! this = Some n ->
  (state n = CREATED -> this <> root t ->
     forall fuel b, exists e,
       finish (S fuel) this b t = (Throw e, t) /\ classify e = IllegalState)
  /\ (state n = FINISHED ->
        exists e, start this t = (Throw e, t) /\ classify e = IllegalState)
  /\ (state n = STARTED -> start this t = (Ok tt, t))
  /\ (state n <> STARTED ->
        forall t', start this t = (Ok tt, t') ->
          (exists chunk, written t' = written t ++ [chunk])
          /\ stateOf t' this = Some STARTED)
  /\ (reachable t -> state n = CREATED \/ state n = REGISTERED ->
        (start this t).1 = Ok tt).
Proof.
  intros Hn. split; [|split; [|split; [|split]]].
  - intros Hs Hr fuel b. exists (UnexpectedNodeState CREATED).
    split; [|reflexivity]. rewrite <- Hs.
    apply finish_illegal; [done|done|rewrite Hs; discriminate..].
  - intros Hs. exists CannotStartFinished. split; [|reflexivity].
    eapply start_finished; eauto.
  - intros Hs. eapply start_started; eauto.
  - intros Hs t' Hstart.
    destruct (start_first t this n Hn Hs) as [[e He]|[text Ht]];
      [congruence|].
    rewrite Ht in Hstart. injection Hstart as <-. split.
    + eexists. reflexivity.
    + unfold stateOf. rewrite (lookup_alterNode_eq _ _ _ n) by exact Hn.
      reflexivity.
  - intros Hreach Hs. eapply start_first_succeeds; eauto using reachable_wf.
Qed.

Lemma lifecycle_misuse_is_rejected_witness :
  (exists e, finish 1 1 false Samples.createdTest = (Throw e, Samples.createdTest)
             /\ classify e = IllegalState)
  /\ (start 1 Samples.createdTest).1 = Ok tt.
Proof.
  assert (Hn : exists n, heap Samples.createdTest !! 1%nat = Some n
                         /\ state n = CREATED) by (eexists; split; reflexivity).
  destruct Hn as (n&Hn&Hs).
  destruct (lifecycle_misuse_is_rejected Samples.createdTest 1 n Hn)
    as (H1&_&_&_&H5).
  split.
  - apply H1; [exact Hs|discriminate].
  - apply H5; [|left; exact Hs].
    exists None, 2%nat. eexists. reflexivity.
Defined.

(** C1 as stated fails on the root: in the state CREATED its [finish]
    returns, and throws nothing. *)
Lemma finish_on_created_root_returns :
  stateOf (newTree None) (root (newTree None)) = Some CREATED
  /\ finish 1 (root (newTree None)) false (newTree None) = (Ok tt, newTree None).
Proof. split; reflexivity. Qed.

(* ===================================================================== *)
(** * Outcome and diagnostic output of a test *)

(** C5: [setOutcome] on a test whose outcome is set throws the AlreadySet
    error and leaves the whole tree, hence every field of the node, as it
    was. *)
Theorem setOutcome_twice_is_rejected (t : Tree) (this : nat) (n : Node)
    (f : TestFields) (o : TestOutcome) (d : option Z)
    (m1 m2 e a ef af : option (list N)) :
  heap t !! this = Some n -> own n = TestNode f -> outcome f <> None ->
  setOutcome this o d m1 m2 e a ef af t = (Throw OutcomeAlreadySet, t)
  /\ classify OutcomeAlreadySet = AlreadySet.
Proof.
  intros Hn Hf Ho. split; [|reflexivity].
  unfold setOutcome. run. rewrite Hf. rewrite decide_True by done. reflexivity.
Qed.

Lemma setOutcome_twice_is_rejected_witness :
  setOutcome 1 FAILED (Some 5%Z) (Some (lit "late")) None None None None None
    Samples.testUnderRoot
  = (Throw OutcomeAlreadySet, Samples.testUnderRoot).
Proof.
  assert (H : exists n f, heap Samples.testUnderRoot !! 1%nat = Some n
                          /\ own n = TestNode f /\ outcome f = Some SUCCESS)
    by (do 2 eexists; repeat split; reflexivity).
  destruct H as (n&f&Hn&Hf&Ho).
  apply (setOutcome_twice_is_rejected Samples.testUnderRoot 1 n f); try done.
  rewrite Ho. discriminate.
Defined.

(** C8, amended: on a test in any state, [addStdErr] with a string, the
    empty string included, returns after writing exactly one testStdErr chunk
    with the id of the node and the escaped text, and with a value that is
    no string it returns without writing; in both cases no object of the
    tree and no field of the tree but the output changes. *)
Theorem addStdErr_writes_for_any_string (t : Tree) (this : nat) (n : Node)
    (f : TestFields) (err : option (list N)) :
  heap t !! this = Some n -> own n = TestNode f ->
  exists t',
    addStdErr this err t = (Ok tt, t')
    /\ heap t' = heap t /\ nextId t' = nextId t /\ root t' = root t
    /\ idPrefix t' = idPrefix t
    /\ written t'
       = written t
         ++ match err with
            | Some text =>
                [ lit "##teamcity[testStdErr nodeId='" ++ idText (nodeId n)
                  ++ lit "' out='" ++ escapeAttributeValue text ++ lit "']"
                  ++ [10] ]
            | None => []
            end.
Proof.
  intros Hn Hf. unfold addStdErr. run. rewrite Hf.
  destruct err as [text|]; run.
  - eexists. split; [reflexivity|]. repeat split.
    unfold emit, with_written. cbn [written].
    rewrite <- !app_assoc. reflexivity.
  - exists t. repeat split. now rewrite app_nil_r.
Qed.

Lemma addStdErr_writes_for_any_string_witness :
  exists t', addStdErr 1 (Some (lit "a]")) Samples.testUnderRoot = (Ok tt, t')
    /\ written t'
       = written Samples.testUnderRoot
         ++ [lit "##teamcity[testStdErr nodeId='1' out='a|]']" ++ [10]].
Proof.
  assert (H : exists n f, heap Samples.testUnderRoot !! 1%nat = Some n
                          /\ own n = TestNode f /\ nodeId n = NumId 1)
    by (do 2 eexists; repeat split; reflexivity).
  destruct H as (n&f&Hn&Hf&Hi).
  destruct (addStdErr_writes_for_any_string Samples.testUnderRoot 1 n f
              (Some (lit "a]")) Hn Hf) as (t'&Ht&_&_&_&_&Hw).
  exists t'. split; [exact Ht|]. rewrite Hw, Hi. reflexivity.
Defined.

(** C8 as stated fails on the empty text: a chunk is written for it. *)
Lemma addStdErr_writes_for_empty_string :
  written (addStdErr 1 (Some []) Samples.testUnderRoot).2
  = written Samples.testUnderRoot
    ++ [lit "##teamcity[testStdErr nodeId='1' out='']" ++ [10]].
Proof. reflexivity. Qed.

(* ===================================================================== *)
(** * Automatic completion of a suite that was never started *)

(** C10: when [onChildFinished] brings the counter of a suite that is not
    the root and still CREATED up to the number of its children, it throws an
    IllegalState error: the counter is advanced, the suite stays CREATED and
    nothing is written; so does the [finish] of its last child, after that
    child wrote its line and finished.  A notification that finishes a suite
    without throwing found it REGISTERED or STARTED. *)
Theorem created_suite_cannot_auto_finish (fuel : nat) (t : Tree) (s : nat)
    (sn : Node) (f : SuiteFields) :
  heap t !! s = Some sn -> own sn = TestSuiteNode f -> s <> root t ->
  finishedChildCount f + 1 = N.of_nat (length (children f)) ->
  (state sn = CREATED ->
     (exists e, (onChildFinished (S fuel) s t).1 = Throw e
                /\ classify e = IllegalState)
     /\ stateOf (onChildFinished (S fuel) s t).2 s = Some CREATED
     /\ finishedCountOf (onChildFinished (S fuel) s t).2 s
        = Some (finishedChildCount f + 1)
     /\ written (onChildFinished (S fuel) s t).2 = written t)
  /\ (state sn = CREATED ->
      forall c, childReady t s c ->
        exists e text,
          finish (S (S fuel)) c true t = (Throw e, childDone c text s t)
          /\ classify e = IllegalState
          /\ stateOf (childDone c text s t) s = Some CREATED
          /\ stateOf (childDone c text s t) c = Some FINISHED)
  /\ (state sn <> FINISHED ->
      (onChildFinished (S fuel) s t).1 = Ok tt ->
      state sn = REGISTERED \/ state sn = STARTED).
Proof.
  intros Hs Hf Hsr Hlast.
  set (t1 := alterNode s (onSuite incrFinishedChildCount) t).
  assert (Hs1 : heap t1 !! s = Some (onSuite incrFinishedChildCount sn))
    by (apply lookup_alterNode_eq; exact Hs).
  assert (Hst1 : state (onSuite incrFinishedChildCount sn) = state sn)
    by (unfold onSuite; rewrite Hf; reflexivity).
  assert (Hstep : state sn <> FINISHED ->
            onChildFinished (S fuel) s t = finish (S fuel) s true t1).
  { intros Hne. rewrite (onChildFinished_step _ _ _ _ _ Hs Hf). cbv zeta.
    rewrite decide_True by done. rewrite decide_True by done. reflexivity. }
  assert (Hthrow : state sn = CREATED ->
            onChildFinished (S fuel) s t = (Throw (UnexpectedNodeState CREATED), t1)).
  { intros Hc. rewrite Hstep by (rewrite Hc; discriminate).
    rewrite (finish_illegal fuel t1 s _ true Hs1 Hsr);
      rewrite Hst1, Hc; [reflexivity|discriminate..]. }
  split; [|split].
  - intros Hc. rewrite (Hthrow Hc). cbn [fst snd]. split; [eauto|].
    unfold stateOf, finishedCountOf. rewrite Hs1. cbn. rewrite Hst1, Hc.
    unfold onSuite. rewrite Hf. repeat split.
  - intros Hc c (Hcs&Hcr&cn&text&Hcn&Hpar&Hcst&Htext).
    exists (UnexpectedNodeState CREATED), text.
    rewrite (finish_child (S fuel) c s cn sn f text t Hcn Hcr Hcst Htext Hpar
               Hsr Hcs Hs Hf).
    cbv zeta. rewrite decide_True by done.
    rewrite decide_True by (rewrite Hc; discriminate).
    assert (Hs2 : heap (childDone c text s t) !! s
                  = Some (onSuite incrFinishedChildCount sn)).
    { unfold childDone. apply lookup_alterNode_eq.
      rewrite lookup_alterNode_ne by done. exact Hs. }
    rewrite (finish_illegal fuel _ s _ true Hs2 Hsr);
      rewrite ?Hst1, ?Hc; [|discriminate..].
    split; [reflexivity|]. split; [reflexivity|]. split.
    + unfold stateOf. rewrite Hs2. cbn. now rewrite Hst1, Hc.
    + unfold stateOf, childDone. rewrite lookup_alterNode_ne by done.
      rewrite (lookup_alterNode_eq _ _ _ cn) by exact Hcn. reflexivity.
  - intros Hne Hok. rewrite (Hstep Hne) in Hok.
    destruct (state sn) eqn:E; auto; [|contradiction].
    rewrite (finish_illegal fuel t1 s _ true Hs1 Hsr) in Hok;
      rewrite ?Hst1, ?E in *; discriminate.
Qed.

Lemma created_suite_cannot_auto_finish_witness :
  (exists e, (onChildFinished 1 1 Samples.createdSuite).1 = Throw e
             /\ classify e = IllegalState)
  /\ stateOf (onChildFinished 1 1 Samples.createdSuite).2 1 = Some CREATED.
Proof.
  assert (H : exists sn f, heap Samples.createdSuite !! 1%nat = Some sn
                           /\ own sn = TestSuiteNode f /\ state sn = CREATED
                           /\ finishedChildCount f + 1
                              = N.of_nat (length (children f)))
    by (do 2 eexists; repeat split; reflexivity).
  destruct H as (sn&f&Hs&Hf&Hst&Hlast).
  destruct (created_suite_cannot_auto_finish 0 Samples.createdSuite 1 sn f Hs Hf
              ltac:(discriminate) Hlast) as (H1&_&_).
  destruct (H1 Hst) as (He&Hs'&_). split; [exact He|exact Hs'].
Defined.

(* ===================================================================== *)
(** * Forced termination *)

(** [finishIfStarted] on a test that has not finished reads the length
    of a [children] array the test does not have. *)
Lemma finishIfStarted_unfinished_test fuel t this n f :
  heap t !! this = Some n -> own n = TestNode f -> state n <> FINISHED ->
  finishIfStarted (S fuel) this t = (Throw JsTypeError, t).
Proof.
  intros Hn Hf Hs. cbn [finishIfStarted]. run.
  rewrite decide_True by done. rewrite Hf. reflexivity.
Qed.

(** C6, on the code: in the mid-run tree (a started suite whose three
    tests have an outcome and of which one has finished), [finishIfStarted]
    on the suite skips the finished test and throws a TypeError at the next
    one, which has no [children]: no finish line is written and neither the
    two tests nor the suite finish. *)
Theorem finishIfStarted_throws_on_unfinished_test :
  map state (heap Samples.midRun) = [CREATED; STARTED; FINISHED; STARTED; STARTED]
  /\ forallb (finishable Samples.midRun) [1; 3; 4]%nat = true
  /\ finishIfStarted 5 1 Samples.midRun = (Throw JsTypeError, Samples.midRun)
  /\ finishIfStarted 5 3 Samples.midRun = (Throw JsTypeError, Samples.midRun).
Proof. repeat split; vm_compute; reflexivity. Qed.

(* ===================================================================== *)
(** * Messages about the root *)

(** C9, on the code: [register] and [start] on the root of a new tree
    write a testSuiteStarted chunk whose nodeId is the id 0 of the root;
    only [finish] checks for the root. *)
Theorem root_start_writes_a_root_message :
  nodeId <$> heap (newTree None) !! root (newTree None) = Some (NumId 0)
  /\ written (start (root (newTree None)) (newTree None)).2
     = [ lit "##teamcity[testSuiteStarted nodeId='0' parentNodeId='0' name='hidden root' running='true']"
         ++ [10] ]
  /\ written (register (root (newTree None)) (newTree None)).2
     = [ lit "##teamcity[testSuiteStarted nodeId='0' parentNodeId='0' name='hidden root' running='false']"
         ++ [10] ]
  /\ written (finish 1 (root (newTree None)) true (newTree None)).2 = [].
Proof. repeat split; vm_compute; reflexivity. Qed.

(* ===================================================================== *)
(** * Identity of the nodes *)

Lemma map_childIdOf_NoDup idPrefix ns :
  NoDup ns -> NoDup (map (childIdOf idPrefix) ns).
Proof.
  induction 1 as [|n ns Hn _ IH]; cbn [map]; constructor; [|exact IH].
  intros Hin. apply Hn. apply list_elem_of_In in Hin.
  apply in_map_iff in Hin as (m&Hm&Hin). apply childIdOf_inj in Hm. subst m.
  now apply list_elem_of_In.
Qed.

(** C4: in any session on a tree, whatever is called in between and on
    whichever suites, the ids of the children that [addTestChild] and
    [addTestSuiteChild] return are made, in the order of the calls, from
    the numbers [nextId], [nextId + 1], ...: the numbers increase strictly,
    no two of the ids are equal, with a prefix every id is the string
    prefix-number, and in a reachable tree none of them is the id of an
    object that was there before, finished or not. *)
Theorem child_ids_strictly_increasing (fuel : nat) (calls : list call) (t : Tree) :
  let rs := (session fuel calls t).1 in
  let t' := (session fuel calls t).2 in
  let ns := countFrom (nextId t) (length (allocated rs t')) in
  allocated rs t' = map (childIdOf (idPrefix t)) ns
  /\ StronglySorted N.lt ns
  /\ NoDup (allocated rs t')
  /\ nextId t' = nextId t + N.of_nat (length ns)
  /\ (forall prefix, idPrefix t = Some prefix ->
        allocated rs t' = map (fun n => StrId (prefix ++ lit "-" ++ dec n)) ns)
  /\ (reachable t ->
        forall r n, heap t !! r = Some n -> nodeId n ∉ allocated rs t').
Proof.
  cbv zeta. destruct (session_allocated fuel calls t) as [Ha Hn].
  cbv zeta in Ha, Hn.
  set (ids := allocated (session fuel calls t).1 (session fuel calls t).2) in *.
  set (ns := countFrom (nextId t) (length ids)) in *.
  split; [exact Ha|]. split; [apply countFrom_sorted|].
  split; [rewrite Ha; apply map_childIdOf_NoDup, countFrom_NoDup|].
  split; [unfold ns; rewrite countFrom_length; exact Hn|].
  split.
  - intros prefix Hp. rewrite Ha, Hp. reflexivity.
  - intros Hreach r n Hr Hin. pose proof (reachable_wf t Hreach) as W.
    rewrite Ha in Hin. apply list_elem_of_In, in_map_iff in Hin as (m&Hm&Hin).
    apply list_elem_of_In, countFrom_bounds in Hin.
    rewrite (wf_nextId t W) in Hin.
    pose proof (lookup_lt_Some _ _ _ Hr) as Hlt.
    destruct (decide (r = 0%nat)) as [->|Hne].
    + destruct (wf_hidden t W) as (n0&H0&Hi0&_).
      assert (n = n0) by congruence. subst n0.
      apply (f_equal idText) in Hm. rewrite Hi0 in Hm.
      revert Hm. apply idText_childIdOf_root. lia.
    + rewrite (wf_id t W r n Hr Hne) in Hm. apply childIdOf_inj in Hm. lia.
Qed.

Lemma child_ids_strictly_increasing_witness :
  allocated (session 4 Samples.interleaved (newTree (Some (lit "7")))).1
            (session 4 Samples.interleaved (newTree (Some (lit "7")))).2
  = map (fun n => StrId (lit "7" ++ lit "-" ++ dec n)) [1; 2; 3; 4; 5]
  /\ NumId 0 ∉ allocated (session 4 Samples.interleaved (newTree (Some (lit "7")))).1
                         (session 4 Samples.interleaved (newTree (Some (lit "7")))).2.
Proof.
  destruct (child_ids_strictly_increasing 4 Samples.interleaved
              (newTree (Some (lit "7")))) as (_&_&_&_&Hp&Hfresh).
  split.
  - rewrite (Hp (lit "7") eq_refl). vm_compute. reflexivity.
  - apply (Hfresh ltac:(exists (Some (lit "7")), 0%nat, []; reflexivity) 0%nat
             {| nodeId := NumId 0; parent := None; name := lit "hidden root";
                type := None; locationPath := None; state := CREATED;
                own := TestSuiteNode emptySuite |}).
    reflexivity.
Defined.

(* ===================================================================== *)
(** * Further properties of the escaper *)

Module EscaperMore.
Import Escaper EscaperProofs.

Lemma escape_spec_app a b : escape_spec (a ++ b) = escape_spec a ++ escape_spec b.
Proof. apply flat_map_app. Qed.

Lemma substitute_no_lineBreak c e : substitute c = Some e -> lineBreak e = false.
Proof.
  destruct c as [|p]; [discriminate|].
  do 14 (try (destruct p as [p|p|]; try discriminate;
              try (intros [= <-]; reflexivity))).
Qed.

Lemma lineBreak_substitute c : lineBreak c = true -> substitute c <> None.
Proof.
  unfold lineBreak. rewrite !orb_true_iff.
  intros [[[[H|H]|H]|H]|H]; apply N.eqb_eq in H; subst c; discriminate.
Qed.

Lemma escape_spec_no_lineBreak str : existsb lineBreak (escape_spec str) = false.
Proof.
  unfold escape_spec. induction str as [|c str IH]; [reflexivity|].
  cbn [flat_map]. rewrite existsb_app, IH, orb_false_r.
  unfold escapeChar. destruct (substitute c) as [e|] eqn:E.
  - cbn. now rewrite (substitute_no_lineBreak c e E).
  - cbn. rewrite orb_false_r. destruct (lineBreak c) eqn:L; [|reflexivity].
    now apply lineBreak_substitute in L.
Qed.

Lemma escape_spec_length str :
  length (escape_spec str) = (length str + length (List.filter escapable str))%nat.
Proof.
  unfold escape_spec. induction str as [|c str IH]; [reflexivity|].
  cbn [flat_map List.filter]. rewrite length_app, IH.
  unfold escapeChar, escapable. destruct (substitute c); cbn; lia.
Qed.

Lemma escape_spec_has_pipe str :
  existsb escapable str = true -> existsb escapable (escape_spec str) = true.
Proof.
  induction str as [|c str IH]; [discriminate|].
  change (escape_spec (c :: str)) with (escapeChar c ++ escape_spec str).
  cbn [existsb]. rewrite existsb_app. unfold escapeChar, escapable at 1.
  destruct (substitute c); [reflexivity|]. cbn [orb]. intros H.
  rewrite (IH H). apply orb_true_r.
Qed.

Lemma filter_nil_existsb {A} (p : A -> bool) l :
  existsb p l = true -> (0 < length (List.filter p l))%nat.
Proof.
  induction l as [|x l IH]; [discriminate|]. cbn.
  destruct (p x); cbn; [lia|auto].
Qed.

(** X1: escaping distributes over concatenation: the escaped form of
    [a + b] is the escaped form of [a] followed by that of [b], so a
    message may be escaped piece by piece. *)
Theorem escape_distributes_over_concatenation (a b : list N) :
  escapeAttributeValue (a ++ b)
  = escapeAttributeValue a ++ escapeAttributeValue b.
Proof. rewrite !escapeAttributeValue_spec. apply escape_spec_app. Qed.

(** X2: the output of [escapeAttributeValue] holds none of the five line
    break characters (line feed, carriage return, next line U+0085, line
    separator U+2028, paragraph separator U+2029), whatever the input. *)
Theorem escaped_has_no_line_break (str : list N) :
  existsb lineBreak (escapeAttributeValue str) = false.
Proof. rewrite escapeAttributeValue_spec. apply escape_spec_no_lineBreak. Qed.

Lemma escapable_code c :
  escapable c = bool_decide (is_Some (doEscapeCharCode c)).
Proof.
  unfold escapable. rewrite <- doEscapeCharCode_substitute.
  destruct (doEscapeCharCode c) as [e|].
  - symmetry. apply bool_decide_eq_true. eauto.
  - symmetry. apply bool_decide_eq_false. intros [e He]. discriminate.
Qed.

(** X3: escaping lengthens a string by exactly one code unit for each of
    its characters that [doEscapeCharCode] maps. *)
Theorem escaped_length (str : list N) :
  length (escapeAttributeValue str)
  = (length str
     + length (List.filter (fun c => bool_decide (is_Some (doEscapeCharCode c)))
                           str))%nat.
Proof.
  rewrite escapeAttributeValue_spec, escape_spec_length. do 2 f_equal.
  apply List.filter_ext. intros c. apply escapable_code.
Qed.

(** X4: escaping is not idempotent: escaping an escaped string changes it
    again, unless [isAttributeValueEscapingNeeded] is false of the original
    string (and then nothing changes at all). *)
Theorem escape_twice_iff_not_needed (str : list N) :
  escapeAttributeValue (escapeAttributeValue str) = escapeAttributeValue str
  <-> isAttributeValueEscapingNeeded str = false.
Proof.
  rewrite isAttributeValueEscapingNeeded_spec, !escapeAttributeValue_spec. split.
  - intros H. destruct (existsb escapable str) eqn:E; [|reflexivity].
    apply (f_equal length) in H. rewrite (escape_spec_length (escape_spec _)) in H.
    pose proof (filter_nil_existsb _ _ (escape_spec_has_pipe str E)). lia.
  - intros H. rewrite !(escape_spec_safe str H). reflexivity.
Qed.
End EscaperMore.

(* ===================================================================== *)
(** * Further properties of the tree *)

(** ** The life cycle, further *)

Lemma stateOf_lookup t r n : heap t !! r = Some n -> stateOf t r = Some (state n).
Proof. intros H. unfold stateOf. now rewrite H. Qed.

(** X5: [register] is legal only on a node that was just created.  In any
    other state it throws 'Unexpected node state: ...', writes nothing and
    leaves the tree as it is; on a created node of a tree a caller can
    build it succeeds, writes one chunk and makes the node registered, so
    that a second [register] throws. *)
Theorem register_only_from_created (t : Tree) (this : nat) (n : Node) :
  heap t !! this = Some n ->
  (state n <> CREATED ->
     register this t = (Throw (UnexpectedNodeState (state n)), t))
  /\ (state n = CREATED -> reachable t ->
        exists text,
          register this t
          = (Ok tt, alterNode this (with_state REGISTERED) (emit text t))
          /\ register this (alterNode this (with_state REGISTERED) (emit text t))
             = (Throw (UnexpectedNodeState REGISTERED),
                alterNode this (with_state REGISTERED) (emit text t))).
Proof.
  intros Hn. split.
  - intros Hs. unfold register, getRegisterMessage. run.
    rewrite decide_False by done. reflexivity.
  - intros Hs Hreach. pose proof (reachable_wf t Hreach) as W.
    assert (Hagain : forall text,
              register this (alterNode this (with_state REGISTERED) (emit text t))
              = (Throw (UnexpectedNodeState REGISTERED),
                 alterNode this (with_state REGISTERED) (emit text t))).
    { intros text. unfold register, getRegisterMessage. run.
      rewrite (lookup_alterNode_eq _ _ _ n) by exact Hn.
      rewrite decide_False by discriminate. reflexivity. }
    unfold register at 1, getRegisterMessage. run.
    rewrite decide_True by done. unfold getInitMessage. run.
    destruct (parent n) as [p|] eqn:Hp; run.
    + pose proof (wf_acyclic t W this n p Hn Hp) as Hlt.
      destruct (lookup_lt_is_Some_2 (heap t) p) as [pn Hpn].
      { apply lookup_lt_Some in Hn. lia. }
      rewrite Hpn. run. eexists. split; [reflexivity|apply Hagain].
    + eexists. split; [reflexivity|apply Hagain].
Qed.

Lemma register_only_from_created_witness :
  exists text,
    register 1 Samples.createdTest
    = (Ok tt, alterNode 1 (with_state REGISTERED) (emit text Samples.createdTest)).
Proof.
  assert (Hn : exists n, heap Samples.createdTest !! 1%nat = Some n
                         /\ state n = CREATED) by (eexists; split; reflexivity).
  destruct Hn as (n&Hn&Hs).
  destruct (register_only_from_created Samples.createdTest 1 n Hn) as (_&H2).
  destruct (H2 Hs ltac:(exists None, 2%nat; eexists; reflexivity)) as (text&H&_).
  exists text. exact H.
Defined.

(** ** States only advance *)

#[global] Instance advances_refl : Reflexive advances.
Proof. intros t r s H. exists s. split; [exact H|lia]. Qed.

#[global] Instance advances_trans : Transitive advances.
Proof.
  intros t1 t2 t3 H1 H2 r s Hs. destruct (H1 r s Hs) as (s'&Hs'&Hle).
  destruct (H2 r s' Hs') as (s''&Hs''&Hle'). exists s''. split; [done|lia].
Qed.

Lemma advances_emit line t : advances t (emit line t).
Proof. intros r s H. exists s. split; [exact H|lia]. Qed.

Lemma advances_alterNode r f t :
  (forall n, heap t !! r = Some n ->
     (stateRank (state n) <= stateRank (state (f n)))%nat) ->
  advances t (alterNode r f t).
Proof.
  intros Hf q s Hs. rewrite stateOf_alterNode. case_decide.
  - subst q. unfold stateOf in Hs.
    destruct (heap t !! r) as [n|] eqn:Hn; [|discriminate].
    injection Hs as <-. exists (state (f n)). split; [reflexivity|auto].
  - exists s. split; [done|lia].
Qed.

Lemma stateRank_max s : (stateRank s <= stateRank FINISHED)%nat.
Proof. destruct s; cbn; lia. Qed.

Lemma preserves_updNode_finished r :
  preserves advances (updNode r (with_state FINISHED)).
Proof. intros t. apply advances_alterNode. intros n _. apply stateRank_max. Qed.

Lemma preserves_updNode_onSuite r g : preserves advances (updNode r (onSuite g)).
Proof.
  intros t. apply advances_alterNode. intros n _. unfold onSuite.
  destruct (own n); reflexivity.
Qed.

Ltac presAdv :=
  repeat first
    [ apply (preserves_ret advances)
    | apply (preserves_throw advances)
    | apply (preserves_getTree advances)
    | apply (preserves_getNode advances)
    | apply (preserves_liftResult advances)
    | apply (preserves_writeln advances); [exact advances_emit]
    | apply preserves_updNode_finished
    | apply preserves_updNode_onSuite
    | apply (preserves_bind advances); [|intros ?]
    | case_decide
    | case_match ].

Lemma finish_advances fuel this b : preserves advances (finish fuel this b).
Proof.
  revert this b. induction fuel as [|fuel IH]; intros this b; cbn [finish].
  - presAdv.
  - presAdv. apply IH.
Qed.

Lemma finishIfStarted_advances fuel this :
  preserves advances (finishIfStarted fuel this).
Proof.
  revert this. induction fuel as [|fuel IH]; intros this; cbn [finishIfStarted].
  - presAdv.
  - presAdv;
      first [apply (preserves_forEach advances), IH | apply finish_advances].
Qed.

Lemma sameLife_advances t t' : sameLife t t' -> advances t t'.
Proof.
  intros (_&Hst&_) r s Hs. exists s. rewrite Hst. split; [done|lia].
Qed.

Lemma register_advances this : preserves advances (register this).
Proof.
  intros t. destruct (register_cases this t) as [[e ->]|(n&text&Hn&Hs&->)];
    [reflexivity|]. cbn [snd].
  transitivity (emit text t); [apply advances_emit|].
  apply advances_alterNode. cbn. intros n' Hn'. assert (n' = n) by congruence.
  subst n'. rewrite Hs. cbn. lia.
Qed.

Lemma start_advances this : preserves advances (start this).
Proof.
  intros t.
  destruct (start_cases this t) as [[e ->]|[->|(n&text&Hn&Hs&->)]];
    [reflexivity..|]. cbn [snd].
  transitivity (emit text t); [apply advances_emit|].
  apply advances_alterNode. cbn. intros n' Hn'. assert (n' = n) by congruence.
  subst n'. destruct (state n); cbn; try lia. contradiction.
Qed.

Lemma grown_advances fields this childName nodeType locPath t :
  advances t (grown fields this childName nodeType locPath t).
Proof.
  intros r s Hs. unfold stateOf in *.
  destruct (heap t !! r) as [n|] eqn:Hn; [|discriminate]. injection Hs as <-.
  destruct (grown_old fields this childName nodeType locPath t r n Hn)
    as (n'&Hn'&_&_&Hst).
  rewrite Hn'. exists (state n'). split; [reflexivity|]. rewrite Hst. lia.
Qed.

Lemma perform_advances fuel c t : advances t (perform fuel c t).2.
Proof.
  destruct quiet_calls_sameLife as (H1&H2&H3&H4&H5&H6&H7&H8).
  destruct c; cbn [perform]; rewrite ?unit_call_tree;
    try first [ apply sameLife_advances;
                first [ apply H1 | apply H2 | apply H3 | apply H4 | apply H5
                      | apply H6 | apply H7 | apply H8 ]
              | apply register_advances | apply start_advances
              | apply finish_advances | apply finishIfStarted_advances ].
  all: unfold addTestChild, addTestSuiteChild, bind, ret.
  all: match goal with
       | |- context [addChild ?fi ?th ?cn ?ty ?l ?t0] =>
           destruct (addChild_cases fi th cn ty l t0)
             as [[e He]|(n&Hn&_&_&He)]; rewrite He;
           [reflexivity|apply grown_advances]
       end.
Qed.

(** X6: the state of a node never goes back.  Whatever the calls of a
    session, the failed ones included, every node is afterwards in the same
    or in a later state (created, registered, started, finished), and a
    finished node stays finished. *)
Theorem states_only_advance (fuel : nat) (calls : list call) (t : Tree)
    (r : nat) (s : NodeState) :
  stateOf t r = Some s ->
  exists s', stateOf (session fuel calls t).2 r = Some s'
             /\ (stateRank s <= stateRank s')%nat
             /\ (s = FINISHED -> s' = FINISHED).
Proof.
  assert (H : advances t (session fuel calls t).2).
  { revert t. induction calls as [|c calls IH]; intros t; [reflexivity|].
    rewrite session_cons. cbn [snd].
    transitivity (perform fuel c t).2; [apply perform_advances|apply IH]. }
  intros Hs. destruct (H r s Hs) as (s'&Hs'&Hle). exists s'.
  split; [done|]. split; [done|]. intros ->. destruct s'; cbn in Hle; try lia.
  reflexivity.
Qed.

Lemma states_only_advance_witness :
  exists s', stateOf (session 4 [Start 2; Register 2; Finish 3 true; Start 3]
                        Samples.startedSuite).2 3 = Some s'
             /\ (stateRank STARTED <= stateRank s')%nat.
Proof.
  destruct (states_only_advance 4 [Start 2; Register 2; Finish 3 true; Start 3]
              Samples.startedSuite 3 STARTED eq_refl) as (s'&H1&H2&_).
  exists s'. split; [exact H1|exact H2].
Defined.

(** ** What [finish] rejects *)

(** X7: what [finish] rejects besides a created node.  On a node other
    than the root that has finished already it throws 'Unexpected node
    state: finished'; on a registered or started test whose outcome was
    never set it throws 'Unexpected outcome: ...', from
    [getFinishCommandName].  In both cases nothing is written and the tree
    is unchanged, whether or not the parent was to be notified. *)
Theorem finish_rejects_finished_and_undecided (fuel : nat) (t : Tree)
    (this : nat) (n : Node) (b : bool) :
  heap t !! this = Some n -> this <> root t ->
  (state n = FINISHED ->
     finish (S fuel) this b t = (Throw (UnexpectedNodeState FINISHED), t))
  /\ (forall f, own n = TestNode f -> outcome f = None ->
        state n = REGISTERED \/ state n = STARTED ->
        finish (S fuel) this b t = (Throw UnexpectedOutcome, t)).
Proof.
  intros Hn Hr. split.
  - intros Hs. rewrite <- Hs. apply finish_illegal; [done..| |]; congruence.
  - intros f Hf Ho Hs. cbn [finish]. run.
    rewrite decide_False by congruence. run.
    rewrite decide_False by (destruct Hs as [-> | ->]; intros [? ?]; congruence).
    unfold getFinishMessage, getFinishCommandName, testFinishCommandName.
    rewrite Hf, Ho. reflexivity.
Qed.

Lemma finish_rejects_finished_and_undecided_witness :
  finish 1 1 true Runs.startedTest = (Throw UnexpectedOutcome, Runs.startedTest).
Proof.
  assert (H : exists n f, heap Runs.startedTest !! 1%nat = Some n
                          /\ own n = TestNode f /\ outcome f = None
                          /\ state n = STARTED).
  { eexists; eexists; repeat split; reflexivity. }
  destruct H as (n&f&Hn&Hf&Ho&Hs).
  apply (proj2 (finish_rejects_finished_and_undecided 0 Runs.startedTest
                  1 n true Hn ltac:(vm_compute; lia)) f Hf Ho (or_intror Hs)).
Defined.

(** ** Adding children *)

(** X8: [addTestChild] and [addTestSuiteChild] on a finished suite throw
    'Child node cannot be created for finished nodes!' and change nothing:
    no id is used up and no child is pushed. *)
Theorem add_child_to_finished_suite_is_rejected (t : Tree) (this : nat)
    (n : Node) (f : SuiteFields) (childName : list N)
    (nodeType locPath : option (list N)) :
  heap t !! this = Some n -> own n = TestSuiteNode f -> state n = FINISHED ->
  addTestChild this childName nodeType locPath t = (Throw ChildOfFinished, t)
  /\ addTestSuiteChild this childName nodeType locPath t
     = (Throw ChildOfFinished, t).
Proof.
  intros Hn Hf Hs. unfold addTestChild, addTestSuiteChild, addChild. run.
  rewrite Hf. split; rewrite decide_True by done; reflexivity.
Qed.

Lemma add_child_to_finished_suite_is_rejected_witness :
  addTestChild 1 (lit "late") None None Runs.closedSuite
  = (Throw ChildOfFinished, Runs.closedSuite).
Proof.
  assert (H : exists n f, heap Runs.closedSuite !! 1%nat = Some n
                          /\ own n = TestSuiteNode f /\ state n = FINISHED).
  { eexists; eexists; repeat split; reflexivity. }
  destruct H as (n&f&Hn&Hf&Hs).
  apply (proj1 (add_child_to_finished_suite_is_rejected Runs.closedSuite 1 n f
                  (lit "late") None None Hn Hf Hs)).
Defined.

(** X9: what a successful [addTestChild] or [addTestSuiteChild] does, on a
    suite that has not finished.  It returns a new object, in the state
    created, whose id is made from [nextId], whose parent is the suite and
    whose name, type and location are the arguments; the child is pushed
    last in the [children] of the suite, whose counter and other fields
    stay; [nextId] goes up by one; no other node changes and nothing is
    written. *)
Theorem add_child_effect (suite : bool) (t : Tree) (this : nat) (n : Node)
    (f : SuiteFields) (childName : list N) (nodeType locPath : option (list N)) :
  heap t !! this = Some n -> own n = TestSuiteNode f -> state n <> FINISHED ->
  let child := length (heap t) in
  exists t',
    (if suite then addTestSuiteChild else addTestChild)
      this childName nodeType locPath t = (Ok child, t')
    /\ heap t' !! child
       = Some {| nodeId := childIdOf (idPrefix t) (nextId t);
                 parent := Some this; name := childName; type := nodeType;
                 locationPath := locPath; state := CREATED;
                 own := if suite then TestSuiteNode emptySuite
                        else TestNode emptyTest |}
    /\ (exists f', heap t' !! this = Some (with_own (TestSuiteNode f') n)
                   /\ children f' = children f ++ [child]
                   /\ finishedChildCount f' = finishedChildCount f)
    /\ (forall r, r <> this -> r <> child -> heap t' !! r = heap t !! r)
    /\ nextId t' = nextId t + 1
    /\ written t' = written t /\ root t' = root t /\ idPrefix t' = idPrefix t.
Proof.
  intros Hn Hf Hs child.
  set (fields := if suite then TestSuiteNode emptySuite else TestNode emptyTest).
  assert (Hthis : (this < length (heap t))%nat) by (eapply lookup_lt_Some; eauto).
  exists (grown fields this childName nodeType locPath t).
  split; [|split; [|split; [|split]]].
  - assert (E : (if suite then addTestSuiteChild else addTestChild)
                = addChild fields) by (destruct suite; reflexivity).
    rewrite E. unfold addChild. run. rewrite Hf, decide_False by done.
    reflexivity.
  - now apply grown_lookup_child.
  - exists (addChildNode (pushChild child f) childName child).
    rewrite (grown_lookup_this _ _ _ _ _ _ n Hn). unfold onSuite. rewrite Hf.
    repeat split.
  - intros r Hr Hc. destruct (decide (r < length (heap t))%nat) as [Hlt|Hge].
    + now apply grown_lookup_other.
    + rewrite (lookup_ge_None_2 (heap t)) by lia.
      apply lookup_ge_None_2. rewrite grown_length. subst child. lia.
  - repeat split.
Qed.

Lemma add_child_effect_witness :
  exists t', addTestSuiteChild 1 (lit "inner") None None Samples.startedSuite
             = (Ok 4%nat, t')
             /\ nextId t' = 5.
Proof.
  assert (H : exists n f, heap Samples.startedSuite !! 1%nat = Some n
                          /\ own n = TestSuiteNode f /\ state n <> FINISHED).
  { eexists; eexists; split; [reflexivity|split; [reflexivity|discriminate]]. }
  destruct H as (n&f&Hn&Hf&Hs).
  destruct (add_child_effect true Samples.startedSuite 1 n f (lit "inner")
              None None Hn Hf Hs) as (t'&H1&_&_&_&H2&_).
  exists t'. split; [exact H1|exact H2].
Defined.

(** ** The counter of finished children *)

Lemma filter_length_all {A} (P : A -> Prop) `{!forall x, Decision (P x)} l :
  length (filter P l) = length l -> Forall P l.
Proof.
  induction l as [|x l IH]; [constructor|].
  rewrite filter_cons. case_decide; cbn; intros Hlen.
  - constructor; [done|]. apply IH. lia.
  - assert (length (filter P l) <= length l)%nat by apply length_filter. lia.
Qed.

(** X10: the counter of finished children is sound.  In every tree a
    caller can build, the [finishedChildCount] of a suite is at most the
    number of its children, and when it has reached that number (the
    condition under which [onChildFinished] finishes the suite) every child
    of the suite has indeed finished. *)
Theorem finished_counter_is_sound (t : Tree) (s : nat) (sn : Node)
    (f : SuiteFields) :
  reachable t -> heap t !! s = Some sn -> own sn = TestSuiteNode f ->
  (N.to_nat (finishedChildCount f) <= length (children f))%nat
  /\ (N.to_nat (finishedChildCount f) = length (children f) ->
      forall c, c ∈ children f -> stateOf t c = Some FINISHED).
Proof.
  intros Hreach Hs Hf.
  pose proof (reachable_counts t Hreach s sn f Hs Hf) as Hc.
  unfold finishedAmong in Hc.
  assert (Hle : (length (filter (fun c => stateOf t c = Some FINISHED)
                            (children f)) <= length (children f))%nat)
    by apply length_filter.
  split; [lia|]. intros He c Hin.
  assert (Hall : Forall (fun c => stateOf t c = Some FINISHED) (children f))
    by (apply (filter_length_all (fun c => stateOf t c = Some FINISHED)
                 (children f)); lia).
  rewrite Forall_forall in Hall. now apply Hall.
Qed.

Lemma finished_counter_is_sound_witness :
  stateOf Runs.allDone 3 = Some FINISHED.
Proof.
  assert (H : exists sn f, heap Runs.allDone !! 1%nat = Some sn
                           /\ own sn = TestSuiteNode f
                           /\ children f = [2; 3]%nat
                           /\ finishedChildCount f = 2).
  { eexists; eexists; repeat split; reflexivity. }
  destruct H as (sn&f&Hs&Hf&Hc&Hk).
  assert (Hreach : reachable Runs.allDone).
  { exists None, 4%nat,
      (Samples.startedSuiteCalls ++ [Finish 2 true; Finish 3 true]).
    reflexivity. }
  apply (proj2 (finished_counter_is_sound Runs.allDone 1 sn f Hreach Hs Hf)).
  - rewrite Hc, Hk. reflexivity.
  - rewrite Hc. right. left.
Defined.

(** ** The shape of the trees a caller can build *)

(** X11: the shape of the trees a caller can build.  The root is the only
    node without parent; the parent of any other node is a suite created
    before it, whose [children] hold the node, and hold no node twice;
    every child listed by a suite points back to it; and no two nodes have
    ids that print alike. *)
Theorem reachable_tree_structure (t : Tree) (r : nat) (n : Node) :
  reachable t -> heap t !! r = Some n ->
  (r = root t <-> parent n = None)
  /\ (forall p, parent n = Some p ->
        (p < r)%nat
        /\ exists pn f, heap t !! p = Some pn /\ own pn = TestSuiteNode f
                        /\ r ∈ children f /\ NoDup (children f))
  /\ (forall f c, own n = TestSuiteNode f -> c ∈ children f ->
        exists cn, heap t !! c = Some cn /\ parent cn = Some r)
  /\ (forall q m, heap t !! q = Some m ->
        idText (nodeId m) = idText (nodeId n) -> q = r).
Proof.
  intros Hreach Hn. pose proof (reachable_wf t Hreach) as W.
  split; [|split; [|split]].
  - rewrite (wf_root t W). split.
    + intros ->. destruct (wf_hidden t W) as (n0&H0&_&Hp). congruence.
    + intros Hp. destruct (decide (r = 0%nat)) as [|Hne]; [done|].
      destruct (wf_parent t W r n Hn Hne) as (p&Hp'&_). congruence.
  - intros p Hp. split; [exact (wf_acyclic t W r n p Hn Hp)|].
    destruct (wf_listed t W r n p Hn Hp) as (pn&cs&Hpn&Hcs&Hin).
    unfold childrenOf in Hcs. destruct (own pn) as [f|] eqn:Hf; [|discriminate].
    injection Hcs as <-. exists pn, f. split; [done|]. split; [done|].
    split; [done|].
    apply (wf_children t W p pn (children f) Hpn).
    unfold childrenOf. now rewrite Hf.
  - intros f c Hf Hin.
    apply (wf_children t W r n (children f) Hn); [|done].
    unfold childrenOf. now rewrite Hf.
  - intros q m Hm He. exact (wf_idText_inj t q r m n W Hm Hn He).
Qed.

Lemma reachable_tree_structure_witness :
  exists pn f, heap Samples.startedSuite !! 1%nat = Some pn
               /\ own pn = TestSuiteNode f
               /\ 2%nat ∈ children f /\ NoDup (children f).
Proof.
  assert (H : exists n, heap Samples.startedSuite !! 2%nat = Some n
                        /\ parent n = Some 1%nat)
    by (eexists; split; reflexivity).
  destruct H as (n&Hn&Hp).
  destruct (reachable_tree_structure Samples.startedSuite 2 n
              ltac:(exists None, 4%nat, Samples.startedSuiteCalls; reflexivity)
              Hn) as (_&H&_).
  exact (proj2 (H 1%nat Hp)).
Defined.

(** ** The index of children by name *)

#[global] Instance sameIndex_refl : Reflexive sameIndex.
Proof. intros t. reflexivity. Qed.

#[global] Instance sameIndex_trans : Transitive sameIndex.
Proof. intros t1 t2 t3 H1 H2. unfold sameIndex in *. congruence. Qed.

Lemma indexView_erase n : indexView (erase n) = indexView n.
Proof. destruct n as [? ? ? ? ? ? [f|f]]; reflexivity. Qed.

Lemma sameNodes_sameIndex t t' : sameNodes t t' -> sameIndex t t'.
Proof.
  intros (_&_&_&H). unfold sameIndex.
  rewrite <- (list_fmap_ext (indexView ∘ erase) indexView (heap t'))
    by (intros; apply indexView_erase).
  rewrite <- (list_fmap_ext (indexView ∘ erase) indexView (heap t))
    by (intros; apply indexView_erase).
  rewrite !list_fmap_compose. now rewrite H.
Qed.

Lemma sameIndex_emit line t : sameIndex t (emit line t).
Proof. reflexivity. Qed.

Lemma preserves_updNode_sameIndex r g :
  preserves sameIndex (updNode r (onTest g)).
Proof.
  intros t. unfold sameIndex. cbn. apply fmap_alter_same.
  intros n _. unfold onTest. destruct n as [? ? ? ? ? ? [f|f]]; reflexivity.
Qed.

Ltac presIdx :=
  repeat first
    [ apply (preserves_ret sameIndex)
    | apply (preserves_throw sameIndex)
    | apply (preserves_getTree sameIndex)
    | apply (preserves_getNode sameIndex)
    | apply (preserves_liftResult sameIndex)
    | apply (preserves_writeln sameIndex); [exact sameIndex_emit]
    | apply preserves_updNode_sameIndex
    | apply (preserves_bind sameIndex); [|intros ?]
    | case_decide
    | case_match ].

Lemma setOutcome_sameIndex this o d m1 m2 e a ef af :
  preserves sameIndex (setOutcome this o d m1 m2 e a ef af).
Proof. unfold setOutcome. presIdx. Qed.

Lemma setMetainfo_sameIndex this m : preserves sameIndex (setMetainfo this m).
Proof. unfold setMetainfo. presIdx. Qed.

Lemma sameIndex_lookup t t' r :
  sameIndex t t' -> indexView <$> heap t' !! r = indexView <$> heap t !! r.
Proof.
  intros H. rewrite <- !list_lookup_fmap. unfold sameIndex in H. now rewrite H.
Qed.

Lemma sameIndex_name t t' r :
  sameIndex t t' -> name <$> heap t' !! r = name <$> heap t !! r.
Proof.
  intros H. pose proof (sameIndex_lookup t t' r H) as E.
  destruct (heap t' !! r) as [n'|], (heap t !! r) as [n|];
    try discriminate; [|done].
  change (Some (indexView n') = Some (indexView n)) in E.
  assert (E' : indexView n' = indexView n) by congruence.
  unfold indexView in E'. cbn. congruence.
Qed.

Lemma named_ext t t' childName cs :
  (forall c, c ∈ cs -> name <$> heap t' !! c = name <$> heap t !! c) ->
  named t' childName cs = named t childName cs.
Proof.
  intros H. unfold named. induction cs as [|c cs IH]; [reflexivity|].
  rewrite !filter_cons, (H c) by left.
  rewrite IH by (intros d Hd; apply H; now right). reflexivity.
Qed.

Lemma named_app t q a b : named t q (a ++ b) = named t q a ++ named t q b.
Proof. unfold named. apply filter_app. Qed.

Lemma indexed_sameIndex t t' : sameIndex t t' -> indexed t -> indexed t'.
Proof.
  intros HS HI s sn' f' childName Hs Hf.
  pose proof (sameIndex_lookup t t' s HS) as E. rewrite Hs in E.
  destruct (heap t !! s) as [sn|] eqn:Hsn; [|discriminate].
  change (Some (indexView sn') = Some (indexView sn)) in E.
  assert (E' : indexView sn' = indexView sn) by congruence. clear E.
  unfold indexView in E'. rewrite Hf in E'.
  destruct (own sn) as [f|] eqn:Hown; [|discriminate].
  injection E' as _ Hc Hl. rewrite Hc, Hl.
  rewrite (HI s sn f childName Hsn Hown).
  f_equal. symmetry. apply named_ext. intros c _. now apply sameIndex_name.
Qed.

Lemma indexed_newTree idPrefix : indexed (newTree idPrefix).
Proof.
  intros [|s] sn f childName Hs Hf; [|destruct s; discriminate].
  injection Hs as <-. injection Hf as <-. reflexivity.
Qed.

Section GrownIndex.
Context (fields : NodeClass) (this : nat) (childName : list N)
        (nodeType locPath : option (list N)) (t : Tree).
Let t' := grown fields this childName nodeType locPath t.
Let child := length (heap t).

Lemma grown_name r :
  (r < length (heap t))%nat -> name <$> heap t' !! r = name <$> heap t !! r.
Proof.
  intros Hlt. destruct (decide (r = this)) as [->|Hne].
  - destruct (lookup_lt_is_Some_2 (heap t) this Hlt) as [n Hn].
    unfold t'. rewrite (grown_lookup_this _ _ _ _ _ _ n Hn), Hn. cbn.
    unfold onSuite. destruct (own n); reflexivity.
  - unfold t'. now rewrite grown_lookup_other.
Qed.

Lemma grown_named q cs :
  Forall (fun c => (c < length (heap t))%nat) cs ->
  named t' q cs = named t q cs.
Proof.
  intros H. apply named_ext. intros c Hc. apply grown_name.
  rewrite Forall_forall in H. now apply H.
Qed.

Lemma grown_named_child q :
  (this < length (heap t))%nat ->
  named t' q [child] = if decide (q = childName) then [child] else [].
Proof.
  intros Hthis. unfold named. rewrite filter_cons, filter_nil.
  unfold t', child. rewrite grown_lookup_child by done. cbn.
  destruct (decide (q = childName)) as [->|Hne].
  - now rewrite decide_True.
  - rewrite decide_False; [done|]. congruence.
Qed.

Lemma wf_children_old s sn f :
  wf t -> heap t !! s = Some sn -> own sn = TestSuiteNode f ->
  Forall (fun c => (c < length (heap t))%nat) (children f).
Proof.
  intros W Hs Hf. apply Forall_forall. intros c Hc.
  destruct (wf_children t W s sn (children f) Hs) as (_&Hch).
  { unfold childrenOf. now rewrite Hf. }
  destruct (Hch c Hc) as (cn&Hcn&_). eapply lookup_lt_Some; eauto.
Qed.

Lemma entryOf_push l :
  entryOf (l ++ [child])
  = Some match entryOf l with
         | Some (Several sameName) => Several (sameName ++ [child])
         | Some (Single first) => Several [first; child]
         | None => Single child
         end.
Proof. destruct l as [|x [|y l]]; reflexivity. Qed.

Lemma indexed_grown n :
  fields = TestNode emptyTest \/ fields = TestSuiteNode emptySuite ->
  heap t !! this = Some n -> wf t -> indexed t -> indexed t'.
Proof.
  intros Hfields Hn W HI s sn' f' q Hs Hf.
  assert (Hthis : (this < length (heap t))%nat) by (eapply lookup_lt_Some; eauto).
  destruct (grown_inv fields this childName nodeType locPath t s sn' Hthis Hs)
    as [(->&_&_&Hown)|(m&Hm&_&_&[(->&->)|(Hne&->)])].
  - rewrite Hown in Hf. destruct Hfields as [-> | ->]; [discriminate|].
    injection Hf as <-. reflexivity.
  - assert (m = n) by congruence. subst m.
    unfold onSuite in Hf. destruct (own n) as [f|] eqn:Hown.
    2:{ rewrite Hown in Hf. discriminate. }
    injection Hf as <-.
    cbn [addChildNode pushChild children lookupMap getChildrenByName].
    unfold getChildrenByName. cbn [lookupMap].
    rewrite named_app. fold child.
    rewrite grown_named by (eapply wf_children_old; eauto).
    rewrite (grown_named_child q Hthis).
    destruct (decide (q = childName)) as [->|Hq].
    + rewrite lookup_insert_eq, entryOf_push.
      now rewrite <- (HI this n f childName Hn Hown).
    + rewrite lookup_insert_ne by congruence. rewrite app_nil_r.
      apply (HI this n f q Hn Hown).
  - rewrite grown_named by (eapply wf_children_old; eauto).
    apply (HI s m f' q Hm Hf).
Qed.
End GrownIndex.

Lemma perform_indexed fuel c t :
  wf t -> indexed t -> indexed (perform fuel c t).2.
Proof.
  intros W HI.
  destruct treeCalls_sameNodes as (H1&H2&H3&H4&H5).
  destruct c; cbn [perform]; rewrite ?unit_call_tree;
    try (apply (indexed_sameIndex t); [|exact HI];
         first [ apply sameNodes_sameIndex;
                 first [ apply H1 | apply H2 | apply H3 | apply H4 | apply H5
                       | apply register_sameNodes | apply start_sameNodes
                       | apply finish_sameNodes | apply finishIfStarted_sameNodes
                       | apply addStdErr_sameNodes ]
               | apply setOutcome_sameIndex | apply setMetainfo_sameIndex ]).
  all: unfold addTestChild, addTestSuiteChild, bind, ret.
  all: match goal with
       | |- context [addChild ?fi ?th ?cn ?ty ?l ?t0] =>
           destruct (addChild_cases fi th cn ty l t0)
             as [[e He]|(n&Hn&_&_&He)]; rewrite He;
           [exact HI|eapply indexed_grown; eauto]
       end.
Qed.

Lemma session_indexed fuel calls t :
  wf t -> indexed t -> indexed (session fuel calls t).2.
Proof.
  revert t. induction calls as [|c calls IH]; intros t W HI; [exact HI|].
  rewrite session_cons. cbn [snd].
  apply IH; [now apply perform_wf|now apply perform_indexed].
Qed.

Lemma reachable_indexed t : reachable t -> indexed t.
Proof.
  intros (p&fuel&calls&->).
  apply session_indexed; [apply wf_newTree|apply indexed_newTree].
Qed.

Lemma find_indexed t this n f childName :
  indexed t -> heap t !! this = Some n -> own n = TestSuiteNode f ->
  findChildNodeByName this childName t
  = (Ok match List.find (isSuite (heap t)) (named t childName (children f)) with
        | Some suite => Some suite
        | None => head (named t childName (children f))
        end, t).
Proof.
  intros HI Hn Hf. unfold findChildNodeByName, getChildrenByName. run.
  rewrite Hf, (HI this n f childName Hn Hf).
  destruct (named t childName (children f)) as [|x [|y l]]; cbn [entryOf].
  - reflexivity.
  - cbn. destruct (isSuite (heap t) x); reflexivity.
  - run. destruct (List.find (isSuite (heap t)) (x :: y :: l)); reflexivity.
Qed.

(** X12: [findChildNodeByName] in a tree a caller can build: of the
    children of the suite that have the name, in the order they were
    added, it returns the first that is a suite, or else the first, or else
    null; the tree is unchanged.  (For every name other than "__proto__",
    which JavaScript does not store as an own property of [lookupMap].) *)
Theorem findChildNodeByName_finds_first (t : Tree) (this : nat) (n : Node)
    (f : SuiteFields) (childName : list N) :
  reachable t -> heap t !! this = Some n -> own n = TestSuiteNode f ->
  childName <> lit "__proto__" ->
  findChildNodeByName this childName t
  = (Ok match List.find (isSuite (heap t)) (named t childName (children f)) with
        | Some suite => Some suite
        | None => head (named t childName (children f))
        end, t).
Proof.
  intros Hreach Hn Hf _.
  apply (find_indexed t this n f childName); [|done..].
  now apply reachable_indexed.
Qed.

Lemma findChildNodeByName_finds_first_witness :
  findChildNodeByName 1 (lit "b") Samples.startedSuite
  = (Ok (Some 3%nat), Samples.startedSuite).
Proof.
  assert (H : exists n f, heap Samples.startedSuite !! 1%nat = Some n
                          /\ own n = TestSuiteNode f
                          /\ children f = [2; 3]%nat)
    by (eexists; eexists; repeat split; reflexivity).
  destruct H as (n&f&Hn&Hf&Hc).
  rewrite (findChildNodeByName_finds_first Samples.startedSuite 1 n f (lit "b")
             ltac:(exists None, 4%nat, Samples.startedSuiteCalls; reflexivity)
             Hn Hf ltac:(discriminate)).
  rewrite Hc. reflexivity.
Defined.

Lemma grown_isSuite fields this childName nodeType locPath t r :
  (r < length (heap t))%nat ->
  isSuite (heap (grown fields this childName nodeType locPath t)) r
  = isSuite (heap t) r.
Proof.
  intros Hlt. unfold isSuite. destruct (decide (r = this)) as [->|Hne].
  - destruct (lookup_lt_is_Some_2 (heap t) this Hlt) as [n Hn].
    rewrite (grown_lookup_this _ _ _ _ _ _ n Hn), Hn.
    unfold onSuite. destruct n as [? ? ? ? ? ? [f|f]]; reflexivity.
  - now rewrite grown_lookup_other.
Qed.

Lemma find_snoc {A} (p : A -> bool) l c :
  List.find p (l ++ [c])
  = match List.find p l with
    | Some x => Some x
    | None => if p c then Some c else None
    end.
Proof.
  induction l as [|x l IH]; cbn; [reflexivity|]. destruct (p x); [reflexivity|].
  exact IH.
Qed.

Lemma find_ext_in {A} (p q : A -> bool) l :
  (forall x, x ∈ l -> p x = q x) -> List.find p l = List.find q l.
Proof.
  induction l as [|x l IH]; intros H; cbn; [reflexivity|].
  rewrite (H x) by left. destruct (q x); [reflexivity|].
  apply IH. intros y Hy. apply H. now right.
Qed.

Lemma named_sub t q cs c : c ∈ named t q cs -> c ∈ cs.
Proof. unfold named. intros H. now apply list_elem_of_filter in H as [_ ?]. Qed.

(** X13: adding a child and then looking its name up.  After a successful
    [addTestChild] or [addTestSuiteChild] with a name,
    [findChildNodeByName] of that name returns the first older child of
    that name that is a suite, if there is one; or else the new child if it
    is a suite; or else the first child of that name, which is the new
    child when the name is new.  Looking up any other name gives what it
    gave before.  (Names other than "__proto__", as for X12.) *)
Theorem find_after_add (suite : bool) (t : Tree) (this : nat) (n : Node)
    (f : SuiteFields) (childName : list N) (nodeType locPath : option (list N)) :
  reachable t -> heap t !! this = Some n -> own n = TestSuiteNode f ->
  state n <> FINISHED -> childName <> lit "__proto__" ->
  let child := length (heap t) in
  let older := named t childName (children f) in
  exists t',
    (if suite then addTestSuiteChild else addTestChild)
      this childName nodeType locPath t = (Ok child, t')
    /\ findChildNodeByName this childName t'
       = (Ok (Some match List.find (isSuite (heap t)) older with
                   | Some first => first
                   | None => if suite then child else hd child older
                   end), t')
    /\ (forall other, other <> childName -> other <> lit "__proto__" ->
          (findChildNodeByName this other t').1
          = (findChildNodeByName this other t).1).
Proof.
  intros Hreach Hn Hf Hs _ child older.
  pose proof (reachable_wf t Hreach) as W.
  pose proof (reachable_indexed t Hreach) as HI.
  set (fields := if suite then TestSuiteNode emptySuite else TestNode emptyTest).
  assert (Hfields : fields = TestNode emptyTest \/ fields = TestSuiteNode emptySuite)
    by (destruct suite; auto).
  assert (Hthis : (this < length (heap t))%nat) by (eapply lookup_lt_Some; eauto).
  set (t' := grown fields this childName nodeType locPath t).
  assert (HI' : indexed t') by (eapply indexed_grown; eauto).
  pose proof (grown_lookup_this fields this childName nodeType locPath t n Hn)
    as Hn'. fold t' in Hn'.
  set (f' := addChildNode (pushChild child f) childName child).
  assert (Hf' : own (onSuite (fun f => addChildNode (pushChild child f)
                                          childName child) n)
                = TestSuiteNode f')
    by (unfold onSuite; rewrite Hf; reflexivity).
  assert (Hold : Forall (fun c => (c < length (heap t))%nat) (children f))
    by (eapply wf_children_old; eauto).
  exists t'. split; [|split].
  - assert (E : (if suite then addTestSuiteChild else addTestChild)
                = addChild fields) by (destruct suite; reflexivity).
    rewrite E. unfold addChild. run. rewrite Hf, decide_False by done.
    reflexivity.
  - rewrite (find_indexed t' this _ f' childName HI' Hn' Hf').
    do 2 f_equal.
    change (children f') with (children f ++ [child]).
    rewrite named_app.
    change (named t' childName (children f))
      with (named (grown fields this childName nodeType locPath t) childName
              (children f)).
    rewrite (grown_named fields this childName nodeType locPath t childName
               (children f) Hold). fold older.
    change (named t' childName [child])
      with (named (grown fields this childName nodeType locPath t) childName
              [length (heap t)]).
    rewrite (grown_named_child fields this childName nodeType locPath t
               childName Hthis).
    rewrite decide_True by done. rewrite find_snoc.
    rewrite (find_ext_in (isSuite (heap t')) (isSuite (heap t)) older).
    2:{ intros c Hc. apply grown_isSuite. rewrite Forall_forall in Hold.
        apply Hold. eapply named_sub; eauto. }
    destruct (List.find (isSuite (heap t)) older) as [first|]; [reflexivity|].
    assert (Hk : isSuite (heap t') child = suite).
    { unfold isSuite, t', child. rewrite grown_lookup_child by done.
      unfold fields. destruct suite; reflexivity. }
    fold child. rewrite Hk. destruct suite; [reflexivity|].
    destruct older; reflexivity.
  - intros other Hne _.
    rewrite (find_indexed t' this _ f' other HI' Hn' Hf').
    rewrite (find_indexed t this n f other HI Hn Hf). cbn [fst]. f_equal.
    change (children f') with (children f ++ [child]).
    rewrite named_app.
    change (named t' other (children f))
      with (named (grown fields this childName nodeType locPath t) other
              (children f)).
    rewrite (grown_named fields this childName nodeType locPath t other
               (children f) Hold).
    change (named t' other [child])
      with (named (grown fields this childName nodeType locPath t) other
              [length (heap t)]).
    rewrite (grown_named_child fields this childName nodeType locPath t
               other Hthis).
    rewrite decide_False by done. rewrite app_nil_r.
    rewrite (find_ext_in (isSuite (heap t')) (isSuite (heap t))
               (named t other (children f))); [reflexivity|].
    intros c Hc. apply grown_isSuite. rewrite Forall_forall in Hold.
    apply Hold. eapply named_sub; eauto.
Qed.

Lemma find_after_add_witness :
  exists t', addTestChild 1 (lit "c") None None Samples.startedSuite
             = (Ok 4%nat, t')
             /\ findChildNodeByName 1 (lit "c") t' = (Ok (Some 4%nat), t').
Proof.
  assert (H : exists n f, heap Samples.startedSuite !! 1%nat = Some n
                          /\ own n = TestSuiteNode f
                          /\ children f = [2; 3]%nat /\ state n = STARTED)
    by (eexists; eexists; repeat split; reflexivity).
  destruct H as (n&f&Hn&Hf&Hc&Hs).
  destruct (find_after_add false Samples.startedSuite 1 n f (lit "c") None None
              ltac:(exists None, 4%nat, Samples.startedSuiteCalls; reflexivity)
              Hn Hf ltac:(rewrite Hs; discriminate) ltac:(discriminate))
    as (t'&H1&H2&_).
  exists t'. split; [exact H1|]. rewrite H2, Hc. reflexivity.
Defined.

(** ** What is written *)

#[global] Instance appends_refl : Reflexive appends.
Proof. intros t. exists []. split; [now rewrite app_nil_r|constructor]. Qed.

#[global] Instance appends_trans : Transitive appends.
Proof.
  intros t1 t2 t3 (e1&H1&F1) (e2&H2&F2). exists (e1 ++ e2). split.
  - rewrite H2, H1. now rewrite app_assoc.
  - now apply Forall_app.
Qed.

(** Texts that end with the closing bracket. *)
Lemma closes_app (a x : list N) :
  (exists b, x = b ++ lit "]") -> exists b, a ++ x = b ++ lit "]".
Proof. intros [b ->]. exists (a ++ b). now rewrite app_assoc. Qed.

Ltac closes :=
  repeat first
    [ match goal with
      | |- exists b, lit ?s = b ++ lit "]" =>
          exists (removelast (lit s)); reflexivity
      end
    | match goal with
      | |- exists b, ?a ++ ?x = b ++ lit "]" => apply (closes_app a x)
      end ].

Lemma isMessage_closes (x : list N) :
  (exists b, x = b ++ lit "]") -> isMessage ((lit "##teamcity[" ++ x) ++ [10]).
Proof.
  intros [b ->]. exists b. now rewrite <- !app_assoc.
Qed.

Lemma appends_emit text t : isMessage (text ++ [10]) -> appends t (emit text t).
Proof. intros H. exists [text ++ [10]]. split; [reflexivity|]. now constructor. Qed.

Lemma appends_alterNode r f t : appends t (alterNode r f t).
Proof. exists []. split; [cbn; now rewrite app_nil_r|constructor]. Qed.

Lemma preserves_updNode_appends r f : preserves appends (updNode r f).
Proof. intros t. apply appends_alterNode. Qed.

Lemma preserves_writeln_appends text :
  isMessage (text ++ [10]) -> preserves appends (writeln text).
Proof. intros H t. now apply appends_emit. Qed.

(** A bind whose first part returns only values with the property [P]. *)
Lemma preserves_bind_post {A B} (R : Tree -> Tree -> Prop) `{!Transitive R}
    (P : A -> Prop) (m : M A) (k : A -> M B) :
  (forall t a t', m t = (Ok a, t') -> P a) ->
  preserves R m -> (forall a, P a -> preserves R (k a)) ->
  preserves R (bind m k).
Proof.
  intros HP Hm Hk t. unfold bind. specialize (Hm t).
  destruct (m t) as [[a|e] t1] eqn:E; [|exact Hm].
  cbn [snd] in Hm. transitivity t1; [exact Hm|].
  apply Hk. eapply HP; eauto.
Qed.

Lemma Ok_inj {A} (a b : A) : @Ok A a = Ok b -> a = b.
Proof. congruence. Qed.

Lemma Ok_pair_inj {A} (a b : A) (t t' : Tree) : (@Ok A a, t) = (Ok b, t') -> a = b.
Proof. congruence. Qed.

Lemma getFinishMessage_isMessage n text :
  getFinishMessage n = Ok text -> isMessage (text ++ [10]).
Proof.
  unfold getFinishMessage. destruct (getFinishCommandName n); [|discriminate].
  intros Hok. apply Ok_inj in Hok. subst text. apply isMessage_closes. closes.
Qed.

Lemma getInitMessage_isMessage this b t text t' :
  getInitMessage this b t = (Ok text, t') -> isMessage (text ++ [10]).
Proof.
  unfold getInitMessage. run.
  destruct (heap t !! this) as [n|]; [|discriminate].
  destruct (parent n) as [p|]; run.
  - destruct (heap t !! p) as [pn|]; [|discriminate].
    intros Hok. apply Ok_pair_inj in Hok. subst text. apply isMessage_closes. closes.
  - intros Hok. apply Ok_pair_inj in Hok. subst text. apply isMessage_closes. closes.
Qed.

Lemma getInitMessage_appends this b : preserves appends (getInitMessage this b).
Proof.
  intros t. unfold getInitMessage. run.
  destruct (heap t !! this) as [n|]; [|reflexivity].
  destruct (parent n) as [p|]; run; [|reflexivity].
  destruct (heap t !! p); reflexivity.
Qed.

Lemma register_appends this : preserves appends (register this).
Proof.
  unfold register.
  apply (preserves_bind_post appends (fun text => isMessage (text ++ [10]))).
  - intros t text t'. unfold getRegisterMessage. run.
    destruct (heap t !! this) as [n|]; [|discriminate].
    case_decide; [|discriminate]. apply getInitMessage_isMessage.
  - unfold getRegisterMessage.
    apply (preserves_bind appends); [apply (preserves_getNode appends)|].
    intros n. case_decide;
      [apply getInitMessage_appends|apply (preserves_throw appends)].
  - intros text Htext. apply (preserves_bind appends).
    + now apply preserves_writeln_appends.
    + intros _. apply preserves_updNode_appends.
Qed.

Lemma start_appends this : preserves appends (start this).
Proof.
  unfold start.
  apply (preserves_bind appends); [apply (preserves_getNode appends)|].
  intros n0. case_decide; [apply (preserves_throw appends)|].
  case_decide; [apply (preserves_ret appends)|].
  apply (preserves_bind_post appends (fun text => isMessage (text ++ [10]))).
  - intros t text t'. unfold getStartMessage. run.
    destruct (heap t !! this) as [n|]; [|discriminate].
    case_decide; [apply getInitMessage_isMessage|].
    case_decide; [|discriminate].
    intros Hok. apply Ok_pair_inj in Hok. subst text. apply isMessage_closes. closes.
  - unfold getStartMessage.
    apply (preserves_bind appends); [apply (preserves_getNode appends)|].
    intros n. case_decide; [apply getInitMessage_appends|].
    case_decide; [apply (preserves_ret appends)|apply (preserves_throw appends)].
  - intros text Htext. apply (preserves_bind appends).
    + now apply preserves_writeln_appends.
    + intros _. apply preserves_updNode_appends.
Qed.

Ltac presApp :=
  repeat first
    [ apply (preserves_ret appends)
    | apply (preserves_throw appends)
    | apply (preserves_getTree appends)
    | apply (preserves_getNode appends)
    | apply preserves_updNode_appends
    | apply (preserves_bind_post appends (fun text => isMessage (text ++ [10]))
               (liftResult (getFinishMessage _)));
        [ intros ? ? ? [= ? ?]; eapply getFinishMessage_isMessage; eassumption
        | apply (preserves_liftResult appends)
        | intros ? ? ]
    | apply preserves_writeln_appends; [assumption]
    | apply (preserves_bind appends); [|intros ?]
    | case_decide
    | case_match ].

Lemma finish_appends fuel this b : preserves appends (finish fuel this b).
Proof.
  revert this b. induction fuel as [|fuel IH]; intros this b; cbn [finish].
  - presApp.
  - presApp. apply IH.
Qed.

Lemma finishIfStarted_appends fuel this :
  preserves appends (finishIfStarted fuel this).
Proof.
  revert this. induction fuel as [|fuel IH]; intros this; cbn [finishIfStarted].
  - presApp.
  - presApp;
      first [apply (preserves_forEach appends), IH | apply finish_appends].
Qed.

Lemma tree_calls_append :
  preserves appends startNotify
  /\ (forall n c l, preserves appends (updateRootNode n c l))
  /\ (forall n, preserves appends (addTotalTestCount n))
  /\ preserves appends testingStarted
  /\ preserves appends testingFinished
  /\ (forall this e, preserves appends (addStdErr this e)).
Proof.
  split; [|split; [|split; [|split; [|split]]]].
  - apply preserves_writeln_appends. now exists (lit "enteredTheMatrix").
  - intros n c l. apply preserves_writeln_appends.
    unfold MESSAGE_PREFIX. apply isMessage_closes. closes.
  - intros [n|]; cbn [addTotalTestCount]; [|apply (preserves_ret appends)].
    case_decide; [|apply (preserves_ret appends)].
    apply preserves_writeln_appends.
    change (lit "##teamcity[testCount count='")
      with (lit "##teamcity[" ++ lit "testCount count='").
    rewrite <- (app_assoc (lit "##teamcity[")). apply isMessage_closes. closes.
  - apply preserves_writeln_appends. now exists (lit "testingStarted").
  - apply preserves_writeln_appends. now exists (lit "testingFinished").
  - intros this e. unfold addStdErr.
    apply (preserves_bind appends); [apply (preserves_getNode appends)|].
    intros n. destruct (own n); [apply (preserves_throw appends)|].
    destruct e as [text|]; [|apply (preserves_ret appends)].
    apply preserves_writeln_appends.
    change (lit "##teamcity[testStdErr nodeId='")
      with (lit "##teamcity[" ++ lit "testStdErr nodeId='").
    rewrite <- (app_assoc (lit "##teamcity[")). apply isMessage_closes. closes.
Qed.

Lemma sameWritten_appends t t' : written t' = written t -> appends t t'.
Proof. intros H. exists []. split; [now rewrite app_nil_r|constructor]. Qed.

Lemma perform_appends fuel c t : appends t (perform fuel c t).2.
Proof.
  destruct tree_calls_append as (H1&H2&H3&H4&H5&H6).
  destruct c; cbn [perform]; rewrite ?unit_call_tree;
    try first [ apply H1 | apply H2 | apply H3 | apply H4 | apply H5 | apply H6
              | apply register_appends | apply start_appends
              | apply finish_appends | apply finishIfStarted_appends ].
  1,2: unfold addTestChild, addTestSuiteChild, bind, ret;
       match goal with
       | |- context [addChild ?fi ?th ?cn ?ty ?l ?t0] =>
           destruct (addChild_cases fi th cn ty l t0)
             as [[e He]|(n&Hn&_&_&He)]; rewrite He;
           [reflexivity|now apply sameWritten_appends]
       end.
  - apply sameWritten_appends. unfold setOutcome. run.
    match goal with
    | |- context [heap t !! ?r] => destruct (heap t !! r) as [n|]
    end; [|reflexivity].
    destruct (own n); [reflexivity|]. case_decide; reflexivity.
  - apply sameWritten_appends. unfold setMetainfo. run.
    match goal with
    | |- context [heap t !! ?r] => destruct (heap t !! r) as [n|]
    end; [|reflexivity].
    destruct (own n); reflexivity.
Qed.

(** X14: the output only grows, by whole messages.  Whatever the calls of
    a session, the failed ones included, what was written stays, and every
    chunk written after it starts with ##teamcity[ and ends with ] and a
    line feed; so everything written since the tree was made is such
    chunks. *)
Theorem calls_only_append_messages (fuel : nat) (calls : list call) :
  (forall t, exists extra,
      written (session fuel calls t).2 = written t ++ extra
      /\ Forall isMessage extra)
  /\ (forall idPrefix,
        Forall isMessage (written (session fuel calls (newTree idPrefix)).2)).
Proof.
  assert (H : forall t, appends t (session fuel calls t).2).
  { induction calls as [|c calls IH]; intros t; [reflexivity|].
    rewrite session_cons. cbn [snd].
    transitivity (perform fuel c t).2; [apply perform_appends|apply IH]. }
  split; [exact H|]. intros p. destruct (H (newTree p)) as (extra&He&HF).
  rewrite He. exact HF.
Qed.

(** ** [finishIfStarted] *)

Lemma finishIfStarted_finished fuel t this :
  stateOf t this = Some FINISHED ->
  finishIfStarted (S fuel) this t = (Ok tt, t).
Proof.
  unfold stateOf. intros H.
  destruct (heap t !! this) as [n|] eqn:Hn; [|discriminate].
  injection H as Hs. cbn [finishIfStarted]. run.
  rewrite decide_False by (intros Hne; now apply Hne). reflexivity.
Qed.

Lemma forEach_finished fuel t cs :
  (forall c, c ∈ cs -> stateOf t c = Some FINISHED) ->
  forEach (finishIfStarted (S fuel)) cs t = (Ok tt, t).
Proof.
  induction cs as [|c cs IH]; intros H; [reflexivity|].
  cbn [forEach]. unfold bind at 1.
  rewrite finishIfStarted_finished by (apply H; left).
  apply IH. intros d Hd. apply H. now right.
Qed.

(** X15: [finishIfStarted] never notifies a parent: it calls [finish]
    without argument.  Whether it returns or throws, no
    [finishedChildCount] has changed, every node that had finished is still
    finished, no node was added and [nextId] is the same. *)
Theorem finishIfStarted_never_notifies (fuel : nat) (this : nat) (t : Tree) :
  let t' := (finishIfStarted fuel this t).2 in
  (forall r, finishedCountOf t' r = finishedCountOf t r)
  /\ (forall r, stateOf t r = Some FINISHED -> stateOf t' r = Some FINISHED)
  /\ length (heap t') = length (heap t)
  /\ nextId t' = nextId t.
Proof.
  cbv zeta. destruct (finishIfStarted_ages fuel this t) as (HS&Hc&Hf).
  split; [exact Hc|]. split; [exact Hf|].
  split; [now apply sameShape_length|]. apply HS.
Qed.

(** X16: [finishIfStarted] on a suite whose children have all finished (or
    that has none).  If the suite is registered or started, and not the
    root, the call writes the testSuiteFinished message of the suite and
    makes it finished, and nothing else; if the suite is still in the state
    created, the call throws 'Unexpected node state: created' and changes
    nothing; on the root the call returns and changes nothing. *)
Theorem finishIfStarted_closes_suite (fuel : nat) (t : Tree) (this : nat)
    (n : Node) (f : SuiteFields) :
  heap t !! this = Some n -> own n = TestSuiteNode f ->
  (forall c, c ∈ children f -> stateOf t c = Some FINISHED) ->
  (this <> root t -> state n = REGISTERED \/ state n = STARTED ->
     finishIfStarted (S (S fuel)) this t
     = (Ok tt,
        alterNode this (with_state FINISHED)
          (emit (lit "##teamcity[testSuiteFinished nodeId='"
                 ++ idText (nodeId n) ++ lit "']") t)))
  /\ (this <> root t -> state n = CREATED ->
        finishIfStarted (S (S fuel)) this t
        = (Throw (UnexpectedNodeState CREATED), t))
  /\ (this = root t -> finishIfStarted (S (S fuel)) this t = (Ok tt, t)).
Proof.
  intros Hn Hf Hall.
  assert (Hloop : state n <> FINISHED ->
            finishIfStarted (S (S fuel)) this t
            = finish (S (S fuel)) this false t).
  { intros Hs. cbn [finishIfStarted]. run. rewrite decide_True by done.
    rewrite Hf. run.
    change (forEach _ (children f) t)
      with (forEach (finishIfStarted (S fuel)) (children f) t).
    now rewrite forEach_finished. }
  split; [|split].
  - intros Hr Hs. rewrite Hloop by (destruct Hs as [-> | ->]; discriminate).
    destruct (suite_finishMessage n f Hf) as (text&Htext&Hline).
    rewrite (finish_step (S fuel) this false t n text Hn Hr Hs Htext).
    cbv zeta. do 3 f_equal.
    unfold suiteFinishLine in Hline. rewrite !app_assoc in Hline.
    apply app_inv_tail in Hline. rewrite Hline. now rewrite <- !app_assoc.
  - intros Hr Hs. rewrite Hloop by (rewrite Hs; discriminate).
    rewrite <- Hs. apply finish_illegal; [done..| |]; rewrite Hs; discriminate.
  - intros ->. destruct (decide (state n = FINISHED)) as [Hs|Hs].
    + apply finishIfStarted_finished. unfold stateOf. rewrite Hn. cbn.
      now rewrite Hs.
    + rewrite Hloop by done. apply finish_root.
Qed.

Lemma finishIfStarted_closes_suite_witness :
  exists text,
    finishIfStarted 2 1 Runs.quietlyDone
    = (Ok tt, alterNode 1 (with_state FINISHED) (emit text Runs.quietlyDone)).
Proof.
  assert (H : exists n f, heap Runs.quietlyDone !! 1%nat = Some n
                          /\ own n = TestSuiteNode f
                          /\ children f = [2; 3]%nat /\ state n = STARTED).
  { eexists; eexists; repeat split; reflexivity. }
  destruct H as (n&f&Hn&Hf&Hc&Hs).
  assert (Hall : forall c, c ∈ children f ->
                           stateOf Runs.quietlyDone c = Some FINISHED).
  { rewrite Hc. intros c Hin.
    apply elem_of_cons in Hin as [->|Hin]; [reflexivity|].
    apply elem_of_cons in Hin as [->|Hin]; [reflexivity|].
    now apply elem_of_nil in Hin. }
  eexists.
  apply (proj1 (finishIfStarted_closes_suite 0 Runs.quietlyDone 1 n f
                  Hn Hf Hall)); [vm_compute; lia|now right].
Defined.

(** X17: [finishIfStarted] cannot finish a test.  On every unfinished suite
    whose first unfinished child is a test, in any tree, the call throws a
    TypeError (a test has no [children]) before anything is written: the
    tree is unchanged, the later children and the suite stay unfinished. *)
Theorem finishIfStarted_stops_at_unfinished_test (fuel : nat) (t : Tree)
    (this : nat) (n : Node) (f : SuiteFields) (pre post : list nat) (c : nat)
    (cn : Node) (cf : TestFields) :
  heap t !! this = Some n -> own n = TestSuiteNode f -> state n <> FINISHED ->
  children f = pre ++ c :: post ->
  (forall d, d ∈ pre -> stateOf t d = Some FINISHED) ->
  heap t !! c = Some cn -> own cn = TestNode cf -> state cn <> FINISHED ->
  finishIfStarted (S (S fuel)) this t = (Throw JsTypeError, t).
Proof.
  intros Hn Hf Hs Hcs Hpre Hc Hcf Hcs'.
  cbn [finishIfStarted]. run. rewrite decide_True by done. rewrite Hf, Hcs.
  run.
  change (forEach _ (pre ++ c :: post) t)
    with (forEach (finishIfStarted (S fuel)) (pre ++ c :: post) t).
  assert (E : forEach (finishIfStarted (S fuel)) (pre ++ c :: post) t
              = (Throw JsTypeError, t)).
  { clear Hcs. induction pre as [|d pre IH]; cbn [app forEach]; unfold bind at 1.
    - now rewrite (finishIfStarted_unfinished_test fuel t c cn cf).
    - rewrite finishIfStarted_finished by (apply Hpre; left).
      apply IH. intros e He. apply Hpre. now right. }
  now rewrite E.
Qed.

Lemma finishIfStarted_stops_at_unfinished_test_witness :
  finishIfStarted 2 1 Samples.midRun = (Throw JsTypeError, Samples.midRun).
Proof.
  assert (H : exists n f cn cf,
             heap Samples.midRun !! 1%nat = Some n /\ own n = TestSuiteNode f
             /\ state n = STARTED /\ children f = [2%nat] ++ 3%nat :: [4%nat]
             /\ heap Samples.midRun !! 3%nat = Some cn /\ own cn = TestNode cf
             /\ state cn = STARTED).
  { do 4 eexists; repeat split; reflexivity. }
  destruct H as (n&f&cn&cf&Hn&Hf&Hs&Hc&Hcn&Hcf&Hcs).
  apply (finishIfStarted_stops_at_unfinished_test 0 Samples.midRun 1 n f
           [2%nat] [4%nat] 3 cn cf Hn Hf); [rewrite Hs; discriminate|exact Hc|
           |exact Hcn|exact Hcf|rewrite Hcs; discriminate].
  intros d Hd. apply elem_of_cons in Hd as [->|Hd]; [reflexivity|].
  now apply elem_of_nil in Hd.
Defined.

(** ** The finish message of a test *)


Lemma finishAttr_Some key v :
  finishAttr key (Some v)
  = lit " " ++ lit key ++ lit "='" ++ escapeAttributeValue v ++ lit "'".
Proof. reflexivity. Qed.



(** ** A finish message is one line *)

Lemma lit_cons c s : lit (String c s) = N_of_ascii c :: lit s.
Proof. reflexivity. Qed.

Lemma uint_no_lineBreak (u : Decimal.uint) :
  existsb lineBreak (lit (NilEmpty.string_of_uint u)) = false.
Proof.
  induction u; cbn [NilEmpty.string_of_uint]; [reflexivity|..];
    rewrite lit_cons; cbn [existsb]; rewrite IHu; reflexivity.
Qed.

Lemma dec_no_lineBreak k : existsb lineBreak (dec k) = false.
Proof. apply uint_no_lineBreak. Qed.

Lemma decZ_no_lineBreak z : existsb lineBreak (decZ z) = false.
Proof.
  unfold decZ. destruct (Z.to_int z) as [u|u]; cbn [NilEmpty.string_of_int].
  - apply uint_no_lineBreak.
  - rewrite lit_cons. cbn [existsb]. rewrite uint_no_lineBreak. reflexivity.
Qed.

Lemma escape_no_lineBreak v : existsb lineBreak (escapeAttributeValue v) = false.
Proof.
  rewrite EscaperProofs.escapeAttributeValue_spec.
  apply EscaperMore.escape_spec_no_lineBreak.
Qed.

Lemma finishAttr_no_lineBreak key v :
  existsb lineBreak (lit key) = false ->
  existsb lineBreak (finishAttr key v) = false.
Proof.
  intros Hk. destruct v as [v|]; [|reflexivity]. rewrite finishAttr_Some.
  rewrite !existsb_app, Hk, escape_no_lineBreak. reflexivity.
Qed.

Lemma getFinishMessage_one_line n text :
  getFinishMessage n = Ok text ->
  existsb lineBreak (idText (nodeId n)) = false ->
  existsb lineBreak text = false.
Proof.
  unfold getFinishMessage. intros H Hid.
  assert (Hcmd : forall c, getFinishCommandName n = Ok c ->
                           existsb lineBreak c = false).
  { unfold getFinishCommandName, testFinishCommandName. intros c.
    destruct (own n) as [f|f]; [intros Hc; apply Ok_inj in Hc; now subst c|].
    destruct (outcome f) as [[]|]; intros Hc; try discriminate;
      apply Ok_inj in Hc; now subst c. }
  destruct (getFinishCommandName n) as [c|]; [|discriminate].
  apply Ok_inj in H. subst text.
  rewrite !existsb_app, (Hcmd c eq_refl), Hid.
  assert (Hx : existsb lineBreak
                 match getExtraFinishMessageParameters n with
                 | Some extraParameters => extraParameters
                 | None => []
                 end = false).
  { unfold getExtraFinishMessageParameters, testExtraFinishMessageParameters.
    destruct (own n) as [f|f]; [reflexivity|].
    case_decide; [reflexivity|].
    rewrite !existsb_app, !finishAttr_no_lineBreak by reflexivity.
    destruct (durationMillis f) as [ms|];
      [rewrite !existsb_app, decZ_no_lineBreak|];
      case_decide; reflexivity. }
  rewrite Hx. reflexivity.
Qed.

(** X19: a finish message is one line.  In a tree a caller can build whose
    id prefix, if any, has no line break, the text [getFinishMessage] makes
    for a node holds none of the five line break characters, whatever the
    failure message, details and other strings given to [setOutcome]: the
    only line feed of the chunk is the one [writeln] appends. *)
Theorem finish_line_is_one_line (t : Tree) (r : nat) (n : Node) (text : list N) :
  reachable t -> heap t !! r = Some n -> getFinishMessage n = Ok text ->
  (forall p, idPrefix t = Some p -> existsb lineBreak p = false) ->
  existsb lineBreak text = false.
Proof.
  intros Hreach Hn Htext Hp. apply (getFinishMessage_one_line n text Htext).
  pose proof (reachable_wf t Hreach) as W.
  destruct (decide (r = 0%nat)) as [->|Hne].
  - destruct (wf_hidden t W) as (n0&H0&Hi&_).
    assert (n0 = n) by congruence. subst n0. rewrite Hi. reflexivity.
  - rewrite (wf_id t W r n Hn Hne). unfold childIdOf.
    destruct (idPrefix t) as [p|]; cbn [idText]; [|apply dec_no_lineBreak].
    rewrite !existsb_app, (Hp p eq_refl), dec_no_lineBreak. reflexivity.
Qed.

Lemma finish_line_is_one_line_witness :
  existsb lineBreak (lit "##teamcity[testFinished nodeId='2']") = false.
Proof.
  apply (finish_line_is_one_line Samples.startedSuite 2 _ _
           ltac:(exists None, 4%nat, Samples.startedSuiteCalls; reflexivity)
           eq_refl eq_refl).
  intros p Hp. discriminate Hp.
Defined.

(** ** The root stays open *)

Lemma rootOpen_alterNode r g t :
  (forall n f, heap t !! r = Some n -> r = root t -> own n = TestSuiteNode f ->
     state (g n) <> FINISHED /\ own (g n) = own n) ->
  rootOpen t -> rootOpen (alterNode r g t).
Proof.
  intros Hg (n&f&Hn&Hf&Hk&Hs). unfold rootOpen.
  change (root (alterNode r g t)) with (root t).
  destruct (decide (r = root t)) as [->|Hne].
  - exists (g n), f. rewrite (lookup_alterNode_eq _ _ _ n Hn).
    destruct (Hg n f Hn eq_refl Hf) as (?&Ho). rewrite Ho. done.
  - exists n, f. now rewrite lookup_alterNode_ne.
Qed.

Lemma rootOpen_alter_other r g t :
  r <> root t -> rootOpen t -> rootOpen (alterNode r g t).
Proof. intros Hne. apply rootOpen_alterNode. intros n f _ ->. done. Qed.

Lemma finish_rootOpen fuel this b t :
  rootOpen t -> rootOpen (finish fuel this b t).2.
Proof.
  revert this b t. induction fuel as [|fuel IH]; intros this b t HO; [exact HO|].
  destruct (finish_cases fuel this b t)
    as [[r ->]|(n&text&Hn&Hr&Hst&Htext)]; [exact HO|].
  rewrite (finish_step fuel this b t n text Hn Hr Hst Htext). cbv zeta.
  assert (HO1 : rootOpen (alterNode this (with_state FINISHED) (emit text t)))
    by (apply rootOpen_alter_other; [exact Hr|exact HO]).
  destruct b; [|exact HO1].
  destruct (parent n) as [p|]; [|exact HO1].
  case_decide as Hp; [|exact HO1].
  set (t1 := alterNode this (with_state FINISHED) (emit text t)) in *.
  destruct (heap t1 !! p) as [pn|] eqn:Hpn.
  2:{ unfold onChildFinished, onChildFinished_with. run. rewrite Hpn. exact HO1. }
  destruct (own pn) as [f|f] eqn:Hf.
  2:{ unfold onChildFinished, onChildFinished_with. run. rewrite Hf. exact HO1. }
  rewrite (onChildFinished_step fuel p t1 pn f Hpn Hf). cbv zeta.
  assert (HO2 : rootOpen (alterNode p (onSuite incrFinishedChildCount) t1))
    by (apply rootOpen_alter_other; [exact Hp|exact HO1]).
  case_decide; [|exact HO2]. case_decide; [|exact HO2].
  apply IH, HO2.
Qed.

Lemma forEach_rootOpen {A} (body : A -> M unit) l t :
  (forall x t, rootOpen t -> rootOpen (body x t).2) ->
  rootOpen t -> rootOpen (forEach body l t).2.
Proof.
  intros Hb. revert t. induction l as [|x l IH]; intros t HO; [exact HO|].
  cbn [forEach]. unfold bind. specialize (Hb x t HO).
  destruct (body x t) as [[[]|e] t1]; [|exact Hb]. apply IH, Hb.
Qed.

Lemma finishIfStarted_rootOpen fuel this t :
  rootOpen t -> rootOpen (finishIfStarted fuel this t).2.
Proof.
  revert this t. induction fuel as [|fuel IH]; intros this t HO; [exact HO|].
  cbn [finishIfStarted]. run.
  destruct (heap t !! this) as [n|]; [|exact HO].
  case_decide; [|exact HO]. destruct (own n) as [f|f]; [|exact HO]. run.
  pose proof (forEach_rootOpen (finishIfStarted fuel) (children f) t
                (fun x t => IH x t) HO) as H1.
  destruct (forEach (finishIfStarted fuel) (children f) t) as [[[]|e] t1];
    [|exact H1].
  apply (finish_rootOpen (S fuel)), H1.
Qed.

Lemma sameLife_rootOpen t t' : sameLife t t' -> rootOpen t -> rootOpen t'.
Proof.
  intros (HS&Hst&Hcnt) (n&f&Hn&Hf&Hk&Hs).
  pose proof HS as (_&Hroot&_&_).
  specialize (Hst (root t)). specialize (Hcnt (root t)).
  unfold stateOf in Hst. unfold finishedCountOf in Hcnt.
  rewrite Hn in Hst, Hcnt. cbn in Hst, Hcnt. rewrite Hf in Hcnt.
  unfold rootOpen. rewrite Hroot.
  destruct (heap t' !! root t) as [n'|]; [|discriminate].
  cbn in Hst, Hcnt. destruct (own n') as [f'|] eqn:Hf'; [|discriminate].
  exists n', f'. split; [reflexivity|]. split; [exact Hf'|].
  split; congruence.
Qed.

Lemma set_state_rootOpen r s text t :
  s <> FINISHED -> rootOpen t ->
  rootOpen (alterNode r (with_state s) (emit text t)).
Proof.
  intros Hs HO. apply rootOpen_alterNode; [|exact HO].
  intros m f _ _ _. split; [exact Hs|reflexivity].
Qed.

Lemma grown_rootOpen fields this childName nodeType locPath t :
  rootOpen t -> rootOpen (grown fields this childName nodeType locPath t).
Proof.
  intros (n&f&Hn&Hf&Hk&Hs). unfold rootOpen.
  change (root (grown fields this childName nodeType locPath t)) with (root t).
  destruct (decide (root t = this)) as [E|E].
  - rewrite E in *.
    rewrite (grown_lookup_this fields this childName nodeType locPath t n Hn).
    unfold onSuite. rewrite Hf. eexists. eexists. split; [reflexivity|].
    split; [reflexivity|]. split; [exact Hk|exact Hs].
  - rewrite grown_lookup_other by (first [done|eapply lookup_lt_Some; eauto]).
    exists n, f. done.
Qed.

Lemma perform_rootOpen fuel c t : rootOpen t -> rootOpen (perform fuel c t).2.
Proof.
  intros HO.
  destruct quiet_calls_sameLife as (H1&H2&H3&H4&H5&H6&H7&H8).
  destruct c; cbn [perform]; rewrite ?unit_call_tree;
    try first [ apply (sameLife_rootOpen t); [|exact HO];
                first [ apply H1 | apply H2 | apply H3 | apply H4 | apply H5
                      | apply H6 | apply H7 | apply H8 ]
              | now apply finish_rootOpen | now apply finishIfStarted_rootOpen ].
  - match goal with |- context [register ?r t] =>
      destruct (register_cases r t) as [[e ->]|(n&text&Hn&Hs&->)] end;
      [exact HO|]. now apply set_state_rootOpen.
  - match goal with |- context [start ?r t] =>
      destruct (start_cases r t) as [[e ->]|[->|(n&text&Hn&Hs&->)]] end;
      [exact HO..|]. now apply set_state_rootOpen.
  - unfold addTestChild, bind, ret.
    match goal with
    | |- context [addChild ?fi ?th ?cn ?ty ?l ?t0] =>
        destruct (addChild_cases fi th cn ty l t0)
          as [[e He]|(n&Hn&_&_&He)]; rewrite He;
        [exact HO|now apply grown_rootOpen]
    end.
  - unfold addTestSuiteChild, bind, ret.
    match goal with
    | |- context [addChild ?fi ?th ?cn ?ty ?l ?t0] =>
        destruct (addChild_cases fi th cn ty l t0)
          as [[e He]|(n&Hn&_&_&He)]; rewrite He;
        [exact HO|now apply grown_rootOpen]
    end.
Qed.

Lemma rootOpen_newTree idPrefix : rootOpen (newTree idPrefix).
Proof.
  eexists. eexists. split; [reflexivity|]. split; [reflexivity|].
  split; [reflexivity|discriminate].
Qed.

(** X20: the root never finishes and never counts.  After any calls on a
    new tree, the root is not in the state finished and its
    [finishedChildCount] is still 0 ([finish] returns at once on the root,
    and a child of the root does not notify it); so [addTestChild] and
    [addTestSuiteChild] on the root always succeed. *)
Theorem root_never_finishes (idPrefix : option (list N)) (fuel : nat)
    (calls : list call) (suite : bool) (childName : list N)
    (nodeType locPath : option (list N)) :
  let t := (session fuel calls (newTree idPrefix)).2 in
  stateOf t (root t) <> Some FINISHED
  /\ finishedCountOf t (root t) = Some 0
  /\ exists t',
       (if suite then addTestSuiteChild else addTestChild)
         (root t) childName nodeType locPath t = (Ok (length (heap t)), t').
Proof.
  cbv zeta. set (t := (session fuel calls (newTree idPrefix)).2).
  assert (HO : rootOpen t).
  { subst t. generalize (rootOpen_newTree idPrefix).
    generalize (newTree idPrefix). induction calls as [|c calls IH]; intros t0 H0.
    - exact H0.
    - rewrite session_cons. cbn [snd]. apply IH. now apply perform_rootOpen. }
  destruct HO as (n&f&Hn&Hf&Hk&Hs). split; [|split].
  - unfold stateOf. rewrite Hn. cbn. congruence.
  - unfold finishedCountOf. rewrite Hn. cbn. rewrite Hf. now rewrite Hk.
  - assert (E : (if suite then addTestSuiteChild else addTestChild)
                = addChild (if suite then TestSuiteNode emptySuite
                            else TestNode emptyTest))
      by (destruct suite; reflexivity).
    rewrite E. unfold addChild. run. rewrite Hf, decide_False by done.
    eexists. reflexivity.
Qed.

(** ** A call that throws *)

Lemma unit_call_throw (m : M unit) t e t' :
  bind m (fun _ => ret (@None nat)) t = (Throw e, t') -> m t = (Throw e, t').
Proof. unfold bind, ret. destruct (m t) as [[[]|e0] t1]; congruence. Qed.

Lemma throw_unchanged {A} (t t' t0 : Tree) (e e0 : exn) :
  (@Throw A e0, t0) = (Throw e, t') -> t0 = t -> t' = t.
Proof. congruence. Qed.

Ltac fewer :=
  first [ exists []; split; [now rewrite app_nil_r|cbn; lia]
        | eexists [_]; split; [reflexivity|cbn; lia] ].

(** X21: every call but [finish(true)] and [finishIfStarted] checks before
    it acts.  If such a call throws, the tree is exactly as it was, output
    included; and whether it throws or not it writes at most one chunk. *)
Theorem checked_calls_are_atomic (fuel : nat) (c : call) (t : Tree) :
  checksFirst c = true ->
  (forall e t', perform fuel c t = (Throw e, t') -> t' = t)
  /\ exists extra, written (perform fuel c t).2 = written t ++ extra
                   /\ (length extra <= 1)%nat.
Proof.
  intros Hc. split.
  - intros e t'. destruct c; cbn [perform]; try discriminate Hc;
      try (intros H%unit_call_throw; revert H).
    + discriminate.
    + discriminate.
    + unfold addTotalTestCount. repeat case_match; discriminate.
    + discriminate.
    + discriminate.
    + match goal with |- context [register ?r t] =>
        destruct (register_cases r t) as [[e0 ->]|(n&text&_&_&->)] end;
        congruence.
    + match goal with |- context [start ?r t] =>
        destruct (start_cases r t) as [[e0 ->]|[->|(n&text&_&_&->)]] end;
        congruence.
    + match goal with |- context [finish fuel ?r ?b t] =>
        destruct b; [discriminate Hc|];
        destruct fuel as [|fuel']; [cbn [finish]; unfold throw; congruence|];
        destruct (finish_cases fuel' r false t)
          as [[res ->]|(n&text&Hn&Hr&Hst&Htext)];
        [congruence|rewrite (finish_step fuel' r false t n text Hn Hr Hst Htext)]
      end. discriminate.
    + unfold addTestChild, bind, ret.
      match goal with
      | |- context [addChild ?fi ?th ?cn ?ty ?l ?t0] =>
          destruct (addChild_cases fi th cn ty l t0)
            as [[e0 He]|(n&_&_&_&He)]; rewrite He; congruence
      end.
    + unfold addTestSuiteChild, bind, ret.
      match goal with
      | |- context [addChild ?fi ?th ?cn ?ty ?l ?t0] =>
          destruct (addChild_cases fi th cn ty l t0)
            as [[e0 He]|(n&_&_&_&He)]; rewrite He; congruence
      end.
    + unfold setOutcome. run. repeat case_match; congruence.
    + unfold setMetainfo. run. repeat case_match; congruence.
    + unfold addStdErr. run. repeat case_match; congruence.
  - destruct c; cbn [perform]; try discriminate Hc; rewrite ?unit_call_tree.
    + fewer.
    + fewer.
    + unfold addTotalTestCount. repeat case_match; fewer.
    + fewer.
    + fewer.
    + match goal with |- context [register ?r t] =>
        destruct (register_cases r t) as [[e0 ->]|(n&text&_&_&->)] end; fewer.
    + match goal with |- context [start ?r t] =>
        destruct (start_cases r t) as [[e0 ->]|[->|(n&text&_&_&->)]] end; fewer.
    + match goal with |- context [finish fuel ?r ?b t] =>
        destruct b; [discriminate Hc|];
        destruct fuel as [|fuel']; [fewer|];
        destruct (finish_cases fuel' r false t)
          as [[res ->]|(n&text&Hn&Hr&Hst&Htext)];
        [|rewrite (finish_step fuel' r false t n text Hn Hr Hst Htext)]
      end; fewer.
    + unfold addTestChild, bind, ret.
      match goal with
      | |- context [addChild ?fi ?th ?cn ?ty ?l ?t0] =>
          destruct (addChild_cases fi th cn ty l t0)
            as [[e0 He]|(n&_&_&_&He)]; rewrite He; fewer
      end.
    + unfold addTestSuiteChild, bind, ret.
      match goal with
      | |- context [addChild ?fi ?th ?cn ?ty ?l ?t0] =>
          destruct (addChild_cases fi th cn ty l t0)
            as [[e0 He]|(n&_&_&_&He)]; rewrite He; fewer
      end.
    + unfold setOutcome. run. destruct (heap t !! _) as [n|]; [|fewer].
      destruct (own n); [fewer|]. case_decide; fewer.
    + unfold setMetainfo. run. destruct (heap t !! _) as [n|]; [|fewer].
      destruct (own n); fewer.
    + unfold addStdErr. run. destruct (heap t !! _) as [n|]; [|fewer].
      destruct (own n); [fewer|]. case_match; fewer.
Qed.

Lemma checked_calls_are_atomic_witness :
  (perform 4 (Register 1) Samples.startedSuite).2 = Samples.startedSuite.
Proof.
  apply (proj1 (checked_calls_are_atomic 4 (Register 1) Samples.startedSuite
                  eq_refl) (UnexpectedNodeState STARTED)
           (perform 4 (Register 1) Samples.startedSuite).2 eq_refl).
Defined.

(** ** Counters never decrease *)

#[global] Instance countsGrow_refl : Reflexive countsGrow.
Proof. intros t r k H. exists k. split; [exact H|lia]. Qed.

#[global] Instance countsGrow_trans : Transitive countsGrow.
Proof.
  intros t1 t2 t3 H1 H2 r k Hk. destruct (H1 r k Hk) as (k'&Hk'&Hle).
  destruct (H2 r k' Hk') as (k''&Hk''&Hle'). exists k''. split; [done|lia].
Qed.

Lemma countsGrow_emit line t : countsGrow t (emit line t).
Proof. intros r k H. exists k. split; [exact H|lia]. Qed.

Lemma countsGrow_alterNode r g t :
  (forall n, heap t !! r = Some n ->
     match own n with
     | TestSuiteNode f =>
         exists f', own (g n) = TestSuiteNode f'
                    /\ finishedChildCount f <= finishedChildCount f'
     | TestNode _ => True
     end) ->
  countsGrow t (alterNode r g t).
Proof.
  intros Hg q k Hk. rewrite finishedCountOf_alterNode. case_decide.
  - subst q. unfold finishedCountOf in Hk.
    destruct (heap t !! r) as [n|] eqn:Hn; [|discriminate]. cbn in Hk |- *.
    specialize (Hg n eq_refl). destruct (own n) as [f|]; [|discriminate].
    destruct Hg as (f'&Hf'&Hle). rewrite Hf'. injection Hk as <-. eauto.
  - exists k. split; [done|lia].
Qed.

Lemma preserves_updNode_state_counts r s :
  preserves countsGrow (updNode r (with_state s)).
Proof.
  intros t. apply countsGrow_alterNode. intros n _.
  destruct (own n) as [f|] eqn:Hf; [|done]. exists f. split; [exact Hf|lia].
Qed.

Lemma preserves_updNode_incr_counts r :
  preserves countsGrow (updNode r (onSuite incrFinishedChildCount)).
Proof.
  intros t. apply countsGrow_alterNode. intros n _. unfold onSuite.
  destruct (own n) as [f|] eqn:Hf; [|done].
  eexists. split; [reflexivity|]. cbn. lia.
Qed.

Ltac presCounts :=
  repeat first
    [ apply (preserves_ret countsGrow)
    | apply (preserves_throw countsGrow)
    | apply (preserves_getTree countsGrow)
    | apply (preserves_getNode countsGrow)
    | apply (preserves_liftResult countsGrow)
    | apply (preserves_writeln countsGrow); [exact countsGrow_emit]
    | apply preserves_updNode_state_counts
    | apply preserves_updNode_incr_counts
    | apply (preserves_bind countsGrow); [|intros ?]
    | case_decide
    | case_match ].

Lemma finish_countsGrow fuel this b : preserves countsGrow (finish fuel this b).
Proof.
  revert this b. induction fuel as [|fuel IH]; intros this b; cbn [finish].
  - presCounts.
  - presCounts. apply IH.
Qed.

Lemma sameCounts_countsGrow t t' :
  (forall r, finishedCountOf t' r = finishedCountOf t r) -> countsGrow t t'.
Proof. intros H r k Hk. exists k. rewrite H. split; [done|lia]. Qed.

Lemma grown_countsGrow fields this childName nodeType locPath t :
  countsGrow t (grown fields this childName nodeType locPath t).
Proof.
  intros r k Hk. exists k. split; [|lia]. unfold finishedCountOf in *.
  destruct (heap t !! r) as [n|] eqn:Hn; [|discriminate]. cbn in Hk.
  destruct (decide (r = this)) as [->|Hne].
  - rewrite (grown_lookup_this fields this childName nodeType locPath t n Hn).
    cbn. unfold onSuite. destruct (own n) as [f|]; [|discriminate]. exact Hk.
  - rewrite grown_lookup_other by (first [done|eapply lookup_lt_Some; eauto]).
    rewrite Hn. exact Hk.
Qed.

Lemma perform_countsGrow fuel c t : countsGrow t (perform fuel c t).2.
Proof.
  destruct quiet_calls_sameLife as (H1&H2&H3&H4&H5&H6&H7&H8).
  destruct c; cbn [perform]; rewrite ?unit_call_tree;
    try first [ apply sameCounts_countsGrow;
                first [ apply H1 | apply H2 | apply H3 | apply H4 | apply H5
                      | apply H6 | apply H7 | apply H8
                      | apply register_ages | apply start_ages
                      | apply finishIfStarted_ages ]
              | apply finish_countsGrow ].
  all: unfold addTestChild, addTestSuiteChild, bind, ret.
  all: match goal with
       | |- context [addChild ?fi ?th ?cn ?ty ?l ?t0] =>
           destruct (addChild_cases fi th cn ty l t0)
             as [[e He]|(n&Hn&_&_&He)]; rewrite He;
           [reflexivity|apply grown_countsGrow]
       end.
Qed.

(** X22: a [finishedChildCount] never decreases, whatever the calls of a
    session: a suite stays a suite and its counter is afterwards the same
    or larger. *)
Theorem counters_never_decrease (fuel : nat) (calls : list call) (t : Tree)
    (r : nat) (k : N) :
  finishedCountOf t r = Some k ->
  exists k', finishedCountOf (session fuel calls t).2 r = Some k' /\ k <= k'.
Proof.
  revert r k. change (countsGrow t (session fuel calls t).2).
  revert t. induction calls as [|c calls IH]; intros t; [reflexivity|].
  rewrite session_cons. cbn [snd].
  transitivity (perform fuel c t).2; [apply perform_countsGrow|apply IH].
Qed.

Lemma counters_never_decrease_witness :
  exists k', finishedCountOf
               (session 4 [Finish 2 true; Start 3; Finish 3 true]
                  Samples.startedSuite).2 1 = Some k' /\ 0 <= k'.
Proof.
  exact (counters_never_decrease 4 [Finish 2 true; Start 3; Finish 3 true]
           Samples.startedSuite 1 0 eq_refl).
Defined.

(** ** Nodes are never removed or changed *)

#[global] Instance sameStatic_refl : Reflexive sameStatic.
Proof. intros t. repeat split. Qed.

#[global] Instance sameStatic_trans : Transitive sameStatic.
Proof.
  intros t1 t2 t3 (?&?&?&?) (?&?&?&?). split; [|split; [|split]]; congruence.
Qed.

Lemma sameStatic_emit line t : sameStatic t (emit line t).
Proof. repeat split. Qed.

Lemma preserves_updNode_sameStatic r g :
  (forall n, staticView (g n) = staticView n) ->
  preserves sameStatic (updNode r g).
Proof.
  intros Hg t. split; [|split; [|split]]; try reflexivity.
  cbn. apply fmap_alter_same. auto.
Qed.

Lemma staticView_onSuite_incr n :
  staticView (onSuite incrFinishedChildCount n) = staticView n.
Proof. unfold onSuite. destruct n as [? ? ? ? ? ? [f|f]]; reflexivity. Qed.

Lemma staticView_onTest g n : staticView (onTest g n) = staticView n.
Proof. unfold onTest. destruct n as [? ? ? ? ? ? [f|f]]; reflexivity. Qed.

Ltac presStatic :=
  repeat first
    [ apply (preserves_ret sameStatic)
    | apply (preserves_throw sameStatic)
    | apply (preserves_getTree sameStatic)
    | apply (preserves_getNode sameStatic)
    | apply (preserves_liftResult sameStatic)
    | apply (preserves_writeln sameStatic); [exact sameStatic_emit]
    | apply preserves_updNode_sameStatic;
        first [ exact staticView_onSuite_incr | exact (staticView_onTest _)
              | intros ?; reflexivity ]
    | apply (preserves_bind sameStatic); [|intros ?]
    | case_decide
    | case_match ].

Lemma finish_sameStatic fuel this b : preserves sameStatic (finish fuel this b).
Proof.
  revert this b. induction fuel as [|fuel IH]; intros this b; cbn [finish].
  - presStatic.
  - presStatic. apply IH.
Qed.

Lemma finishIfStarted_sameStatic fuel this :
  preserves sameStatic (finishIfStarted fuel this).
Proof.
  revert this. induction fuel as [|fuel IH]; intros this; cbn [finishIfStarted].
  - presStatic.
  - presStatic;
      first [apply (preserves_forEach sameStatic), IH | apply finish_sameStatic].
Qed.

Lemma other_calls_sameStatic :
  preserves sameStatic startNotify
  /\ (forall n c l, preserves sameStatic (updateRootNode n c l))
  /\ (forall n, preserves sameStatic (addTotalTestCount n))
  /\ preserves sameStatic testingStarted
  /\ preserves sameStatic testingFinished
  /\ (forall this, preserves sameStatic (register this))
  /\ (forall this, preserves sameStatic (start this))
  /\ (forall this o d m1 m2 e a ef af,
        preserves sameStatic (setOutcome this o d m1 m2 e a ef af))
  /\ (forall this m, preserves sameStatic (setMetainfo this m))
  /\ (forall this e, preserves sameStatic (addStdErr this e)).
Proof.
  repeat split; intros;
    unfold startNotify, updateRootNode, addTotalTestCount, testingStarted,
      testingFinished, register, getRegisterMessage, start, getStartMessage,
      getInitMessage, setOutcome, setMetainfo, addStdErr; presStatic.
Qed.

#[global] Instance accumulates_refl : Reflexive accumulates.
Proof.
  intros t. split; [done|]. split; [done|]. split; [lia|].
  intros r n Hn. exists n. repeat (split; [done|]).
  destruct (childrenOf n) as [cs|]; [|done]. exists []. now rewrite app_nil_r.
Qed.

#[global] Instance accumulates_trans : Transitive accumulates.
Proof.
  intros t1 t2 t3 (Hp&Hr&Hx&H1) (Hp'&Hr'&Hx'&H2).
  split; [congruence|]. split; [congruence|]. split; [lia|].
  intros r n Hn. destruct (H1 r n Hn) as (n'&Hn'&Hi&Hpa&Hna&Hty&Hlo&Hc).
  destruct (H2 r n' Hn') as (n''&Hn''&Hi'&Hpa'&Hna'&Hty'&Hlo'&Hc').
  exists n''. split; [done|]. repeat (split; [congruence|]).
  destruct (childrenOf n) as [cs|].
  - destruct Hc as [more Hc]. rewrite Hc in Hc'. destruct Hc' as [more' Hc'].
    exists (more ++ more'). now rewrite app_assoc.
  - now rewrite Hc in Hc'.
Qed.

Lemma sameStatic_accumulates t t' : sameStatic t t' -> accumulates t t'.
Proof.
  intros (Hp&Hr&Hx&H). split; [done|]. split; [done|]. split; [lia|].
  intros r n Hn.
  assert (E : (staticView <$> heap t') !! r = (staticView <$> heap t) !! r)
    by now rewrite H.
  rewrite !list_lookup_fmap, Hn in E.
  destruct (heap t' !! r) as [n'|]; [|discriminate].
  change (Some (staticView n') = Some (staticView n)) in E.
  assert (E' : staticView n' = staticView n) by congruence.
  unfold staticView in E'. exists n'. split; [done|].
  repeat (split; [congruence|]).
  assert (Hc : childrenOf n' = childrenOf n) by congruence.
  destruct (childrenOf n) as [cs|]; [|done]. exists []. now rewrite app_nil_r.
Qed.

Lemma grown_accumulates fields this childName nodeType locPath t :
  accumulates t (grown fields this childName nodeType locPath t).
Proof.
  split; [done|]. split; [done|]. split; [cbn; lia|].
  intros r n Hn. destruct (decide (r = this)) as [->|Hne].
  - rewrite (grown_lookup_this fields this childName nodeType locPath t n Hn).
    eexists. split; [reflexivity|]. unfold onSuite, childrenOf.
    destruct (own n) as [f|] eqn:Hf; cbn; rewrite ?Hf; repeat split.
    now exists [length (heap t)].
  - rewrite grown_lookup_other by (first [done|eapply lookup_lt_Some; eauto]).
    exists n. split; [done|]. repeat (split; [done|]).
    destruct (childrenOf n) as [cs|]; [|done]. exists []. now rewrite app_nil_r.
Qed.

Lemma perform_accumulates fuel c t : accumulates t (perform fuel c t).2.
Proof.
  destruct other_calls_sameStatic as (H1&H2&H3&H4&H5&H6&H7&H8&H9&H10).
  destruct c; cbn [perform]; rewrite ?unit_call_tree;
    try (apply sameStatic_accumulates;
         first [ apply H1 | apply H2 | apply H3 | apply H4 | apply H5
               | apply H6 | apply H7 | apply H8 | apply H9 | apply H10
               | apply finish_sameStatic | apply finishIfStarted_sameStatic ]).
  all: unfold addTestChild, addTestSuiteChild, bind, ret.
  all: match goal with
       | |- context [addChild ?fi ?th ?cn ?ty ?l ?t0] =>
           destruct (addChild_cases fi th cn ty l t0)
             as [[e He]|(n&Hn&_&_&He)]; rewrite He;
           [reflexivity|apply grown_accumulates]
       end.
Qed.

(** X23: nodes are never removed or renamed.  Whatever the calls of a
    session, every node is afterwards at the same place with the same id,
    parent, name, type and location; a test is still a test, and a suite
    still has the children it had, in the same order, with any new ones
    after them. *)
Theorem nodes_only_accumulate (fuel : nat) (calls : list call) (t : Tree)
    (r : nat) (n : Node) :
  heap t !! r = Some n ->
  exists n', heap (session fuel calls t).2 !! r = Some n'
             /\ nodeId n' = nodeId n /\ parent n' = parent n
             /\ name n' = name n /\ type n' = type n
             /\ locationPath n' = locationPath n
             /\ match childrenOf n with
                | Some cs => exists more, childrenOf n' = Some (cs ++ more)
                | None => childrenOf n' = None
                end.
Proof.
  assert (H : accumulates t (session fuel calls t).2).
  { revert t. induction calls as [|c calls IH]; intros t; [reflexivity|].
    rewrite session_cons. cbn [snd].
    transitivity (perform fuel c t).2; [apply perform_accumulates|apply IH]. }
  destruct H as (_&_&_&H). apply H.
Qed.

Lemma nodes_only_accumulate_witness :
  exists n', heap (session 4 [AddTestChild 1 (lit "c") None None; Finish 2 true]
                     Samples.startedSuite).2 !! 1%nat = Some n'
             /\ exists more, childrenOf n' = Some ([2; 3]%nat ++ more).
Proof.
  destruct (nodes_only_accumulate 4
              [AddTestChild 1 (lit "c") None None; Finish 2 true]
              Samples.startedSuite 1 _ eq_refl) as (n'&Hn'&_&_&_&_&_&Hc).
  exists n'. split; [exact Hn'|exact Hc].
Defined.

(** ** [isFinished] *)

Lemma onChildFinished_advances fuel this :
  preserves advances (onChildFinished fuel this).
Proof.
  unfold onChildFinished, onChildFinished_with. presAdv. apply finish_advances.
Qed.

Lemma isFinished_spec this t n :
  heap t !! this = Some n ->
  isFinished this t = (Ok (bool_decide (state n = FINISHED)), t).
Proof. intros Hn. unfold isFinished. run. reflexivity. Qed.

(** X24: [isFinished] after [finish].  When [finish] returns on a node
    other than the root, with or without notifying the parent and however
    many ancestors finish with it, [isFinished] of the node is true; when
    it returns on the root, nothing has changed. *)
Theorem isFinished_after_finish (fuel : nat) (t t' : Tree) (this : nat)
    (b : bool) :
  finish fuel this b t = (Ok tt, t') ->
  (this <> root t -> isFinished this t' = (Ok true, t'))
  /\ (this = root t -> t' = t).
Proof.
  intros Hfin. split.
  - intros Hr. destruct fuel as [|fuel]; [discriminate|].
    assert (Hst : stateOf t' this = Some FINISHED).
    { destruct (heap t !! this) as [n|] eqn:Hn.
      2:{ revert Hfin. cbn [finish]. run. rewrite decide_False by congruence.
          run. rewrite Hn. discriminate. }
      destruct (decide (state n ≠ REGISTERED ∧ state n ≠ STARTED)) as [[H1 H2]|Hs].
      { rewrite (finish_illegal fuel t this n b Hn Hr H1 H2) in Hfin.
        discriminate. }
      assert (Hs' : state n = REGISTERED \/ state n = STARTED).
      { destruct (state n); [exfalso; apply Hs; split; discriminate|auto..|].
        exfalso; apply Hs; split; discriminate. }
      destruct (getFinishMessage n) as [text|e] eqn:Htext.
      2:{ revert Hfin. cbn [finish]. run. rewrite decide_False by congruence.
          run. rewrite decide_False by done. rewrite Htext. discriminate. }
      rewrite (finish_step fuel this b t n text Hn Hr Hs' Htext) in Hfin.
      cbv zeta in Hfin.
      set (t1 := alterNode this (with_state FINISHED) (emit text t)) in *.
      assert (H1 : stateOf t1 this = Some FINISHED).
      { unfold t1. rewrite stateOf_alterNode, decide_True by done.
        change (heap (emit text t)) with (heap t). now rewrite Hn. }
      assert (Hadv : advances t1 t').
      { destruct b; [|injection Hfin as <-; reflexivity].
        destruct (parent n) as [p|]; [|injection Hfin as <-; reflexivity].
        case_decide; [|injection Hfin as <-; reflexivity].
        pose proof (onChildFinished_advances fuel p t1) as Ha.
        rewrite Hfin in Ha. exact Ha. }
      destruct (Hadv this FINISHED H1) as (s'&Hs1&Hle).
      destruct s'; cbn in Hle; try lia. exact Hs1. }
    unfold stateOf in Hst. destruct (heap t' !! this) as [n'|] eqn:Hn';
      [|discriminate].
    rewrite (isFinished_spec this t' n' Hn'). injection Hst as ->. reflexivity.
  - intros ->. destruct fuel as [|fuel]; [discriminate|].
    rewrite finish_root in Hfin. congruence.
Qed.

Lemma isFinished_after_finish_witness :
  isFinished 2 (finish 4 2 true Samples.startedSuite).2
  = (Ok true, (finish 4 2 true Samples.startedSuite).2).
Proof.
  apply (proj1 (isFinished_after_finish 4 Samples.startedSuite
                  (finish 4 2 true Samples.startedSuite).2 2 true eq_refl)).
  vm_compute. lia.
Defined.

(** ** [setMetainfo] *)

(** X25: the metainfo of a test shows when it is registered.  After
    [setMetainfo] with a string on a created test of a tree a caller can
    build, [register] succeeds and writes a testStarted message for the
    id of the test that ends with the attribute metainfo, whose value is
    the escaped string. *)
Theorem metainfo_shows_when_registered (t : Tree) (this : nat) (n : Node)
    (f : TestFields) (m : list N) :
  reachable t -> heap t !! this = Some n -> own n = TestNode f ->
  state n = CREATED ->
  exists t1 front,
    setMetainfo this (Some m) t = (Ok tt, t1)
    /\ register this t1
       = (Ok tt,
          alterNode this (with_state REGISTERED)
            (emit (lit "##teamcity[testStarted nodeId='" ++ idText (nodeId n)
                   ++ front ++ lit "' metainfo='" ++ escapeAttributeValue m
                   ++ lit "']") t1)).
Proof.
  intros Hreach Hn Hf Hs. pose proof (reachable_wf t Hreach) as W.
  set (g := fun f' : TestFields =>
         {| outcome := outcome f'; durationMillis := durationMillis f';
            failureMsg := failureMsg f'; failureDetails := failureDetails f';
            expectedStr := expectedStr f'; actualStr := actualStr f';
            expectedFilePath := expectedFilePath f';
            actualFilePath := actualFilePath f'; metainfo := Some m |}).
  set (t1 := alterNode this (onTest g) t).
  assert (Hn1 : heap t1 !! this = Some (onTest g n))
    by apply (lookup_alterNode_eq _ _ _ n Hn).
  assert (Hset : setMetainfo this (Some m) t = (Ok tt, t1)).
  { unfold setMetainfo. run. rewrite Hf. reflexivity. }
  assert (Hshape : forall pid,
    exists front,
      lit "##teamcity[" ++ getStartCommandName (onTest g n)
      ++ lit " nodeId='" ++ idText (nodeId (onTest g n))
      ++ lit "' parentNodeId='" ++ pid
      ++ lit "' name='" ++ escapeAttributeValue (name (onTest g n))
      ++ lit "' running='" ++ boolText false
      ++ match type (onTest g n) with
         | Some ty =>
             lit "' nodeType='" ++ ty
             ++ match locationPath (onTest g n) with
                | Some path =>
                    lit "' locationHint='"
                    ++ escapeAttributeValue (ty ++ lit "://" ++ path)
                | None => []
                end
         | None => []
         end
      ++ optAttr "metainfo" (metainfoOf (onTest g n)) ++ lit "']"
      = lit "##teamcity[testStarted nodeId='" ++ idText (nodeId n)
        ++ front ++ lit "' metainfo='" ++ escapeAttributeValue m ++ lit "']").
  { intros pid.
    exists (lit "' parentNodeId='" ++ pid
            ++ lit "' name='" ++ escapeAttributeValue (name n)
            ++ lit "' running='" ++ boolText false
            ++ match type n with
               | Some ty =>
                   lit "' nodeType='" ++ ty
                   ++ match locationPath n with
                      | Some path =>
                          lit "' locationHint='"
                          ++ escapeAttributeValue (ty ++ lit "://" ++ path)
                      | None => []
                      end
               | None => []
               end).
    unfold getStartCommandName, metainfoOf, onTest. rewrite Hf.
    cbn [own with_own nodeId name type locationPath metainfo g optAttr].
    change (lit "##teamcity[testStarted nodeId='")
      with (lit "##teamcity[" ++ lit "testStarted" ++ lit " nodeId='").
    change (lit "' metainfo='") with (lit "' " ++ lit "metainfo" ++ lit "='").
    rewrite <- !app_assoc. reflexivity. }
  assert (Hs1 : state (onTest g n) = CREATED)
    by (unfold onTest; rewrite Hf; exact Hs).
  assert (Hp1 : parent (onTest g n) = parent n)
    by (unfold onTest; rewrite Hf; reflexivity).
  destruct (parent n) as [p|] eqn:Hp.
  - pose proof (wf_acyclic t W this n p Hn Hp) as Hlt.
    destruct (lookup_lt_is_Some_2 (heap t) p) as [pn Hpn].
    { apply lookup_lt_Some in Hn. lia. }
    assert (Hpn1 : heap t1 !! p = Some pn).
    { unfold t1. rewrite lookup_alterNode_ne by lia. exact Hpn. }
    destruct (Hshape (idText (nodeId pn))) as (front&E).
    exists t1, front. split; [exact Hset|]. rewrite <- E.
    unfold register, getRegisterMessage, getInitMessage. run.
    rewrite decide_True by exact Hs1. run. rewrite Hp1. run.
    reflexivity.
  - destruct (Hshape (dec 0)) as (front&E).
    exists t1, front. split; [exact Hset|]. rewrite <- E.
    unfold register, getRegisterMessage, getInitMessage. run.
    rewrite decide_True by exact Hs1. run. rewrite Hp1. run.
    reflexivity.
Qed.

Lemma metainfo_shows_when_registered_witness :
  exists t1 front,
    setMetainfo 1 (Some (lit "[x]")) Samples.createdTest = (Ok tt, t1)
    /\ register 1 t1
       = (Ok tt,
          alterNode 1 (with_state REGISTERED)
            (emit (lit "##teamcity[testStarted nodeId='" ++ lit "1"
                   ++ front ++ lit "' metainfo='" ++ lit "|[x|]"
                   ++ lit "']") t1)).
Proof.
  exact (metainfo_shows_when_registered Samples.createdTest 1 _ _ (lit "[x]")
           ltac:(exists None, 2%nat, [AddTestChild 0 (lit "a") None None];
                 reflexivity)
           eq_refl eq_refl eq_refl).
Defined.
